(** * Online saturated cost partitioning and filtered systematic patterns

    A shallow embedding of
    - [search/pdbs/pattern_collection_generator_filtered_systematic.cc]
      (pattern scores, per-bucket pattern orders, the sequential pattern
      generator and one round of the selection loop), and
    - [search/cost_saturation/saturated_cost_partitioning_online_heuristic.cc]
      (novelty bookkeeping and [compute_heuristic]),
    followed by the properties of the specification stated over it.

    Conventions.  A C++ [int] is a [Z]; the arithmetic that the source
    guards against overflow ([get_pdb_size]) is modelled with its guard,
    plain counters ([++n]) are modelled without a bound, signed overflow
    being undefined behaviour in the source.  Variable, operator, pattern
    and abstraction ids are used as vector indices and are [nat].  A
    function that can hit [ABORT], a failing [assert] or an out-of-range
    vector access returns [option]; [None] stands for that outcome. *)

From stdpp Require Import base numbers option list sorting gmap.

Local Open Scope Z_scope.
#[local] Set Warnings "-clear-no-such-hyp".

(** ** Shared helpers *)

Definition INT_MAX : Z := 2147483647.
Definition INT_MIN : Z := -2147483648.

(** The [int] that a sum leaves when it is out of range, by two's-complement
    wrap-around. *)
Definition wrap_int (z : Z) : Z := (z - INT_MIN) `mod` 4294967296 + INT_MIN.

(** [v[i]] on a [std::vector]; [None] out of range. *)
Definition vec_get {A} (v : list A) (i : Z) : option A :=
  if bool_decide (0 ≤ i) then v !! Z.to_nat i else None.

(** [v[i] = x] on a [std::vector]; [None] out of range. *)
Definition vec_set {A} (v : list A) (i : Z) (x : A) : option (list A) :=
  if bool_decide (0 ≤ i < Z.of_nat (length v)) then Some (<[Z.to_nat i := x]> v)
  else None.

(** ** Pattern scores and orders (namespace pdbs) *)

Module Pdbs.

Definition Pattern := list nat.

Inductive PatternOrder :=
| ORIGINAL | RANDOM | REVERSE
| PDB_SIZE_UP | PDB_SIZE_DOWN
| CG_SUM_UP | CG_SUM_DOWN
| CG_MIN_UP | CG_MIN_DOWN
| CG_MAX_UP | CG_MAX_DOWN
| NEW_VAR_PAIRS_UP | NEW_VAR_PAIRS_DOWN
| ACTIVE_OPS_UP | ACTIVE_OPS_DOWN
| ALT_TWO
| ACTIVE_OPS_UP_CG_MIN_DOWN | CG_MIN_DOWN_ACTIVE_OPS_UP.

Global Instance PatternOrder_eq_dec : EqDecision PatternOrder.
Proof. solve_decision. Defined.

(** The part of [TaskInfo] the scores use. *)
Record TaskInfo := {
  get_num_operators : nat;
  operator_affects_pattern : Pattern → nat → bool
}.

(** Modelled from the spec: [utils::is_product_within_limit] (utils/math.h is
    not among the sources); it tells whether the product of two non-negative
    factors stays within the limit, computed without forming the product. *)
Definition is_product_within_limit (factor1 factor2 limit : Z) : bool :=
  bool_decide (factor2 = 0) || bool_decide (factor1 ≤ limit `div` factor2).

(** [domain_sizes[var]]; the read is undefined in the source when [var] is
    out of range, the model reads 0 there. *)
Definition domain_size (domain_sizes : list Z) (var : nat) : Z :=
  default 0 (domain_sizes !! var).

(** The loop of [get_pdb_size], started with the running value [size]. *)
Fixpoint get_pdb_size_from (size : Z) (domain_sizes : list Z)
    (pattern : Pattern) : Z :=
  match pattern with
  | [] => size
  | var :: rest =>
      if is_product_within_limit size (domain_size domain_sizes var) INT_MAX
      then get_pdb_size_from (size * domain_size domain_sizes var)
             domain_sizes rest
      else -1
  end.

Definition get_pdb_size (domain_sizes : list Z) (pattern : Pattern) : Z :=
  get_pdb_size_from 1 domain_sizes pattern.

(** [get_sum]; the sum is accumulated in an [int]. *)
Definition get_sum (pattern : Pattern) : Z :=
  foldl (λ sum var, wrap_int (sum + Z.of_nat var)) 0 pattern.

Definition get_min (pattern : Pattern) : Z :=
  foldl (λ res var, Z.min res (Z.of_nat var)) INT_MAX pattern.

Definition get_max (pattern : Pattern) : Z :=
  foldl (λ res var, Z.max res (Z.of_nat var)) (-1) pattern.

(** [used_var_pairs[var1][var2]]; reads [false] out of range. *)
Definition var_pair_used (used_var_pairs : list (list bool))
    (var1 var2 : nat) : bool :=
  default false (row ← used_var_pairs !! var1; row !! var2).

(** The two nested iterator loops of [get_num_new_var_pairs]: [it2] runs
    over the elements after [it1]. *)
Fixpoint get_num_new_var_pairs (pattern : Pattern)
    (used_var_pairs : list (list bool)) : Z :=
  match pattern with
  | [] => 0
  | var1 :: rest =>
      foldl (λ n var2, if var_pair_used used_var_pairs var1 var2
                       then n else n + 1) 0 rest
      + get_num_new_var_pairs rest used_var_pairs
  end.

Definition get_num_active_ops (pattern : Pattern) (task_info : TaskInfo) : Z :=
  foldl (λ n op_id, if operator_affects_pattern task_info pattern op_id
                    then n + 1 else n)
    0 (seq 0 (get_num_operators task_info)).

(** [compute_score]; [None] is the [ABORT("wrong order_type")]. *)
Definition compute_score (pattern : Pattern) (order_type : PatternOrder)
    (task_info : TaskInfo) (domains : list Z)
    (used_var_pairs : list (list bool)) : option Z :=
  match order_type with
  | PDB_SIZE_UP | PDB_SIZE_DOWN => Some (get_pdb_size domains pattern)
  | CG_SUM_UP | CG_SUM_DOWN => Some (get_sum pattern)
  | CG_MIN_UP | CG_MIN_DOWN => Some (get_min pattern)
  | CG_MAX_UP | CG_MAX_DOWN => Some (get_max pattern)
  | NEW_VAR_PAIRS_UP | NEW_VAR_PAIRS_DOWN =>
      Some (get_num_new_var_pairs pattern used_var_pairs)
  | ACTIVE_OPS_UP | ACTIVE_OPS_DOWN =>
      Some (get_num_active_ops pattern task_info)
  | _ => None
  end.

(** *** Collaborators that are not part of the translation unit *)

(** [std::sort(first, last, comp)]: the comparator is passed as a boolean
    "less" function. *)
Definition Sorter := (nat → nat → bool) → list nat → list nat.

(** [utils::RandomNumberGenerator]: [rng.shuffle(vec)] and [rng(bound)],
    both advancing the generator. *)
Record RandomNumberGenerator := {
  rng_state : Type;
  rng_shuffle : rng_state → list nat → list nat * rng_state;
  rng_below : rng_state → Z → Z * rng_state
}.

(** [operator<] of [std::pair<int, int>]. *)
Definition pair_lt (p q : Z * Z) : bool :=
  bool_decide (p.1 < q.1) || (bool_decide (p.1 = q.1) && bool_decide (p.2 < q.2)).

Definition is_down_order (order_type : PatternOrder) : bool :=
  match order_type with
  | PDB_SIZE_DOWN | CG_SUM_DOWN | CG_MIN_DOWN | CG_MAX_DOWN
  | NEW_VAR_PAIRS_DOWN | ACTIVE_OPS_DOWN => true
  | _ => false
  end.

Section pattern_order.
Variable std_sort : Sorter.
Variable R : RandomNumberGenerator.

(** [scores[i]] and [pairs[i]] inside the comparators; the model reads a
    default where the source reads out of range. *)
Definition score_at (scores : list Z) (i : nat) : Z := default 0 (scores !! i).
Definition pair_at (pairs : list (Z * Z)) (i : nat) : Z * Z :=
  default (0, 0) (pairs !! i).

(** The (active_ops, cg_min) pair of the two composite orders. *)
Definition composite_pair (order_type : PatternOrder) (task_info : TaskInfo)
    (domains : list Z) (used_var_pairs : list (list bool))
    (pattern : Pattern) : option (Z * Z) :=
  active_ops ← compute_score pattern ACTIVE_OPS_UP task_info domains used_var_pairs;
  cg_min ← compute_score pattern CG_MIN_DOWN task_info domains used_var_pairs;
  if decide (order_type = ACTIVE_OPS_UP_CG_MIN_DOWN)
  then Some (active_ops, - cg_min)
  else Some (- cg_min, active_ops).

(** [compute_pattern_order]: returns the new contents of [order] and the
    advanced generator.  [None] is a failed [assert] or the [ABORT] of
    [compute_score]. *)
Definition compute_pattern_order (patterns : list Pattern) (order : list nat)
    (order_type : PatternOrder) (task_info : TaskInfo) (domains : list Z)
    (used_var_pairs : list (list bool)) (rng : rng_state R)
    : option (list nat * rng_state R) :=
  if negb (bool_decide (length patterns = length order)) then None
  else if decide (order_type = ORIGINAL) then Some (order, rng)
  else if decide (order_type = REVERSE) then Some (reverse order, rng)
  else
    let '(order, rng) := rng_shuffle R rng order in
    if decide (order_type = RANDOM) then Some (order, rng)
    else if bool_decide (order_type = ACTIVE_OPS_UP_CG_MIN_DOWN
                         ∨ order_type = CG_MIN_DOWN_ACTIVE_OPS_UP) then
      pairs ← mapM (composite_pair order_type task_info domains used_var_pairs)
                patterns;
      Some (std_sort (λ i j, pair_lt (pair_at pairs i) (pair_at pairs j)) order,
            rng)
    else
      scores ← mapM (λ pattern, compute_score pattern order_type task_info
                                  domains used_var_pairs) patterns;
      let order :=
        std_sort (λ i j, bool_decide (score_at scores i < score_at scores j))
          order in
      Some (if is_down_order order_type then reverse order else order, rng).

(** *** SequentialPatternGenerator *)

Record SequentialPatternGenerator := {
  task_info : TaskInfo;
  max_pattern_size : nat;
  order_type : PatternOrder;
  default_order_type : PatternOrder;
  rng : rng_state R;
  domains : list Z;
  patterns : list (list Pattern);
  orders : list (list nat);
  cached_pattern_size : nat;
  num_generated_patterns : Z
}.

Definition set_rng (g : SequentialPatternGenerator) (r : rng_state R) :=
  {| task_info := task_info g; max_pattern_size := max_pattern_size g;
     order_type := order_type g; default_order_type := default_order_type g;
     rng := r; domains := domains g; patterns := patterns g;
     orders := orders g; cached_pattern_size := cached_pattern_size g;
     num_generated_patterns := num_generated_patterns g |}.

Definition set_orders (g : SequentialPatternGenerator) (os : list (list nat)) :=
  {| task_info := task_info g; max_pattern_size := max_pattern_size g;
     order_type := order_type g; default_order_type := default_order_type g;
     rng := rng g; domains := domains g; patterns := patterns g;
     orders := os; cached_pattern_size := cached_pattern_size g;
     num_generated_patterns := num_generated_patterns g |}.

(** [get_order_type]: the policy, with the coin flip of [ALT_TWO]. *)
Definition get_order_type (g : SequentialPatternGenerator)
    : PatternOrder * SequentialPatternGenerator :=
  if decide (order_type g = ALT_TWO) then
    let '(coin, r) := rng_below R (rng g) 2 in
    (if bool_decide (coin = 0) then CG_MIN_DOWN else ACTIVE_OPS_UP, set_rng g r)
  else (order_type g, g).

(** The loop of [restart] over the cached buckets, from bucket [i] on:
    [os] are the orders [orders[i..]], [ps] the buckets [patterns[i..]]. *)
Fixpoint restart_orders (current_order_type : PatternOrder)
    (task_info : TaskInfo) (domains : list Z)
    (used_var_pairs : list (list bool)) (ps : list (list Pattern))
    (os : list (list nat)) (r : rng_state R) {struct os}
    : option (list (list nat) * rng_state R) :=
  match os with
  | [] => Some ([], r)
  | order :: os' =>
      match ps with
      | [] => None
      | bucket :: ps' =>
          '(order', r') ← compute_pattern_order bucket order current_order_type
                            task_info domains used_var_pairs r;
          '(rest, r'') ← restart_orders current_order_type task_info domains
                           used_var_pairs ps' os' r';
          Some (order' :: rest, r'')
      end
  end.

Definition restart (g : SequentialPatternGenerator)
    (used_var_pairs : list (list bool)) : option SequentialPatternGenerator :=
  if bool_decide (order_type g = RANDOM ∨ order_type g = NEW_VAR_PAIRS_UP
                  ∨ order_type g = NEW_VAR_PAIRS_DOWN ∨ order_type g = ALT_TWO)
  then
    let '(current_order_type, g) := get_order_type g in
    '(os, r) ← restart_orders current_order_type (task_info g) (domains g)
                 used_var_pairs (patterns g) (orders g) (rng g);
    Some (set_rng (set_orders g os) r)
  else Some g.

(** The bucket search of [get_pattern]: walks [orders] from bucket
    [bucket_id] on and returns the bucket and the internal id of
    [pattern_id]; [None] is the failed [assert(internal_id != -1)] or an
    out-of-range read of [order]. *)
Fixpoint find_bucket (os : list (list nat)) (bucket_id : nat)
    (start_id end_id pattern_id : Z) : option (nat * nat) :=
  match os with
  | [] => None
  | order :: os' =>
      let end_id := end_id + Z.of_nat (length order) in
      if bool_decide (start_id ≤ pattern_id ∧ pattern_id ≤ end_id) then
        internal_id ← vec_get order (pattern_id - start_id);
        Some (bucket_id, internal_id)
      else find_bucket os' (S bucket_id)
             (start_id + Z.of_nat (length order)) end_id pattern_id
  end.

(** [get_patterns(task, pattern_size, only_sga_patterns, timer)] of the
    systematic generator: the patterns of exactly that size, or [None]
    ([nullptr]) when the timer expired. *)
Variable get_patterns : nat → option (list Pattern).

(** [get_pattern].  The recursion of the source is on the number of
    buckets still to materialise: [n] is
    [max_pattern_size - cached_pattern_size], so that [n = 0] is the
    failure of the test [cached_pattern_size < max_pattern_size]. *)
Fixpoint get_pattern_rec (n : nat) (g : SequentialPatternGenerator)
    (pattern_id : Z) (used_var_pairs : list (list bool))
    : option (Pattern * SequentialPatternGenerator) :=
  if bool_decide (pattern_id < 0) then None
  else if bool_decide (pattern_id < num_generated_patterns g) then
    '(bucket_id, internal_id) ← find_bucket (orders g) 0 0 (-1) pattern_id;
    bucket ← patterns g !! bucket_id;
    pattern ← bucket !! internal_id;
    Some (pattern, g)
  else
    match n with
    | O => Some ([], g)
    | S n' =>
        match get_patterns (cached_pattern_size g + 1) with
        | Some current_patterns =>
            let current_order := seq 0 (length current_patterns) in
            '(current_order, r) ←
              compute_pattern_order current_patterns current_order
                (default_order_type g) (task_info g) (domains g)
                used_var_pairs (rng g);
            get_pattern_rec n'
              {| task_info := task_info g;
                 max_pattern_size := max_pattern_size g;
                 order_type := order_type g;
                 default_order_type := default_order_type g;
                 rng := r; domains := domains g;
                 patterns := patterns g ++ [current_patterns];
                 orders := orders g ++ [current_order];
                 cached_pattern_size := S (cached_pattern_size g);
                 num_generated_patterns :=
                   num_generated_patterns g
                   + Z.of_nat (length current_patterns) |}
              pattern_id used_var_pairs
        | None => Some ([], g)
        end
    end.

Definition get_pattern (g : SequentialPatternGenerator) (pattern_id : Z)
    (used_var_pairs : list (list bool))
    : option (Pattern * SequentialPatternGenerator) :=
  get_pattern_rec (max_pattern_size g - cached_pattern_size g)%nat g
    pattern_id used_var_pairs.

End pattern_order.

(** *** One round of [select_systematic_patterns] *)

(** [contains_positive_finite_value]. *)
Definition contains_positive_finite_value (values : list Z) : bool :=
  existsb (λ v, bool_decide (0 < v) && negb (bool_decide (v = INT_MAX))) values.

(** [only_free_operators_affect_pdb]; [costs[op]] reads 0 out of range. *)
Definition only_free_operators_affect_pdb (pattern : Pattern) (costs : list Z)
    (relevant_operators_per_variable : list (list nat)) : bool :=
  forallb (λ var,
    forallb (λ op,
      negb (bool_decide (0 < default 0 (costs !! op))
            && negb (bool_decide (default 0 (costs !! op) = INT_MAX))))
      (default [] (relevant_operators_per_variable !! var)))
    pattern.

(** The double loop [used_var_pairs[var1][var2] = true] over the pattern. *)
Definition mark_used_var_pairs (pattern : Pattern)
    (used_var_pairs : list (list bool)) : list (list bool) :=
  foldl (λ used var1,
    foldl (λ used var2,
      alter (λ row, <[var2 := true]> row) var1 used) used pattern)
    used_var_pairs pattern.

(** Modelled from the spec: the [DeadEndTreatment] option (its enumeration
    is declared in a header that is not among the sources), with the four
    values of the option [dead_ends]. *)
Inductive DeadEndTreatment := IGNORE | ALL | NEW | NEW_FOR_CURRENT_ORDER.

Global Instance DeadEndTreatment_eq_dec : EqDecision DeadEndTreatment.
Proof. solve_decision. Defined.

(** The options of [PatternCollectionGeneratorFilteredSystematic] that the
    loop reads, and the collaborators it calls: the pattern evaluator and the
    projection with its goal distances and saturated costs. *)
Record Driver := {
  Projection : Type;
  DeadEnds : Type;
  variable_domains : list Z;
  max_pdb_size : Z;
  max_collection_size : Z;
  max_patterns : Z;
  saturate : bool;
  ignore_useless_patterns : bool;
  dead_end_treatment : DeadEndTreatment;
  relevant_operators_per_variable : list (list nat);
  make_projection : Pattern → Projection;
  is_useful : Pattern → DeadEnds → list Z → bool * DeadEnds;
  compute_goal_distances : Projection → list Z → list Z;
  compute_saturated_costs : Projection → list Z → nat → list Z;
  reduce_costs : list Z → list Z → list Z
}.

(** The [assert]s that follow the call of [is_useful]: under [IGNORE] and
    [ALL] the verdict of the evaluator agrees with the goal distances of a
    projection computed for the pattern; the third [assert] holds for every
    other value of the option. *)
Definition is_useful_assertion (D : Driver) (pattern : Pattern)
    (costs : list Z) (select_pattern : bool) : bool :=
  let goal_distances :=
    compute_goal_distances D (make_projection D pattern) costs in
  match dead_end_treatment D with
  | IGNORE =>
      bool_decide
        (select_pattern = contains_positive_finite_value goal_distances)
  | ALL =>
      bool_decide
        (select_pattern = existsb (λ d, bool_decide (0 < d)) goal_distances)
  | NEW | NEW_FOR_CURRENT_ORDER => true
  end.

Section driver.
Variable std_sort : Sorter.
Variable R : RandomNumberGenerator.
Variable get_patterns : nat → option (list Pattern).
Variable D : Driver.

(** The variables of [select_systematic_patterns] and of its caller that
    live across the rounds of the [while (true)] loop. *)
Record SelectState := {
  pattern_generator : SequentialPatternGenerator R;
  dead_ends : DeadEnds D;
  projections : list (Projection D);
  pattern_set : list Pattern;
  used_var_pairs : list (list bool);
  collection_size : Z;
  costs : list Z;
  pattern_id : Z;
  num_pattern_evaluations : Z
}.

(** How a round leaves the loop body: [continue] (or falling through to the
    next round) or [return b]. *)
Inductive Round :=
| Continue (s : SelectState)
| Return (b : bool) (s : SelectState).

Definition round_state (r : Round) : SelectState :=
  match r with Continue s | Return _ s => s end.

(** One round of the loop.  [timer_is_expired] is the reading of
    [timer.is_expired()] after [get_pattern]; [None] also is a failed
    [assert] on the verdict of [is_useful]. *)
Definition select_round (timer_is_expired : bool) (s : SelectState)
    : option Round :=
  let pattern_id := pattern_id s + 1 in
  '(pattern, generator) ← get_pattern std_sort R get_patterns
                            (pattern_generator s) pattern_id (used_var_pairs s);
  let s := {| pattern_generator := generator; dead_ends := dead_ends s;
              projections := projections s; pattern_set := pattern_set s;
              used_var_pairs := used_var_pairs s;
              collection_size := collection_size s; costs := costs s;
              pattern_id := pattern_id;
              num_pattern_evaluations := num_pattern_evaluations s |} in
  if timer_is_expired then Some (Return false s)
  else if bool_decide (pattern = []) then Some (Return false s)
  else if bool_decide (pattern ∈ pattern_set s) then Some (Continue s)
  else
    let pdb_size := get_pdb_size (variable_domains D) pattern in
    if bool_decide (pdb_size = -1 ∨ pdb_size > max_pdb_size D) then
      (* Pattern is too large. *)
      Some (Continue s)
    else if bool_decide (Z.of_nat (length (projections s)) = max_patterns D) then
      Some (Return true s)
    else if bool_decide (max_collection_size D ≠ INT_MAX
                         ∧ pdb_size > max_collection_size D - collection_size s) then
      Some (Return true s)
    else if ignore_useless_patterns D
            && only_free_operators_affect_pdb pattern (costs s)
                 (relevant_operators_per_variable D) then
      Some (Continue s)
    else
      let '(select_pattern, dead) :=
        if saturate D then is_useful D pattern (dead_ends s) (costs s)
        else (true, dead_ends s) in
      if saturate D
         && negb (is_useful_assertion D pattern (costs s) select_pattern)
      then None
      else
      let evaluations := num_pattern_evaluations s + 1 in
      if select_pattern then
        let projection := make_projection D pattern in
        let costs' :=
          if saturate D then
            let goal_distances := compute_goal_distances D projection (costs s) in
            let saturated_costs :=
              compute_saturated_costs D projection goal_distances
                (length (costs s)) in
            reduce_costs D (costs s) saturated_costs
          else costs s in
        Some (Continue
          {| pattern_generator := pattern_generator s; dead_ends := dead;
             projections := projections s ++ [projection];
             pattern_set := pattern :: pattern_set s;
             used_var_pairs := mark_used_var_pairs pattern (used_var_pairs s);
             collection_size := collection_size s + pdb_size;
             costs := costs';
             pattern_id := pattern_id;
             num_pattern_evaluations := evaluations |})
      else
        Some (Continue
          {| pattern_generator := pattern_generator s; dead_ends := dead;
             projections := projections s; pattern_set := pattern_set s;
             used_var_pairs := used_var_pairs s;
             collection_size := collection_size s; costs := costs s;
             pattern_id := pattern_id;
             num_pattern_evaluations := evaluations |}).

End driver.

(** *** Concrete collaborators, used to run the model *)

(** A stable insertion sort: among the sorts [std::sort] may be, one that
    keeps equal elements in their incoming order.  An element is inserted
    before the first element that is not less than it. *)
Fixpoint insert_before_not_less (less : nat → nat → bool) (x : nat)
    (l : list nat) : list nat :=
  match l with
  | [] => [x]
  | y :: l' =>
      if less y x then y :: insert_before_not_less less x l' else x :: y :: l'
  end.

Definition stable_sort : Sorter :=
  λ less l, foldr (insert_before_not_less less) [] l.

(** A generator whose state is the list of the numbers it will draw. *)
Definition draw (bound : Z) (st : list Z) : Z * list Z :=
  match st with
  | [] => (0, [])
  | x :: st' => (x `mod` bound, st')
  end.

(** A shuffle by repeated selection: draws a position of the remaining
    elements, moves that element to the output, and goes on. *)
Fixpoint select_shuffle (n : nat) (l : list nat) (st : list Z)
    : list nat * list Z :=
  match n with
  | O => (l, st)
  | S n' =>
      let '(k, st') := draw (Z.of_nat (length l)) st in
      match l !! Z.to_nat k with
      | Some x =>
          let '(rest, st'') := select_shuffle n' (delete (Z.to_nat k) l) st' in
          (x :: rest, st'')
      | None => (l, st')
      end
  end.

Definition stream_rng : RandomNumberGenerator :=
  {| rng_state := list Z;
     rng_shuffle := λ st l, select_shuffle (length l) l st;
     rng_below := λ st bound, draw bound st |}.

(** *** Vocabulary of the properties *)

(** The product of the domain sizes of the pattern variables. *)
Definition domain_product (domain_sizes : list Z) (pattern : Pattern) : Z :=
  foldr (λ var acc, domain_size domain_sizes var * acc) 1 pattern.

(** What [std::sort] promises for a comparator that is a strict weak order:
    the result is a rearrangement of the input in which no element is less
    than an earlier one. *)
Definition strict_weak_order (less : nat → nat → bool) : Prop :=
  (∀ a, less a a = false)
  ∧ (∀ a b c, less a b = true → less b c = true → less a c = true)
  ∧ (∀ a b c, less a b = false → less b c = false → less a c = false).

Definition sort_contract (sort : Sorter) : Prop :=
  ∀ less l, strict_weak_order less →
    sort less l ≡ₚ l ∧ StronglySorted (λ i j, less j i = false) (sort less l).

(** What [rng.shuffle] promises: a rearrangement of the vector. *)
Definition shuffle_contract (R : RandomNumberGenerator) : Prop :=
  ∀ st l, (rng_shuffle R st l).1 ≡ₚ l.

(** The policies that sort by a single score, and the two composites. *)
Definition is_score_order (order_type : PatternOrder) : bool :=
  match order_type with
  | PDB_SIZE_UP | PDB_SIZE_DOWN | CG_SUM_UP | CG_SUM_DOWN
  | CG_MIN_UP | CG_MIN_DOWN | CG_MAX_UP | CG_MAX_DOWN
  | NEW_VAR_PAIRS_UP | NEW_VAR_PAIRS_DOWN
  | ACTIVE_OPS_UP | ACTIVE_OPS_DOWN => true
  | _ => false
  end.

Definition is_composite_order (order_type : PatternOrder) : bool :=
  match order_type with
  | ACTIVE_OPS_UP_CG_MIN_DOWN | CG_MIN_DOWN_ACTIVE_OPS_UP => true
  | _ => false
  end.

(** The score, and the composite pair, of the pattern with id [i]. *)
Definition pattern_score (patterns : list Pattern) (order_type : PatternOrder)
    (task_info : TaskInfo) (domains : list Z)
    (used_var_pairs : list (list bool)) (i : nat) : Z :=
  default 0 (pattern ← patterns !! i;
             compute_score pattern order_type task_info domains used_var_pairs).

Definition pattern_pair (patterns : list Pattern) (order_type : PatternOrder)
    (task_info : TaskInfo) (domains : list Z)
    (used_var_pairs : list (list bool)) (i : nat) : Z * Z :=
  default (0, 0)
    (pattern ← patterns !! i;
     composite_pair order_type task_info domains used_var_pairs pattern).

Definition pair_le (p q : Z * Z) : Prop :=
  p.1 < q.1 ∨ (p.1 = q.1 ∧ p.2 ≤ q.2).

(** An order is arranged by a policy: scores do not decrease along an [_UP]
    order, do not increase along a [_DOWN] order, and the pairs do not
    decrease lexicographically along a composite order. *)
Definition arranged_by (order_type : PatternOrder) (patterns : list Pattern)
    (task_info : TaskInfo) (domains : list Z)
    (used_var_pairs : list (list bool)) (order : list nat) : Prop :=
  let score := pattern_score patterns order_type task_info domains used_var_pairs in
  let pair := pattern_pair patterns order_type task_info domains used_var_pairs in
  if is_composite_order order_type
  then StronglySorted (λ i j, pair_le (pair i) (pair j)) order
  else if is_down_order order_type
  then StronglySorted (λ i j, score j ≤ score i) order
  else StronglySorted (λ i j, score i ≤ score j) order.

(** Ties keep the earlier order: two patterns of equal score that follow
    each other in [after] already followed each other that way in [before]. *)
Definition ties_keep_order (score : nat → Z) (before after : list nat) : Prop :=
  ∀ p q a b, (p < q)%nat → after !! p = Some a → after !! q = Some b →
    score a = score b →
    ∃ p' q', before !! p' = Some a ∧ before !! q' = Some b ∧ (p' < q')%nat.

Definition data_dependent_order (order_type : PatternOrder) : Prop :=
  order_type = RANDOM ∨ order_type = NEW_VAR_PAIRS_UP
  ∨ order_type = NEW_VAR_PAIRS_DOWN ∨ order_type = ALT_TWO.

(** *** A small task to run the pattern generator on

    Two variables with 65536 values each, no operators; the systematic
    generator yields the two singleton patterns and the pair. *)

Definition toy_task_info : TaskInfo :=
  {| get_num_operators := 0; operator_affects_pattern := λ _ _, false |}.

Definition toy_get_patterns (pattern_size : nat) : option (list Pattern) :=
  match pattern_size with
  | 1%nat => Some [[0%nat]; [1%nat]]
  | 2%nat => Some [[0%nat; 1%nat]]
  | _ => Some []
  end.

Definition toy_driver : Driver :=
  {| Projection := Pattern; DeadEnds := unit;
     variable_domains := [65536; 65536];
     max_pdb_size := 100000; max_collection_size := INT_MAX;
     max_patterns := INT_MAX; saturate := false;
     ignore_useless_patterns := false; dead_end_treatment := NEW;
     relevant_operators_per_variable := [[]; []];
     make_projection := λ pattern, pattern;
     is_useful := λ _ dead _, (true, dead);
     compute_goal_distances := λ _ _, [];
     compute_saturated_costs := λ _ _ _, [];
     reduce_costs := λ costs _, costs |}.

Definition toy_generator (order_type : PatternOrder) (draws : list Z)
    : SequentialPatternGenerator stream_rng :=
  {| task_info := toy_task_info; max_pattern_size := 2;
     order_type := order_type; default_order_type := order_type;
     rng := draws : rng_state stream_rng; domains := [65536; 65536];
     patterns := []; orders := []; cached_pattern_size := 0;
     num_generated_patterns := 0 |}.

(** The generator after the bucket of the singleton patterns was cached
    with the order [order]. *)
Definition toy_cached_generator (order_type : PatternOrder) (draws : list Z)
    (order : list nat) : SequentialPatternGenerator stream_rng :=
  {| task_info := toy_task_info; max_pattern_size := 2;
     order_type := order_type; default_order_type := order_type;
     rng := draws : rng_state stream_rng; domains := [65536; 65536];
     patterns := [[[0%nat]; [1%nat]]]; orders := [order];
     cached_pattern_size := 1; num_generated_patterns := 2 |}.

(** The loop state before the round that asks for pattern 2, the pair. *)
Definition toy_select_state : SelectState stream_rng toy_driver :=
  {| pattern_generator := toy_generator ORIGINAL [];
     dead_ends := () : DeadEnds toy_driver;
     projections := []; pattern_set := [];
     used_var_pairs := [[false; false]; [false; false]];
     collection_size := 0; costs := [];
     pattern_id := 1; num_pattern_evaluations := 0 |}.

(** *** The rest of the translation unit: operators per variable, the
        patterns of one size, the selection loop and [generate] *)

(** [get_relevant_operators_per_variable]: [operators] holds, per operator
    id, the variables of its effects; the id of an operator is appended to
    the list of each of them. *)
Definition get_relevant_operators_per_variable (num_variables : nat)
    (operators : list (list nat)) : list (list nat) :=
  foldl (λ operators_per_variable '(op_id, effect_vars),
    foldl (λ operators_per_variable var,
      alter (λ ops, ops ++ [op_id]) var operators_per_variable)
      operators_per_variable effect_vars)
    (replicate num_variables []) (imap (λ op_id effect_vars, (op_id, effect_vars))
                                    operators).

(** [get_patterns]: [handled] are the calls the systematic generator makes
    on the callback, each a pattern with its [handle] flag; the callback
    keeps the handled patterns of exactly the size asked for; an expired
    timer gives [nullptr]. *)
Definition get_patterns (handled : list (Pattern * bool))
    (timer_is_expired : bool) (pattern_size : nat) : option (list Pattern) :=
  if timer_is_expired then None
  else Some (omap (λ '(pattern, handle),
               if (handle : bool) && bool_decide (length pattern = pattern_size)
               then Some pattern else None) handled).

Section generate.
Variable std_sort : Sorter.
Variable R : RandomNumberGenerator.
Variable D : Driver.

(** The [while (true)] loop of [select_systematic_patterns]: one element of
    [timer_readings] per round, the reading of [timer.is_expired()] in it;
    [None] also stands for a loop that outlasts the readings given. *)
Fixpoint select_rounds (get_patterns : nat → option (list Pattern))
    (timer_readings : list bool) (s : SelectState R D)
    : option (bool * SelectState R D) :=
  match timer_readings with
  | [] => None
  | timer_is_expired :: rest =>
      round ← select_round std_sort R get_patterns D timer_is_expired s;
      match round with
      | Continue _ _ s' => select_rounds get_patterns rest s'
      | Return _ _ b s' => Some (b, s')
      end
  end.

(** The options and the task data that [generate] reads besides those of
    the selection loop. *)
Record GenerateOptions := {
  store_orders : bool;
  no_dead_ends : DeadEnds D;               (* dead_ends after clear() *)
  operator_costs : list Z                  (* get_operator_costs(task_proxy) *)
}.

(** What one pass of the outer loop of [generate] meets: the patterns the
    systematic generator yields per size, the timer readings of the rounds
    and whether the overall timer is expired after the pass. *)
Record Pass := {
  pass_get_patterns : nat → option (list Pattern);
  pass_timer_readings : list bool;
  pass_timer_is_expired : bool
}.

(** [select_systematic_patterns] as [generate] calls it: the loop starts
    with [pattern_id = -1] and the operator costs of the task. *)
Definition select_systematic_patterns (G : GenerateOptions) (pass : Pass)
    (s : SelectState R D) : option (bool * SelectState R D) :=
  select_rounds (pass_get_patterns pass) (pass_timer_readings pass)
    {| pattern_generator := pattern_generator R D s;
       dead_ends := dead_ends R D s;
       projections := projections R D s;
       pattern_set := pattern_set R D s;
       used_var_pairs := used_var_pairs R D s;
       collection_size := collection_size R D s;
       costs := operator_costs G;
       pattern_id := -1;
       num_pattern_evaluations := num_pattern_evaluations R D s |}.

(** The outer loop of [generate], one element of [passes] per pass; the
    second component are the orders pushed to
    [systematic_generator_orders_hacked]. *)
Fixpoint generate_passes (G : GenerateOptions) (passes : list Pass)
    (s : SelectState R D) (stored : list (list nat))
    : option (SelectState R D * list (list nat)) :=
  match passes with
  | [] => None
  | pass :: rest =>
      generator ← restart std_sort R (pattern_generator R D s)
                    (used_var_pairs R D s);
      let s :=
        {| pattern_generator := generator;
           dead_ends :=
             if bool_decide (dead_end_treatment D = NEW_FOR_CURRENT_ORDER)
             then no_dead_ends G else dead_ends R D s;
           projections := projections R D s;
           pattern_set := pattern_set R D s;
           used_var_pairs := used_var_pairs R D s;
           collection_size := collection_size R D s;
           costs := costs R D s;
           pattern_id := pattern_id R D s;
           num_pattern_evaluations := num_pattern_evaluations R D s |} in
      let num_patterns_before := length (projections R D s) in
      '(limit_reached, s) ← select_systematic_patterns G pass s;
      let num_patterns_after := length (projections R D s) in
      let stored :=
        if store_orders G && bool_decide (num_patterns_before < num_patterns_after)%nat
        then stored ++ [seq num_patterns_before
                          (num_patterns_after - num_patterns_before)]
        else stored in
      if bool_decide (num_patterns_after = num_patterns_before) then
        Some (s, stored)
      else if pass_timer_is_expired pass then Some (s, stored)
      else if limit_reached : bool then Some (s, stored)
      else generate_passes G rest s stored
  end.

(** The state [generate] starts the outer loop with. *)
Definition generate_start (G : GenerateOptions)
    (generator : SequentialPatternGenerator R) (num_vars : nat)
    : SelectState R D :=
  {| pattern_generator := generator;
     dead_ends := no_dead_ends G;
     projections := [];
     pattern_set := [];
     used_var_pairs := replicate num_vars (replicate num_vars false);
     collection_size := 0;
     costs := operator_costs G;
     pattern_id := -1;
     num_pattern_evaluations := 0 |}.

Definition generate (G : GenerateOptions) (passes : list Pass)
    (generator : SequentialPatternGenerator R) (num_vars : nat)
    : option (SelectState R D * list (list nat)) :=
  generate_passes G passes (generate_start G generator num_vars) [].

End generate.

(** The constructor of [SequentialPatternGenerator]: [None] is the failed
    [assert(max_pattern_size_ >= 0)]. *)
Definition new_generator {R : RandomNumberGenerator} (task_info : TaskInfo)
    (domains : list Z) (max_pattern_size_ : Z) (order : PatternOrder)
    (rng : rng_state R) : option (SequentialPatternGenerator R) :=
  if bool_decide (max_pattern_size_ < 0) then None
  else
    let g :=
      {| task_info := task_info;
         max_pattern_size :=
           Z.to_nat (Z.min max_pattern_size_ (Z.of_nat (length domains)));
         order_type := order; default_order_type := order;
         rng := rng; domains := domains; patterns := []; orders := [];
         cached_pattern_size := 0; num_generated_patterns := 0 |} in
    let '(default_order, g) := get_order_type R g in
    Some {| task_info := task_info; max_pattern_size := max_pattern_size R g;
            order_type := order; default_order_type := default_order;
            rng := Pdbs.rng R g; domains := domains; patterns := [];
            orders := []; cached_pattern_size := 0;
            num_generated_patterns := 0 |}.

(** *** Vocabulary of the further properties *)

(** The cached buckets and orders fit together: one order per bucket, each
    a rearrangement of the ids of its bucket, and [num_generated_patterns]
    counts the patterns of all buckets. *)
Definition generator_consistent {R : RandomNumberGenerator}
    (g : SequentialPatternGenerator R) : Prop :=
  Forall2 (λ bucket order, order ≡ₚ seq 0 (length bucket))
    (patterns R g) (orders R g)
  ∧ num_generated_patterns R g
    = Z.of_nat (length (concat (patterns R g))).

(** The patterns in the order in which ascending ids yield them: bucket
    after bucket, each in the order of its cached order. *)
Definition enumeration {R : RandomNumberGenerator}
    (g : SequentialPatternGenerator R) : list Pattern :=
  concat (zip_with (λ bucket order, omap (λ i, bucket !! i) order)
            (patterns R g) (orders R g)).

(** The buckets are those of the sizes 1, 2, ... in turn: as many as
    [cached_pattern_size] says, the bucket at position [k] holding patterns
    of [k + 1] variables only. *)
Definition buckets_by_size {R : RandomNumberGenerator}
    (g : SequentialPatternGenerator R) : Prop :=
  length (patterns R g) = cached_pattern_size R g
  ∧ ∀ k bucket, patterns R g !! k = Some bucket →
      Forall (λ pattern, length pattern = S k) bucket.

(** The policy [get_pattern] and [restart] hand to [compute_pattern_order]
    is a proper one: not [ALT_TWO]. *)
Definition proper_order (order_type : PatternOrder) : Prop :=
  order_type ≠ ALT_TWO.

(** What the selection loop keeps about a collection: the projections are
    those of the patterns of the pattern set, in the order of their
    selection; no pattern occurs twice; each has a size that fits an [int]
    and [max_pdb_size]; [collection_size] is the sum of the sizes; the
    number of projections is within [max_patterns] and, where
    [max_collection_size] is set, the sum of the sizes is within it. *)
Definition collection_consistent {R : RandomNumberGenerator} {D : Driver}
    (s : SelectState R D) : Prop :=
  NoDup (pattern_set R D s)
  ∧ projections R D s = make_projection D <$> reverse (pattern_set R D s)
  ∧ Forall (λ pattern,
      get_pdb_size (variable_domains D) pattern ≠ -1
      ∧ get_pdb_size (variable_domains D) pattern ≤ max_pdb_size D)
      (pattern_set R D s)
  ∧ collection_size R D s
    = foldr (λ pattern sum, get_pdb_size (variable_domains D) pattern + sum) 0
        (pattern_set R D s)
  ∧ Z.of_nat (length (projections R D s)) ≤ max_patterns D
  ∧ (max_collection_size D ≠ INT_MAX →
     collection_size R D s ≤ max_collection_size D).

(** All pairs of variables of the patterns are marked in [used_var_pairs]. *)
Definition pairs_marked (used_var_pairs : list (list bool))
    (patterns : list Pattern) : Prop :=
  ∀ pattern var1 var2, pattern ∈ patterns → var1 ∈ pattern → var2 ∈ pattern →
    var_pair_used used_var_pairs var1 var2 = true.

(** A square matrix over [num_vars] variables that holds the variables of
    the pattern. *)
Definition pairs_in_range (num_vars : nat) (used_var_pairs : list (list bool))
    (pattern : Pattern) : Prop :=
  length used_var_pairs = num_vars
  ∧ Forall (λ row, length row = num_vars) used_var_pairs
  ∧ Forall (λ var, (var < num_vars)%nat) pattern.

(** The options of a run of [generate] on the small task, and a pass in
    which the restart timer is found expired in the fifth round and the
    overall timer after it. *)
Definition toy_generate_options : GenerateOptions toy_driver :=
  {| store_orders := true;
     no_dead_ends := () : DeadEnds toy_driver; operator_costs := [] |}.

Definition toy_pass : Pass :=
  {| pass_get_patterns := toy_get_patterns;
     pass_timer_readings := [false; false; false; false; true];
     pass_timer_is_expired := true |}.

(** A driver that saturates, on a task with two binary variables: the cost
    vector stands in for the goal distances of a projection, the evaluator
    finds a pattern useful when one of them is positive and finite, and the
    saturated costs use all of them up. *)
Definition toy_saturating_driver : Driver :=
  {| Projection := Pattern; DeadEnds := unit;
     variable_domains := [2; 2];
     max_pdb_size := 100000; max_collection_size := INT_MAX;
     max_patterns := INT_MAX; saturate := true;
     ignore_useless_patterns := false; dead_end_treatment := IGNORE;
     relevant_operators_per_variable := [[]; []];
     make_projection := λ pattern, pattern;
     is_useful := λ _ dead costs, (contains_positive_finite_value costs, dead);
     compute_goal_distances := λ _ costs, costs;
     compute_saturated_costs := λ _ goal_distances _, goal_distances;
     reduce_costs := λ costs saturated_costs,
       zip_with Z.sub costs saturated_costs |}.

Definition toy_saturating_options : GenerateOptions toy_saturating_driver :=
  {| store_orders := true;
     no_dead_ends := () : DeadEnds toy_saturating_driver;
     operator_costs := [1] |}.

(** The contract of the evaluator that the [assert]s after [is_useful]
    check: with [saturate], its verdict passes them for every pattern,
    dead-end collection and cost vector. *)
Definition evaluator_agrees (D : Driver) : Prop :=
  saturate D = true →
  ∀ (pattern : Pattern) (dead : DeadEnds D) (costs : list Z),
    is_useful_assertion D pattern costs (is_useful D pattern dead costs).1
    = true.

(** The sum of the variables of a pattern, as a number. *)
Definition sum_of_variables (pattern : Pattern) : Z :=
  foldr (λ var sum, Z.of_nat var + sum) 0 pattern.

(** The loop state a round can start from: a consistent cache with a proper
    default policy, and an id whose successor is not negative. *)
Definition loop_ready {R : RandomNumberGenerator} {D : Driver}
    (s : SelectState R D) : Prop :=
  generator_consistent (pattern_generator R D s)
  ∧ proper_order (default_order_type R (pattern_generator R D s))
  ∧ -1 ≤ pattern_id R D s.

(** The collection is the same in both states. *)
Definition collection_unchanged {R : RandomNumberGenerator} {D : Driver}
    (s s' : SelectState R D) : Prop :=
  projections R D s' = projections R D s
  ∧ pattern_set R D s' = pattern_set R D s
  ∧ used_var_pairs R D s' = used_var_pairs R D s
  ∧ collection_size R D s' = collection_size R D s
  ∧ costs R D s' = costs R D s.

(** [s'] has the collection of [s] and the pattern on top of it. *)
Definition pattern_added {R : RandomNumberGenerator} {D : Driver}
    (pattern : Pattern) (s s' : SelectState R D) : Prop :=
  projections R D s' = projections R D s ++ [make_projection D pattern]
  ∧ pattern_set R D s' = pattern :: pattern_set R D s
  ∧ used_var_pairs R D s'
    = mark_used_var_pairs pattern (used_var_pairs R D s)
  ∧ collection_size R D s'
    = collection_size R D s + get_pdb_size (variable_domains D) pattern.

(** A pattern that the loop may select: not empty, not selected before, of
    a size that fits an [int] and [max_pdb_size]. *)
Definition pattern_admissible {R : RandomNumberGenerator} {D : Driver}
    (pattern : Pattern) (s : SelectState R D) : Prop :=
  pattern ≠ [] ∧ (pattern ∉ pattern_set R D s)
  ∧ get_pdb_size (variable_domains D) pattern ≠ -1
  ∧ get_pdb_size (variable_domains D) pattern ≤ max_pdb_size D.

(** One more pattern, or this pattern, would exceed a limit of the
    collection. *)
Definition limit_reached_by {R : RandomNumberGenerator} {D : Driver}
    (pattern : Pattern) (s : SelectState R D) : Prop :=
  Z.of_nat (length (projections R D s)) = max_patterns D
  ∨ (max_collection_size D ≠ INT_MAX
     ∧ get_pdb_size (variable_domains D) pattern
       > max_collection_size D - collection_size R D s).

(** The sum of the sizes of the patterns. *)
Definition total_pdb_size (D : Driver) (patterns : list Pattern) : Z :=
  foldr (λ pattern sum, get_pdb_size (variable_domains D) pattern + sum) 0
    patterns.

(** Both variables lie within the matrix. *)
Definition var_pair_in_range (used_var_pairs : list (list bool))
    (var1 var2 : nat) : Prop :=
  is_Some (used_var_pairs !! var1 ≫= (.!! var2)).

(** [s'] has the collection of [s] and the patterns [added] on top of it,
    the last one selected first: their projections follow those of [s] in
    the order of selection, their sizes are added to the collection size,
    and the matrix, of the same shape, marks in addition exactly the pairs
    of variables that occur together in one of them. *)
Definition collection_extended {R : RandomNumberGenerator} {D : Driver}
    (added : list Pattern) (s s' : SelectState R D) : Prop :=
  pattern_set R D s' = added ++ pattern_set R D s
  ∧ projections R D s'
    = projections R D s ++ (make_projection D <$> reverse added)
  ∧ collection_size R D s'
    = collection_size R D s + total_pdb_size D added
  ∧ (∀ var1 var2,
       var_pair_in_range (used_var_pairs R D s') var1 var2
       ↔ var_pair_in_range (used_var_pairs R D s) var1 var2)
  ∧ (∀ var1 var2,
       var_pair_used (used_var_pairs R D s') var1 var2 = true
       ↔ var_pair_used (used_var_pairs R D s) var1 var2 = true
         ∨ ∃ pattern, pattern ∈ added ∧ var1 ∈ pattern ∧ var2 ∈ pattern
             ∧ var_pair_in_range (used_var_pairs R D s) var1 var2).

End Pdbs.

(** ** The online saturated cost partitioning heuristic
       (namespace cost_saturation) *)

Module CostSaturation.

Definition IS_NOVEL : Z := -3.
Definition IS_NOT_NOVEL : Z := -4.

(** Modelled from the spec: the value [INF] that stands for an infinite
    cost or distance (declared outside the sources): the largest [int]. *)
Definition INF : Z := INT_MAX.

(** Modelled from the spec: the constants [DEAD_END] and [NO_VALUE] of the
    [Heuristic] base class (heuristic.h is not among the sources).  The spec
    has [compute_heuristic] return a non-negative integer or [DeadEnd]; the
    base class encodes [DeadEnd] and "no cached value" as negative numbers. *)
Definition DEAD_END : Z := -1.
Definition NO_VALUE : Z := -2.

(** Modelled from the spec: the [Saturator] option (its enumeration is
    declared outside the sources): [ONE_SHOT], a single saturation per order,
    or [PERIMSTAR], the two-phase saturation. *)
Inductive Saturator := ONE_SHOT | PERIMSTAR.

Global Instance Saturator_eq_dec : EqDecision Saturator.
Proof. solve_decision. Defined.

Record FactPair := { var : nat; value : Z }.

(** The part of the task the heuristic reads: the variable domains and, per
    operator, the facts of its effects. *)
Record Task := {
  variable_domains : list Z;
  operator_effects : list (list FactPair)
}.

Record GlobalState := { state_id : nat; state_values : list Z }.

(** Modelled from the spec: the per-state [heuristic_cache] of the
    [Heuristic] base class (declared outside the sources), with the two
    fields of an entry that the translation unit uses; a state without an
    entry reads as [(NO_VALUE, dirty)]. *)
Record HEntry := { h : Z; dirty : bool }.

Definition cache_entry (cache : gmap nat HEntry) (s : GlobalState) : HEntry :=
  default {| h := NO_VALUE; dirty := true |} (cache !! state_id s).

Definition cache_set_h (cache : gmap nat HEntry) (s : GlobalState) (v : Z)
    : gmap nat HEntry :=
  <[state_id s := {| h := v; dirty := dirty (cache_entry cache s) |}]> cache.

(** *** Cost-partitioning heuristics and the unsolvability oracle *)

(** Modelled from the spec: [CostPartitioningHeuristic]
    (cost_partitioning_heuristic.h is not among the sources): a list of
    (abstraction id, lookup table) pairs; its value at an abstract-state
    vector is the sum of the looked-up entries, where infinity dominates the
    sum; [add] appends the tables of another heuristic; it marks as useful
    the abstractions it holds a table for. *)
Record LookupTable := { abstraction_id : nat; h_values : list Z }.

Definition CostPartitioningHeuristic := list LookupTable.

Definition lookup_h (abstract_state_ids : list Z) (t : LookupTable) : Z :=
  default 0 (id ← abstract_state_ids !! abstraction_id t; vec_get (h_values t) id).

Fixpoint cph_compute_heuristic (cp : CostPartitioningHeuristic)
    (abstract_state_ids : list Z) : Z :=
  match cp with
  | [] => 0
  | t :: rest =>
      if bool_decide (lookup_h abstract_state_ids t = INF) then INF
      else
        let sum := cph_compute_heuristic rest abstract_state_ids in
        if bool_decide (sum = INF) then INF
        else lookup_h abstract_state_ids t + sum
  end.

Definition cph_add (cp other : CostPartitioningHeuristic)
    : CostPartitioningHeuristic := cp ++ other.

Definition cph_mark_useful_abstractions (cp : CostPartitioningHeuristic)
    (useful_abstractions : list bool) : list bool :=
  foldl (λ useful t, <[abstraction_id t := true]> useful) useful_abstractions cp.

(** Modelled from the spec: [compute_max_h_with_statistics]
    (cost_saturation/utils.h is not among the sources): the maximum over the
    stored heuristics of their value at the abstract-state vector; heuristic
    values are non-negative, the maximum over no heuristic is 0.  The
    statistics vector it also updates is not read by this translation unit
    and is left out. *)
Definition compute_max_h (cp_heuristics : list CostPartitioningHeuristic)
    (abstract_state_ids : list Z) : Z :=
  foldl (λ max_h cp, Z.max max_h (cph_compute_heuristic cp abstract_state_ids))
    0 cp_heuristics.

(** Modelled from the spec: [UnsolvabilityHeuristic] (declared outside the
    sources): a bitmap [infeasible[abstraction_id][abstract_index]];
    [is_unsolvable(vec)] is true iff any bit is set; marking sets
    [bits[a]] for every abstraction with at least one infeasible abstract
    state. *)
Definition UnsolvabilityHeuristic := list (list bool).

Definition is_unsolvable (u : UnsolvabilityHeuristic)
    (abstract_state_ids : list Z) : bool :=
  existsb (λ '(a, bitmap),
    default false (id ← abstract_state_ids !! a; vec_get bitmap id))
    (imap (λ a bitmap, (a, bitmap)) u).

Definition unsolvability_mark_useful_abstractions (u : UnsolvabilityHeuristic)
    (useful_abstractions : list bool) : list bool :=
  foldl (λ useful '(a, bitmap),
    if existsb id bitmap then <[a := true]> useful else useful)
    useful_abstractions (imap (λ a bitmap, (a, bitmap)) u).

(** *** Novelty bookkeeping *)

Record Novelty := {
  fact_id_offsets : list Z;
  seen_facts : list bool;
  seen_fact_pairs : list (list bool)
}.

(** The constructor's loop: [fact_id_offsets] and [num_facts], started at the
    running count [num_facts]. *)
Fixpoint compute_fact_id_offsets (num_facts : Z) (domains : list Z)
    : list Z * Z :=
  match domains with
  | [] => ([], num_facts)
  | d :: rest =>
      let '(offsets, total) := compute_fact_id_offsets (num_facts + d) rest in
      (num_facts :: offsets, total)
  end.

(** The novelty structures as the constructor leaves them. *)
Definition initial_novelty (interval : Z) (task : Task) : Novelty :=
  let '(offsets, num_facts) := compute_fact_id_offsets 0 (variable_domains task) in
  let n := Z.to_nat num_facts in
  {| fact_id_offsets := offsets;
     seen_facts := if bool_decide (interval = -1) then replicate n false else [];
     seen_fact_pairs :=
       if bool_decide (interval = -2) then replicate n (replicate n false)
       else [] |}.

Definition get_fact_id (offsets : list Z) (var : nat) (value : Z) : option Z :=
  offset ← offsets !! var; Some (offset + value).

(** [visit_fact_pair]: [None] is the failed [assert(fact_id1 < fact_id2)] or
    an index outside the matrix. *)
Definition visit_fact_pair (pairs : list (list bool)) (fact_id1 fact_id2 : Z)
    : option (bool * list (list bool)) :=
  let '(fact_id1, fact_id2) :=
    if bool_decide (fact_id1 > fact_id2) then (fact_id2, fact_id1)
    else (fact_id1, fact_id2) in
  if negb (bool_decide (fact_id1 < fact_id2)) then None
  else
    row ← vec_get pairs fact_id1;
    seen ← vec_get row fact_id2;
    row' ← vec_set row fact_id2 true;
    pairs' ← vec_set pairs fact_id1 row';
    Some (negb seen, pairs').

(** The loop of [is_novel] for [interval == -1] over the effects. *)
Fixpoint is_novel_facts (offsets : list Z) (effects : list FactPair)
    (novel : bool) (seen : list bool) : option (bool * list bool) :=
  match effects with
  | [] => Some (novel, seen)
  | fact :: rest =>
      fact_id ← get_fact_id offsets (var fact) (value fact);
      was_seen ← vec_get seen fact_id;
      if negb was_seen then
        seen' ← vec_set seen fact_id true;
        is_novel_facts offsets rest true seen'
      else is_novel_facts offsets rest novel seen
  end.

(** The inner loop of [is_novel] for [interval == -2]: [var2] runs over
    [vars]. *)
Fixpoint is_novel_pairs_of (offsets : list Z) (state : list Z) (fact1_var : nat)
    (fact_id1 : Z) (vars : list nat) (novel : bool) (pairs : list (list bool))
    : option (bool * list (list bool)) :=
  match vars with
  | [] => Some (novel, pairs)
  | var2 :: rest =>
      if bool_decide (fact1_var = var2) then
        is_novel_pairs_of offsets state fact1_var fact_id1 rest novel pairs
      else
        value2 ← state !! var2;
        fact_id2 ← get_fact_id offsets var2 value2;
        '(visited, pairs') ← visit_fact_pair pairs fact_id1 fact_id2;
        is_novel_pairs_of offsets state fact1_var fact_id1 rest
          (if visited : bool then true else novel) pairs'
  end.

(** The outer loop of [is_novel] for [interval == -2] over the effects. *)
Fixpoint is_novel_pairs (offsets : list Z) (state : list Z)
    (effects : list FactPair) (novel : bool) (pairs : list (list bool))
    : option (bool * list (list bool)) :=
  match effects with
  | [] => Some (novel, pairs)
  | fact1 :: rest =>
      fact_id1 ← get_fact_id offsets (var fact1) (value fact1);
      '(novel', pairs') ←
        is_novel_pairs_of offsets state (var fact1) fact_id1
          (seq 0 (length offsets)) novel pairs;
      is_novel_pairs offsets state rest novel' pairs'
  end.

(** [is_novel]; [None] also is the [ABORT("invalid value for interval")]. *)
Definition is_novel (interval : Z) (task : Task) (op_id : nat)
    (state : GlobalState) (nv : Novelty) : option (bool * Novelty) :=
  if bool_decide (interval = -1) then
    effects ← operator_effects task !! op_id;
    '(novel, seen) ← is_novel_facts (fact_id_offsets nv) effects false
                       (seen_facts nv);
    Some (novel, {| fact_id_offsets := fact_id_offsets nv; seen_facts := seen;
                    seen_fact_pairs := seen_fact_pairs nv |})
  else if bool_decide (interval = -2) then
    effects ← operator_effects task !! op_id;
    '(novel, pairs) ← is_novel_pairs (fact_id_offsets nv) (state_values state)
                        effects false (seen_fact_pairs nv);
    Some (novel, {| fact_id_offsets := fact_id_offsets nv;
                    seen_facts := seen_facts nv; seen_fact_pairs := pairs |})
  else None.

(** The loop of [notify_initial_state] for [interval == -1]. *)
Fixpoint seed_facts (offsets : list Z) (state : list Z) (vars : list nat)
    (seen : list bool) : option (list bool) :=
  match vars with
  | [] => Some seen
  | v :: rest =>
      value ← state !! v;
      fact_id ← get_fact_id offsets v value;
      seen' ← vec_set seen fact_id true;
      seed_facts offsets state rest seen'
  end.

(** The inner loop of [notify_initial_state] for [interval == -2]: [var2]
    runs over [vars]. *)
Fixpoint seed_pairs_of (offsets : list Z) (state : list Z) (fact_id1 : Z)
    (vars : list nat) (pairs : list (list bool)) : option (list (list bool)) :=
  match vars with
  | [] => Some pairs
  | var2 :: rest =>
      value2 ← state !! var2;
      fact_id2 ← get_fact_id offsets var2 value2;
      '(_, pairs') ← visit_fact_pair pairs fact_id1 fact_id2;
      seed_pairs_of offsets state fact_id1 rest pairs'
  end.

(** The outer loop of [notify_initial_state] for [interval == -2]: [var1]
    runs over [vars], [var2] from [var1 + 1] up to [num_vars]. *)
Fixpoint seed_pairs (offsets : list Z) (state : list Z) (num_vars : nat)
    (vars : list nat) (pairs : list (list bool)) : option (list (list bool)) :=
  match vars with
  | [] => Some pairs
  | var1 :: rest =>
      value1 ← state !! var1;
      fact_id1 ← get_fact_id offsets var1 value1;
      pairs' ← seed_pairs_of offsets state fact_id1
                 (seq (S var1) (num_vars - S var1)) pairs;
      seed_pairs offsets state num_vars rest pairs'
  end.

(** *** The heuristic object *)

(** The collaborators of the heuristic that live outside the translation
    unit: the abstractions with their abstraction functions, the order
    generator (which may keep state of its own), the cost-partitioning
    functions and the size estimate of a stored heuristic. *)
Record Collaborators := {
  Abstraction : Type;
  AbstractionFunction : Type;
  OrderGenerator : Type;
  get_abstract_state_ids : list Abstraction → list Z → list Z;
  get_abstract_state_ids_of_functions :
    list (option AbstractionFunction) → list Z → list Z;
  extract_abstraction_function : Abstraction → AbstractionFunction;
  compute_order_for_state :
    OrderGenerator → list Z → bool → list nat * OrderGenerator;
  cp_function :
    list Abstraction → list nat → list Z → list Z → CostPartitioningHeuristic;
  compute_perim_saturated_cost_partitioning_change_costs :
    list Abstraction → list nat → list Z → list Z
    → CostPartitioningHeuristic * list Z;
  compute_saturated_cost_partitioning :
    list Abstraction → list nat → list Z → list Z → CostPartitioningHeuristic;
  estimate_size_in_kb : CostPartitioningHeuristic → Z
}.

(** The members fixed by the constructor. *)
Record Options := {
  task : Task;
  saturator : Saturator;
  interval : Z;
  max_size_kb : Z;
  use_evaluated_state_as_sample : bool;
  costs : list Z;
  unsolvability_heuristic : UnsolvabilityHeuristic
}.

(** The calls to the collaborators and the stores, in program order. *)
Inductive Event :=
| EvMaxH                (* compute_max_h_with_statistics over the stored CPHs *)
| EvExtract             (* extract_useful_abstraction_functions *)
| EvOrder               (* order_generator->compute_order_for_state *)
| EvCostPartitioning    (* cp_function *)
| EvPerimSaturation     (* compute_perim_saturated_cost_partitioning_change_costs *)
| EvFullSaturation      (* compute_saturated_cost_partitioning *)
| EvStore.              (* cp_heuristics.push_back *)

Global Instance Event_eq_dec : EqDecision Event.
Proof. solve_decision. Defined.

Section heuristic.
Variable C : Collaborators.
Variable O : Options.

(** The members that change during search. *)
Record Heuristic := {
  abstractions : list (Abstraction C);
  abstraction_functions : list (option (AbstractionFunction C));
  cp_heuristics : list CostPartitioningHeuristic;
  order_generator : OrderGenerator C;
  improve_heuristic : bool;
  size_kb : Z;
  num_evaluated_states : Z;
  num_scps_computed : Z;
  novelty : Novelty;
  heuristic_cache : gmap nat HEntry
}.

Definition set_novelty_cache (st : Heuristic) (nv : Novelty)
    (cache : gmap nat HEntry) : Heuristic :=
  {| abstractions := abstractions st;
     abstraction_functions := abstraction_functions st;
     cp_heuristics := cp_heuristics st;
     order_generator := order_generator st;
     improve_heuristic := improve_heuristic st;
     size_kb := size_kb st;
     num_evaluated_states := num_evaluated_states st;
     num_scps_computed := num_scps_computed st;
     novelty := nv;
     heuristic_cache := cache |}.

(** [notify_initial_state]. *)
Definition notify_initial_state (initial_state : GlobalState) (st : Heuristic)
    : option Heuristic :=
  if bool_decide (interval O >= 1) then Some st
  else
    let cache := cache_set_h (heuristic_cache st) initial_state IS_NOVEL in
    let nv := novelty st in
    let num_vars := length (fact_id_offsets nv) in
    if bool_decide (interval O = -1) then
      seen ← seed_facts (fact_id_offsets nv) (state_values initial_state)
               (seq 0 num_vars) (seen_facts nv);
      Some (set_novelty_cache st
              {| fact_id_offsets := fact_id_offsets nv; seen_facts := seen;
                 seen_fact_pairs := seen_fact_pairs nv |} cache)
    else if bool_decide (interval O = -2) then
      pairs ← seed_pairs (fact_id_offsets nv) (state_values initial_state)
                num_vars (seq 0 num_vars) (seen_fact_pairs nv);
      Some (set_novelty_cache st
              {| fact_id_offsets := fact_id_offsets nv;
                 seen_facts := seen_facts nv; seen_fact_pairs := pairs |} cache)
    else None.

(** [notify_state_transition]; the parent state is not used. *)
Definition notify_state_transition (op_id : nat) (global_state : GlobalState)
    (st : Heuristic) : option Heuristic :=
  if negb (improve_heuristic st) || bool_decide (interval O >= 1) then Some st
  else if bool_decide (h (cache_entry (heuristic_cache st) global_state) = NO_VALUE)
  then
    '(novel, nv) ← is_novel (interval O) (task O) op_id global_state (novelty st);
    let cache :=
      cache_set_h (heuristic_cache st) global_state
        (if novel : bool then IS_NOVEL else IS_NOT_NOVEL) in
    if dirty (cache_entry cache global_state)
    then Some (set_novelty_cache st nv cache)
    else None
  else Some st.

(** [should_compute_scp]; [%] is the truncating remainder of C++. *)
Definition should_compute_scp (global_state : GlobalState) (st : Heuristic)
    : option bool :=
  if bool_decide (interval O > 0) then
    Some (bool_decide (Z.rem (num_evaluated_states st) (interval O) = 0))
  else if bool_decide (interval O = -1 ∨ interval O = -2) then
    Some (bool_decide (h (cache_entry (heuristic_cache st) global_state) = IS_NOVEL))
  else None.

(** [useful_abstractions] as collected by
    [extract_useful_abstraction_functions]. *)
Definition collect_useful_abstractions
    (cp_heuristics : list CostPartitioningHeuristic)
    (u : UnsolvabilityHeuristic) (num_abstractions : nat) : list bool :=
  foldl (λ useful cp, cph_mark_useful_abstractions cp useful)
    (unsolvability_mark_useful_abstractions u (replicate num_abstractions false))
    cp_heuristics.

(** [extract_useful_abstraction_functions]: returns the new contents of
    [abstraction_functions]; [None] is the failed final [assert]. *)
Definition extract_useful_abstraction_functions
    (cp_heuristics : list CostPartitioningHeuristic)
    (u : UnsolvabilityHeuristic) (abstractions : list (Abstraction C))
    (abstraction_functions : list (option (AbstractionFunction C)))
    : option (list (option (AbstractionFunction C))) :=
  let num_abstractions := length abstractions in
  let useful_abstractions :=
    collect_useful_abstractions cp_heuristics u num_abstractions in
  let functions :=
    abstraction_functions ++
    imap (λ i abstraction,
            if default false (useful_abstractions !! i)
            then Some (extract_abstraction_function C abstraction)
            else None) abstractions in
  if bool_decide (length functions = length abstractions) then Some functions
  else None.

(** The block of [compute_heuristic] that ends the improvement phase. *)
Definition stop_improvement (st : Heuristic) : option Heuristic :=
  functions ← extract_useful_abstraction_functions (cp_heuristics st)
                 (unsolvability_heuristic O) (abstractions st)
                 (abstraction_functions st);
  Some {| abstractions := [];
          abstraction_functions := functions;
          cp_heuristics := cp_heuristics st;
          order_generator := order_generator st;
          improve_heuristic := false;
          size_kb := size_kb st;
          num_evaluated_states := num_evaluated_states st;
          num_scps_computed := num_scps_computed st;
          novelty := {| fact_id_offsets := []; seen_facts := [];
                        seen_fact_pairs := [] |};
          heuristic_cache := heuristic_cache st |}.

(** The local variables of the block that computes a fresh SCP. *)
Record FreshScp := {
  scp_order_generator : OrderGenerator C;
  scp_first : CostPartitioningHeuristic;    (* cost_partitioning, as computed *)
  scp_h : Z;                                (* h *)
  scp_final : CostPartitioningHeuristic;    (* cost_partitioning, at the end *)
  scp_events : list Event
}.

(** The computation of a fresh SCP up to the test [is_diverse]. *)
Definition compute_fresh_scp (abstract_state_ids : list Z) (max_h : Z)
    (st : Heuristic) : FreshScp :=
  let '(order, og) :=
    compute_order_for_state C (order_generator st) abstract_state_ids
      (bool_decide (num_evaluated_states st = 0)) in
  let '(cost_partitioning, remaining_costs, ev) :=
    if decide (saturator O = PERIMSTAR) then
      (* Compute only the first SCP here, and the second below if h > max_h. *)
      let '(cp, remaining) :=
        compute_perim_saturated_cost_partitioning_change_costs C
          (abstractions st) order (costs O) abstract_state_ids in
      (cp, remaining, EvPerimSaturation)
    else
      (cp_function C (abstractions st) order (costs O) abstract_state_ids,
       [], EvCostPartitioning) in
  let h := cph_compute_heuristic cost_partitioning abstract_state_ids in
  if bool_decide (saturator O = PERIMSTAR ∧ h > max_h) then
    {| scp_order_generator := og; scp_first := cost_partitioning; scp_h := h;
       scp_final :=
         cph_add cost_partitioning
           (compute_saturated_cost_partitioning C (abstractions st) order
              remaining_costs abstract_state_ids);
       scp_events := [EvOrder; ev; EvFullSaturation] |}
  else
    {| scp_order_generator := og; scp_first := cost_partitioning; scp_h := h;
       scp_final := cost_partitioning; scp_events := [EvOrder; ev] |}.

(** [++num_scps_computed], the new state of the order generator and, for a
    diverse heuristic, the update of [size_kb] and the [push_back]. *)
Definition record_fresh_scp (scp : FreshScp) (is_diverse : bool)
    (st : Heuristic) : Heuristic :=
  {| abstractions := abstractions st;
     abstraction_functions := abstraction_functions st;
     cp_heuristics :=
       if is_diverse then cp_heuristics st ++ [scp_final scp]
       else cp_heuristics st;
     order_generator := scp_order_generator scp;
     improve_heuristic := improve_heuristic st;
     size_kb :=
       if is_diverse then size_kb st + estimate_size_in_kb C (scp_final scp)
       else size_kb st;
     num_evaluated_states := num_evaluated_states st;
     num_scps_computed := num_scps_computed st + 1;
     novelty := novelty st;
     heuristic_cache := heuristic_cache st |}.

(** [++num_evaluated_states]. *)
Definition count_evaluated_state (st : Heuristic) : Heuristic :=
  {| abstractions := abstractions st;
     abstraction_functions := abstraction_functions st;
     cp_heuristics := cp_heuristics st;
     order_generator := order_generator st;
     improve_heuristic := improve_heuristic st;
     size_kb := size_kb st;
     num_evaluated_states := num_evaluated_states st + 1;
     num_scps_computed := num_scps_computed st;
     novelty := novelty st;
     heuristic_cache := heuristic_cache st |}.

(** The two [assert]s on the phase at the head of [compute_heuristic]. *)
Definition phase_assertion (st : Heuristic) : bool :=
  if improve_heuristic st
  then negb (bool_decide (length (abstractions st) = 0%nat))
       && bool_decide (length (abstraction_functions st) = 0%nat)
  else bool_decide (length (abstractions st) = 0%nat)
       && negb (bool_decide (length (abstraction_functions st) = 0%nat)).

(** [compute_heuristic].  [time_limit_reached] is the outcome of the
    floating-point test of the timer against [max_time] in this call.  The result
    is the returned value, the heuristic after the call and the events of
    the call. *)
Definition compute_heuristic (time_limit_reached : bool)
    (global_state : GlobalState) (st : Heuristic)
    : option (Z * Heuristic * list Event) :=
  let state := state_values global_state in
  if negb (phase_assertion st) then None
  else
    let abstract_state_ids :=
      if improve_heuristic st
      then get_abstract_state_ids C (abstractions st) state
      else get_abstract_state_ids_of_functions C (abstraction_functions st) state in
    if is_unsolvable (unsolvability_heuristic O) abstract_state_ids
    then Some (DEAD_END, st, [])
    else
      let max_h := compute_max_h (cp_heuristics st) abstract_state_ids in
      '(st, ev_stop) ←
        (if improve_heuristic st
            && (time_limit_reached || bool_decide (size_kb st >= max_size_kb O))
         then st' ← stop_improvement st; Some (st', [EvExtract])
         else Some (st, []));
      compute ←
        (if improve_heuristic st then should_compute_scp global_state st
         else Some false);
      if compute : bool then
        let scp := compute_fresh_scp abstract_state_ids max_h st in
        let is_diverse :=
          use_evaluated_state_as_sample O && bool_decide (scp_h scp > max_h) in
        Some (Z.max max_h (scp_h scp),
              count_evaluated_state (record_fresh_scp scp is_diverse st),
              [EvMaxH] ++ ev_stop ++ scp_events scp
              ++ (if is_diverse then [EvStore] else []))
      else
        Some (max_h, count_evaluated_state st, [EvMaxH] ++ ev_stop).

(** *** The calls the search makes on the heuristic *)

Inductive Call :=
| NotifyInitialState (initial_state : GlobalState)
| NotifyStateTransition (op_id : nat) (global_state : GlobalState)
| ComputeHeuristic (time_limit_reached : bool) (global_state : GlobalState).

Definition call (c : Call) (st : Heuristic) : option (Heuristic * list Event) :=
  match c with
  | NotifyInitialState s => st' ← notify_initial_state s st; Some (st', [])
  | NotifyStateTransition op s =>
      st' ← notify_state_transition op s st; Some (st', [])
  | ComputeHeuristic t s =>
      '(_, st', evs) ← compute_heuristic t s st; Some (st', evs)
  end.

(** A sequence of calls, with the events of all of them. *)
Fixpoint calls (cs : list Call) (st : Heuristic)
    : option (Heuristic * list Event) :=
  match cs with
  | [] => Some (st, [])
  | c :: rest =>
      '(st', evs) ← call c st;
      '(st'', evs') ← calls rest st';
      Some (st'', evs ++ evs')
  end.

End heuristic.

(** *** Vocabulary of the properties *)

(** The abstract-state vector [compute_heuristic] computes for a state. *)
Definition abstract_state_ids_of (C : Collaborators) (st : Heuristic C)
    (global_state : GlobalState) : list Z :=
  if improve_heuristic C st
  then get_abstract_state_ids C (abstractions C st) (state_values global_state)
  else get_abstract_state_ids_of_functions C (abstraction_functions C st)
         (state_values global_state).

(** The improvement budget is used up at this call. *)
Definition budget_exhausted (C : Collaborators) (O : Options)
    (time_limit_reached : bool) (st : Heuristic C) : Prop :=
  time_limit_reached = true ∨ size_kb C st >= max_size_kb O.

(** The call reaches the computation of a fresh SCP: the state is not a dead
    end, the improvement phase is on and does not end at this call, and
    [should_compute_scp] fires. *)
Definition scp_triggered (C : Collaborators) (O : Options)
    (time_limit_reached : bool) (global_state : GlobalState)
    (st : Heuristic C) : Prop :=
  phase_assertion C st = true
  ∧ is_unsolvable (unsolvability_heuristic O)
      (abstract_state_ids_of C st global_state) = false
  ∧ improve_heuristic C st = true
  ∧ ¬ budget_exhausted C O time_limit_reached st
  ∧ should_compute_scp C O global_state st = Some true.

(** An abstraction is marked useful by a stored cost-partitioning heuristic
    (it holds a lookup table for it) or by the unsolvability oracle (it has
    an infeasible abstract state). *)
Definition marked_useful (cp_heuristics : list CostPartitioningHeuristic)
    (u : UnsolvabilityHeuristic) (i : nat) : Prop :=
  (∃ cp t, cp ∈ cp_heuristics ∧ t ∈ cp ∧ abstraction_id t = i)
  ∨ (∃ bitmap, u !! i = Some bitmap ∧ true ∈ bitmap).

(** The events of computing or storing an SCP. *)
Definition is_scp_event (e : Event) : Prop :=
  e = EvOrder ∨ e = EvCostPartitioning ∨ e = EvPerimSaturation
  ∨ e = EvFullSaturation ∨ e = EvStore.

(** The task, the state and the novelty structures fit together: the state
    assigns every variable a value of its domain, the offsets and the
    matrix are those the constructor builds. *)
Definition valid_fact (domains : list Z) (f : FactPair) : Prop :=
  ∃ d, domains !! var f = Some d ∧ 0 ≤ value f < d.

Definition valid_state (domains : list Z) (state : list Z) : Prop :=
  Forall2 (λ d v, 0 ≤ v < d) domains state.

Definition square_matrix (n : Z) (pairs : list (list bool)) : Prop :=
  Z.of_nat (length pairs) = n ∧ Forall (λ row, Z.of_nat (length row) = n) pairs.

(** The arguments of the calls of [visit_fact_pair] that [is_novel] makes for
    [interval == -2], as pairs of facts: each effect fact with the fact of
    the state on every other variable. *)
Definition is_novel_visits (num_vars : nat) (state : list Z)
    (effects : list FactPair) : list (FactPair * FactPair) :=
  fact1 ← effects;
  var2 ← seq 0 num_vars;
  if bool_decide (var fact1 = var2) then []
  else match state !! var2 with
       | Some value2 => [(fact1, {| var := var2; value := value2 |})]
       | None => []
       end.

(** The arguments of the calls of [visit_fact_pair] that
    [notify_initial_state] makes for [interval == -2]. *)
Definition initial_visits (num_vars : nat) (state : list Z)
    : list (FactPair * FactPair) :=
  var1 ← seq 0 num_vars;
  var2 ← seq (S var1) (num_vars - S var1);
  match state !! var1, state !! var2 with
  | Some value1, Some value2 =>
      [({| var := var1; value := value1 |}, {| var := var2; value := value2 |})]
  | _, _ => []
  end.

(** [visit_fact_pair] on the fact ids of a list of fact pairs, one call after
    the other, accumulating [novel] the way the loops of [is_novel] do. *)
Fixpoint visit_all (offsets : list Z) (visits : list (FactPair * FactPair))
    (novel : bool) (pairs : list (list bool)) : option (bool * list (list bool)) :=
  match visits with
  | [] => Some (novel, pairs)
  | (fact1, fact2) :: rest =>
      fact_id1 ← get_fact_id offsets (var fact1) (value fact1);
      fact_id2 ← get_fact_id offsets (var fact2) (value fact2);
      '(visited, pairs') ← visit_fact_pair pairs fact_id1 fact_id2;
      visit_all offsets rest (if visited : bool then true else novel) pairs'
  end.

(** What the claim says of one call of [visit_fact_pair]: the two facts are
    of distinct variables, their ids are distinct, the smaller id is below
    the larger one as the assertion demands, and both lie within the
    [num_facts] x [num_facts] matrix. *)
Definition well_formed_visit (offsets : list Z) (num_facts : Z)
    (visit : FactPair * FactPair) : Prop :=
  var visit.1 ≠ var visit.2
  ∧ ∃ fact_id1 fact_id2,
      get_fact_id offsets (var visit.1) (value visit.1) = Some fact_id1
      ∧ get_fact_id offsets (var visit.2) (value visit.2) = Some fact_id2
      ∧ fact_id1 ≠ fact_id2
      ∧ 0 ≤ Z.min fact_id1 fact_id2
      ∧ Z.min fact_id1 fact_id2 < Z.max fact_id1 fact_id2
      ∧ Z.max fact_id1 fact_id2 < num_facts.

(** The id of the fact lies within [seen_facts]. *)
Definition fact_in_range (offsets : list Z) (seen : list bool)
    (fact : FactPair) : Prop :=
  ∃ fact_id, get_fact_id offsets (var fact) (value fact) = Some fact_id
             ∧ 0 ≤ fact_id < Z.of_nat (length seen).

(** The fact is marked, or not yet marked, in [seen_facts]. *)
Definition fact_seen (offsets : list Z) (seen : list bool)
    (fact : FactPair) : Prop :=
  ∃ fact_id, get_fact_id offsets (var fact) (value fact) = Some fact_id
             ∧ vec_get seen fact_id = Some true.

Definition fact_unseen (offsets : list Z) (seen : list bool)
    (fact : FactPair) : Prop :=
  ∃ fact_id, get_fact_id offsets (var fact) (value fact) = Some fact_id
             ∧ vec_get seen fact_id = Some false.

(** The entry [pairs[i][j]], if there is one. *)
Definition pair_entry (pairs : list (list bool)) (i j : Z) : option bool :=
  row ← vec_get pairs i; vec_get row j.

(** The sum of the size estimates of the heuristics. *)
Definition stored_size_kb (C : Collaborators)
    (cp_heuristics : list CostPartitioningHeuristic) : Z :=
  foldr (λ cp sum, estimate_size_in_kb C cp + sum) 0 cp_heuristics.

(** *** A small task to run the heuristic on

    Two binary variables and one operator that sets variable 0 to 1; one
    abstraction per variable; the state in which variable 1 is 1 is
    infeasible in the second abstraction. *)

Definition toy_task : Task :=
  {| variable_domains := [2; 2];
     operator_effects := [[{| var := 0; value := 1 |}]] |}.

Definition toy_collaborators : Collaborators :=
  {| Abstraction := nat; AbstractionFunction := nat; OrderGenerator := unit;
     get_abstract_state_ids := λ abstractions state,
       (λ v, default 0 (state !! v)) <$> abstractions;
     get_abstract_state_ids_of_functions := λ functions state,
       (λ f, match f with
             | Some v => default 0 (state !! v)
             | None => -1
             end) <$> functions;
     extract_abstraction_function := λ v, v;
     compute_order_for_state := λ og ids _, (seq 0 (length ids), og);
     cp_function := λ _ _ _ _, [{| abstraction_id := 0; h_values := [1; 0] |}];
     compute_perim_saturated_cost_partitioning_change_costs := λ _ _ costs _,
       ([{| abstraction_id := 0; h_values := [1; 0] |}], costs);
     compute_saturated_cost_partitioning := λ _ _ _ _,
       [{| abstraction_id := 1; h_values := [0; 0] |}];
     estimate_size_in_kb := λ cp, Z.of_nat (length cp) |}.

Definition toy_options (saturator : Saturator) (interval : Z)
    (use_evaluated_state_as_sample : bool) : Options :=
  {| task := toy_task; saturator := saturator; interval := interval;
     max_size_kb := 10;
     use_evaluated_state_as_sample := use_evaluated_state_as_sample;
     costs := [1];
     unsolvability_heuristic := [[false; false]; [false; true]] |}.

(** The heuristic as constructed, with the stored heuristics
    [cp_heuristics]. *)
Definition toy_heuristic (interval : Z)
    (cp_heuristics : list CostPartitioningHeuristic)
    : Heuristic toy_collaborators :=
  {| abstractions := [0%nat; 1%nat] : list (Abstraction toy_collaborators);
     abstraction_functions := [];
     cp_heuristics := cp_heuristics;
     order_generator := () : OrderGenerator toy_collaborators;
     improve_heuristic := true; size_kb := 0;
     num_evaluated_states := 0; num_scps_computed := 0;
     novelty := initial_novelty interval toy_task;
     heuristic_cache := ∅ |}.

Definition toy_state (id : nat) (values : list Z) : GlobalState :=
  {| state_id := id; state_values := values |}.



End CostSaturation.

(** * Properties of the pattern generator *)

Section pdbs_properties.
Import Pdbs.

(** ** Pattern database sizes *)

Lemma is_product_within_limit_spec (factor1 factor2 limit : Z) :
  0 < factor2 →
  is_product_within_limit factor1 factor2 limit = true ↔ factor1 * factor2 ≤ limit.
Proof.
  intros Hpos. unfold is_product_within_limit.
  rewrite orb_true_iff, !bool_decide_eq_true. split.
  - intros [Hz | Hle]; [lia |].
    etrans; [apply Z.mul_le_mono_nonneg_r; [lia | exact Hle] |].
    rewrite Z.mul_comm. apply Z.mul_div_le. lia.
  - intros Hle. right. apply Z.div_le_lower_bound; lia.
Qed.

Lemma domain_product_pos (domain_sizes : list Z) (pattern : Pattern) :
  Forall (λ var, 1 ≤ domain_size domain_sizes var ≤ INT_MAX) pattern →
  1 ≤ domain_product domain_sizes pattern.
Proof.
  induction 1 as [| var rest Hvar _ IH]; simpl; [lia | nia].
Qed.

Lemma get_pdb_size_from_spec (domain_sizes : list Z) (pattern : Pattern) :
  Forall (λ var, 1 ≤ domain_size domain_sizes var ≤ INT_MAX) pattern →
  ∀ size, 1 ≤ size ≤ INT_MAX →
    get_pdb_size_from size domain_sizes pattern =
      if bool_decide (size * domain_product domain_sizes pattern ≤ INT_MAX)
      then size * domain_product domain_sizes pattern
      else -1.
Proof.
  induction 1 as [| var rest Hvar Hrest IH]; intros size Hsize; simpl.
  - rewrite Z.mul_1_r. by rewrite bool_decide_eq_true_2 by lia.
  - pose proof (domain_product_pos _ _ Hrest) as Hprod.
    destruct (is_product_within_limit size (domain_size domain_sizes var) INT_MAX)
      eqn:Hlim.
    + apply is_product_within_limit_spec in Hlim; [| lia].
      rewrite IH by nia. by rewrite Z.mul_assoc.
    + rewrite bool_decide_eq_false_2; [done |].
      intros Hle.
      assert (is_product_within_limit size (domain_size domain_sizes var) INT_MAX
              = true) as Hyes; [| congruence].
      apply is_product_within_limit_spec; [lia |]. nia.
Qed.

Lemma get_pdb_size_exact (domain_sizes : list Z) (pattern : Pattern) :
  Forall (λ var, 1 ≤ domain_size domain_sizes var ≤ INT_MAX) pattern →
  (domain_product domain_sizes pattern ≤ INT_MAX →
   get_pdb_size domain_sizes pattern = domain_product domain_sizes pattern)
  ∧ (get_pdb_size domain_sizes pattern = -1
     ↔ INT_MAX < domain_product domain_sizes pattern).
Proof.
  intros Hdom. unfold get_pdb_size.
  rewrite (get_pdb_size_from_spec _ _ Hdom 1) by (unfold INT_MAX; lia).
  rewrite Z.mul_1_l.
  pose proof (domain_product_pos _ _ Hdom) as Hpos.
  case_bool_decide; split; intros; try lia; done.
Qed.

(** The lower bound on the domain sizes matters: once the running product
    has left the range, a later empty domain is not looked at. *)
Example get_pdb_size_stops_at_first_overflow :
  get_pdb_size [65536; 65536; 0] [0; 1; 2]%nat = -1
  ∧ domain_product [65536; 65536; 0] [0; 1; 2]%nat = 0.
Proof. split; reflexivity. Qed.

Lemma select_round_skips_large
    (std_sort : Sorter) (R : RandomNumberGenerator)
    (get_patterns : nat → option (list Pattern)) (D : Driver)
    (timer_is_expired : bool) (s : SelectState R D)
    (pattern : Pattern) (g : SequentialPatternGenerator R) :
  get_pattern std_sort R get_patterns (pattern_generator R D s)
    (pattern_id R D s + 1) (used_var_pairs R D s) = Some (pattern, g) →
  get_pdb_size (variable_domains D) pattern = -1
  ∨ get_pdb_size (variable_domains D) pattern > max_pdb_size D →
  ∃ s',
    select_round std_sort R get_patterns D timer_is_expired s =
      Some (if timer_is_expired || bool_decide (pattern = [])
            then Return R D false s' else Continue R D s')
    ∧ projections R D s' = projections R D s
    ∧ pattern_set R D s' = pattern_set R D s
    ∧ costs R D s' = costs R D s
    ∧ used_var_pairs R D s' = used_var_pairs R D s
    ∧ collection_size R D s' = collection_size R D s
    ∧ pattern_generator R D s' = g
    ∧ pattern_id R D s' = pattern_id R D s + 1.
Proof.
  intros Hget Hlarge. unfold select_round. rewrite Hget. simpl.
  exists {| pattern_generator := g; dead_ends := dead_ends R D s;
            projections := projections R D s; pattern_set := pattern_set R D s;
            used_var_pairs := used_var_pairs R D s;
            collection_size := collection_size R D s; costs := costs R D s;
            pattern_id := pattern_id R D s + 1;
            num_pattern_evaluations := num_pattern_evaluations R D s |}.
  split; [| repeat split; reflexivity].
  destruct timer_is_expired; simpl; [reflexivity |].
  destruct (decide (pattern = [])) as [Hnil | Hnil].
  { by rewrite !(bool_decide_eq_true_2 _ Hnil). }
  rewrite !(bool_decide_eq_false_2 _ Hnil).
  case_bool_decide; [reflexivity |].
  by rewrite bool_decide_eq_true_2.
Qed.

(** Claim C8.  For domain sizes between 1 and the largest [int],
    [get_pdb_size] returns the product of the domain sizes of the pattern
    variables when the product fits an [int], and -1 exactly when it does
    not; and a round of the selection loop whose candidate has size -1 or a
    size above [max_pdb_size] goes on to the next round (or leaves on the
    expired timer or the empty pattern) with the projection collection, the
    pattern set and the remaining costs as they were. *)
Theorem get_pdb_size_exact_and_large_patterns_skipped :
  (∀ (domain_sizes : list Z) (pattern : Pattern),
     Forall (λ var, 1 ≤ domain_size domain_sizes var ≤ INT_MAX) pattern →
     (domain_product domain_sizes pattern ≤ INT_MAX →
      get_pdb_size domain_sizes pattern = domain_product domain_sizes pattern)
     ∧ (get_pdb_size domain_sizes pattern = -1
        ↔ INT_MAX < domain_product domain_sizes pattern))
  ∧ (∀ (std_sort : Sorter) (R : RandomNumberGenerator)
       (get_patterns : nat → option (list Pattern)) (D : Driver)
       (timer_is_expired : bool) (s : SelectState R D)
       (pattern : Pattern) (g : SequentialPatternGenerator R),
     get_pattern std_sort R get_patterns (pattern_generator R D s)
       (pattern_id R D s + 1) (used_var_pairs R D s) = Some (pattern, g) →
     get_pdb_size (variable_domains D) pattern = -1
     ∨ get_pdb_size (variable_domains D) pattern > max_pdb_size D →
     ∃ s',
       select_round std_sort R get_patterns D timer_is_expired s =
         Some (if timer_is_expired || bool_decide (pattern = [])
               then Return R D false s' else Continue R D s')
       ∧ projections R D s' = projections R D s
       ∧ pattern_set R D s' = pattern_set R D s
       ∧ costs R D s' = costs R D s).
Proof.
  split.
  - apply get_pdb_size_exact.
  - intros std_sort R get_patterns D t s pattern g Hget Hlarge.
    destruct (select_round_skips_large std_sort R get_patterns D t s pattern g
                Hget Hlarge) as (s' & Hround & Hproj & Hset & Hcosts & _).
    by exists s'.
Qed.

Lemma get_pdb_size_exact_and_large_patterns_skipped_witness :
  get_pdb_size [65536; 65536] [0%nat] = 65536
  ∧ get_pdb_size [65536; 65536] [0%nat; 1%nat] = -1
  ∧ ∃ s', select_round stable_sort stream_rng toy_get_patterns toy_driver false
            toy_select_state = Some (Continue stream_rng toy_driver s')
          ∧ projections _ _ s' = []
          ∧ pattern_set _ _ s' = []
          ∧ costs _ _ s' = [].
Proof.
  destruct get_pdb_size_exact_and_large_patterns_skipped as [Hsize Hskip].
  split; [| split].
  - apply (Hsize [65536; 65536] [0%nat]).
    + repeat constructor; vm_compute; congruence.
    + vm_compute; congruence.
  - apply (Hsize [65536; 65536] [0%nat; 1%nat]).
    + repeat constructor; vm_compute; congruence.
    + vm_compute; reflexivity.
  - apply (Hskip stable_sort stream_rng toy_get_patterns toy_driver false
             toy_select_state [0%nat; 1%nat]
             (pattern_generator _ _
                (round_state _ _
                   (default (Continue _ _ toy_select_state)
                      (select_round stable_sort stream_rng toy_get_patterns
                         toy_driver false toy_select_state))))).
    + vm_compute; reflexivity.
    + left; vm_compute; reflexivity.
Defined.

(** ** Pattern orders *)

Lemma StronglySorted_mono {A} (R1 R2 : relation A) (l : list A) :
  (∀ x y, R1 x y → R2 x y) → StronglySorted R1 l → StronglySorted R2 l.
Proof.
  intros Hsub. induction 1 as [| x l _ IH Hall]; constructor; [done |].
  eapply Forall_impl; [exact Hall | auto].
Qed.

Lemma StronglySorted_reverse {A} (R : relation A) (l : list A) :
  StronglySorted R l → StronglySorted (flip R) (reverse l).
Proof.
  induction 1 as [| x l _ IH Hall]; [constructor |].
  rewrite reverse_cons. apply StronglySorted_app_2; [| done | repeat constructor].
  intros y x' Hy Hx'. apply list_elem_of_singleton in Hx' as ->.
  rewrite elem_of_reverse in Hy. rewrite Forall_forall in Hall. by apply Hall.
Qed.

Lemma mapM_lookup {A B} (f : A → option B) (l : list A) (k : list B) (i : nat) :
  mapM f l = Some k → k !! i = l !! i ≫= f.
Proof.
  intros Hmap%mapM_Some_1. revert i.
  induction Hmap as [| x y l k Hxy _ IH]; intros [| i]; simpl; auto.
Qed.

Lemma score_less_strict_weak_order (score : nat → Z) :
  strict_weak_order (λ i j, bool_decide (score i < score j)).
Proof.
  repeat split; intros *; rewrite ?bool_decide_eq_true, ?bool_decide_eq_false; lia.
Qed.

Lemma pair_lt_spec (p q : Z * Z) :
  pair_lt p q = true ↔ p.1 < q.1 ∨ (p.1 = q.1 ∧ p.2 < q.2).
Proof.
  unfold pair_lt.
  rewrite orb_true_iff, andb_true_iff, !bool_decide_eq_true. tauto.
Qed.

Lemma pair_lt_false (p q : Z * Z) : pair_lt q p = false ↔ pair_le p q.
Proof.
  rewrite <- not_true_iff_false, pair_lt_spec. unfold pair_le. lia.
Qed.

Lemma pair_less_strict_weak_order (pair : nat → Z * Z) :
  strict_weak_order (λ i j, pair_lt (pair i) (pair j)).
Proof.
  repeat split; intros *;
    rewrite <- ?not_true_iff_false, ?pair_lt_spec; lia.
Qed.

Lemma compute_score_total (order_type : PatternOrder) (task_info : TaskInfo)
    (domains : list Z) (used_var_pairs : list (list bool)) (pattern : Pattern) :
  is_score_order order_type = true →
  is_Some (compute_score pattern order_type task_info domains used_var_pairs).
Proof. destruct order_type; simpl; intros Hscore; done || by eexists. Qed.

Lemma composite_pair_total (order_type : PatternOrder) (task_info : TaskInfo)
    (domains : list Z) (used_var_pairs : list (list bool)) (pattern : Pattern) :
  is_Some (composite_pair order_type task_info domains used_var_pairs pattern).
Proof. unfold composite_pair. simpl. case_decide; by eexists. Qed.

Lemma insert_before_not_less_Permutation (less : nat → nat → bool) (x : nat)
    (l : list nat) :
  insert_before_not_less less x l ≡ₚ x :: l.
Proof.
  induction l as [| y l IH]; simpl; [done |].
  destruct (less y x); [| done]. rewrite IH. apply Permutation_swap.
Qed.

Lemma insert_before_not_less_sorted (less : nat → nat → bool) (x : nat)
    (l : list nat) :
  strict_weak_order less →
  StronglySorted (λ i j, less j i = false) l →
  StronglySorted (λ i j, less j i = false) (insert_before_not_less less x l).
Proof.
  intros (Hirr & Htrans & Hneg).
  induction 1 as [| y l Hl IH Hall]; simpl; [repeat constructor |].
  destruct (less y x) eqn:Hyx.
  - constructor; [done |].
    rewrite insert_before_not_less_Permutation. constructor; [| done].
    destruct (less x y) eqn:Hxy; [| done].
    by rewrite <- (Hirr x), <- (Htrans x y x Hxy Hyx).
  - constructor; [by constructor |]. constructor; [done |].
    eapply Forall_impl; [exact Hall |]. intros z Hz. simpl in *.
    by apply (Hneg z y x).
Qed.

Lemma stable_sort_contract : sort_contract stable_sort.
Proof.
  intros less l Hswo. unfold stable_sort.
  induction l as [| x l [IHp IHs]]; simpl; [by repeat constructor |]. split.
  - by rewrite insert_before_not_less_Permutation, IHp.
  - by apply insert_before_not_less_sorted.
Qed.

Lemma select_shuffle_Permutation (n : nat) (l : list nat) (st : list Z) :
  (select_shuffle n l st).1 ≡ₚ l.
Proof.
  revert l st. induction n as [| n IH]; intros l st; simpl; [done |].
  destruct (draw _ st) as [k st'].
  destruct (l !! Z.to_nat k) as [x |] eqn:Hx; [| done].
  specialize (IH (delete (Z.to_nat k) l) st').
  destruct (select_shuffle n _ st') as [rest st'']. simpl in *.
  rewrite IH. symmetry. by apply delete_Permutation.
Qed.

Lemma stream_rng_contract : shuffle_contract stream_rng.
Proof. intros st l. apply select_shuffle_Permutation. Qed.

Lemma is_composite_order_spec (order_type : PatternOrder) :
  is_composite_order order_type = true
  ↔ order_type = ACTIVE_OPS_UP_CG_MIN_DOWN ∨ order_type = CG_MIN_DOWN_ACTIVE_OPS_UP.
Proof. destruct order_type; simpl; split; (done || by intros [|]) || by auto. Qed.

Lemma score_order_not_composite (order_type : PatternOrder) :
  is_score_order order_type = true → is_composite_order order_type = false.
Proof. by destruct order_type. Qed.

Lemma compute_pattern_order_arranges
    (std_sort : Sorter) (R : RandomNumberGenerator)
    (patterns : list Pattern) (order : list nat) (order_type : PatternOrder)
    (task_info : TaskInfo) (domains : list Z) (used_var_pairs : list (list bool))
    (rng : rng_state R) :
  sort_contract std_sort → shuffle_contract R →
  is_score_order order_type || is_composite_order order_type = true →
  length patterns = length order →
  ∃ order' rng',
    compute_pattern_order std_sort R patterns order order_type task_info domains
      used_var_pairs rng = Some (order', rng')
    ∧ order' ≡ₚ order
    ∧ arranged_by order_type patterns task_info domains used_var_pairs order'.
Proof.
  intros Hsort Hshuffle Hkind Hlen. unfold compute_pattern_order.
  rewrite bool_decide_eq_true_2 by done. simpl.
  destruct (decide (order_type = ORIGINAL)) as [-> | _]; [done |].
  destruct (decide (order_type = REVERSE)) as [-> | _]; [done |].
  pose proof (Hshuffle rng order) as Hperm.
  destruct (rng_shuffle R rng order) as [shuffled rng']. simpl in Hperm.
  destruct (decide (order_type = RANDOM)) as [-> | _]; [done |].
  unfold arranged_by. case_bool_decide as Hcomposite.
  - apply is_composite_order_spec in Hcomposite as Hcomp. rewrite Hcomp.
    destruct (mapM_is_Some_2
                (composite_pair order_type task_info domains used_var_pairs)
                patterns) as [pairs Hpairs].
    { apply Forall_forall. intros pattern _. apply composite_pair_total. }
    rewrite Hpairs. simpl.
    destruct (Hsort (λ i j, pair_lt (pair_at pairs i) (pair_at pairs j)) shuffled
                (pair_less_strict_weak_order (pair_at pairs))) as [Hp Hs].
    eexists _, _. split; [done |]. split; [by rewrite Hp |].
    eapply StronglySorted_mono; [| exact Hs].
    intros i j Hij. simpl in Hij. apply pair_lt_false in Hij.
    unfold pair_at in Hij. unfold pattern_pair.
    by rewrite !(mapM_lookup _ _ _ _ Hpairs) in Hij.
  - assert (is_score_order order_type = true) as Hscore.
    { apply orb_true_iff in Hkind as [? | Hc]; [done |].
      by apply is_composite_order_spec in Hc. }
    rewrite (score_order_not_composite _ Hscore).
    destruct (mapM_is_Some_2
                (λ pattern, compute_score pattern order_type task_info domains
                              used_var_pairs) patterns) as [scores Hscores].
    { apply Forall_forall. intros pattern _. by apply compute_score_total. }
    rewrite Hscores. simpl.
    destruct (Hsort (λ i j, bool_decide (score_at scores i < score_at scores j))
                shuffled (score_less_strict_weak_order (score_at scores)))
      as [Hp Hs].
    assert (StronglySorted
              (λ i j, pattern_score patterns order_type task_info domains
                        used_var_pairs i
                      ≤ pattern_score patterns order_type task_info domains
                          used_var_pairs j)
              (std_sort (λ i j, bool_decide (score_at scores i < score_at scores j))
                 shuffled)) as Hup.
    { eapply StronglySorted_mono; [| exact Hs].
      intros i j Hij. simpl in Hij. apply bool_decide_eq_false in Hij.
      unfold score_at in Hij. unfold pattern_score.
      rewrite !(mapM_lookup _ _ _ _ Hscores) in Hij. lia. }
    eexists _, _. split; [done |].
    destruct (is_down_order order_type).
    + split; [by rewrite reverse_Permutation, Hp |].
      by apply StronglySorted_reverse in Hup.
    + split; [by rewrite Hp | done].
Qed.

(** Claim C1, as amended.  For every score-based policy, every bucket and
    every state of the random number generator, [compute_pattern_order]
    returns a rearrangement of the incoming order in which the scores do not
    decrease (for an [_UP] policy), do not increase (for a [_DOWN] policy),
    or the pairs do not decrease lexicographically (for the two composites).
    Nothing is promised about the relative order of patterns of equal
    score. *)
Theorem compute_pattern_order_sorted_rearrangement
    (std_sort : Sorter) (R : RandomNumberGenerator)
    (patterns : list Pattern) (order : list nat) (order_type : PatternOrder)
    (task_info : TaskInfo) (domains : list Z) (used_var_pairs : list (list bool))
    (rng : rng_state R) :
  sort_contract std_sort → shuffle_contract R →
  is_score_order order_type || is_composite_order order_type = true →
  length patterns = length order →
  ∃ order' rng',
    compute_pattern_order std_sort R patterns order order_type task_info domains
      used_var_pairs rng = Some (order', rng')
    ∧ order' ≡ₚ order
    ∧ arranged_by order_type patterns task_info domains used_var_pairs order'.
Proof. apply compute_pattern_order_arranges. Qed.

Lemma compute_pattern_order_sorted_rearrangement_witness :
  ∃ order' rng',
    compute_pattern_order stable_sort stream_rng
      [[0; 3]; [1; 2]; [0; 1]]%nat [0; 1; 2]%nat CG_SUM_DOWN toy_task_info
      [2; 2; 2; 2] [] ([1; 1] : rng_state stream_rng) = Some (order', rng')
    ∧ order' ≡ₚ [0; 1; 2]%nat
    ∧ arranged_by CG_SUM_DOWN [[0; 3]; [1; 2]; [0; 1]]%nat toy_task_info
        [2; 2; 2; 2] [] order'.
Proof.
  apply (compute_pattern_order_sorted_rearrangement stable_sort stream_rng).
  - exact stable_sort_contract.
  - exact stream_rng_contract.
  - reflexivity.
  - reflexivity.
Defined.

(** Claim C1, as stated, fails.  Two patterns of equal score, in the order
    0, 1 of the generator; the shuffle that precedes the sort exchanges them
    and a sort, even a stable one, leaves them exchanged. *)
Lemma ties_do_not_keep_the_insertion_order :
  compute_pattern_order stable_sort stream_rng [[0; 3]; [1; 2]]%nat [0; 1]%nat
    CG_SUM_UP toy_task_info [2; 2; 2; 2] [] ([1] : rng_state stream_rng)
  = Some ([1; 0]%nat, [])
  ∧ pattern_score [[0; 3]; [1; 2]]%nat CG_SUM_UP toy_task_info [2; 2; 2; 2] [] 0
    = pattern_score [[0; 3]; [1; 2]]%nat CG_SUM_UP toy_task_info [2; 2; 2; 2] [] 1
  ∧ ¬ ties_keep_order
        (pattern_score [[0; 3]; [1; 2]]%nat CG_SUM_UP toy_task_info [2; 2; 2; 2] [])
        [0; 1]%nat [1; 0]%nat.
Proof.
  split; [reflexivity |]. split; [reflexivity |].
  intros Hkeep.
  destruct (Hkeep 0%nat 1%nat 1%nat 0%nat) as (p' & q' & Hp & Hq & Hlt);
    [lia | reflexivity | reflexivity | reflexivity |].
  destruct p' as [| [| p']]; destruct q' as [| [| q']]; simplify_eq/=; lia.
Qed.

(** With a shuffle that changes nothing, a [_DOWN] policy still returns
    tied patterns in the reverse of their incoming order: the sorted order
    is reversed as a whole. *)
Example down_order_reverses_ties :
  compute_pattern_order stable_sort stream_rng [[0; 3]; [1; 2]]%nat [0; 1]%nat
    CG_SUM_DOWN toy_task_info [2; 2; 2; 2] [] ([0; 0] : rng_state stream_rng)
  = Some ([1; 0]%nat, []).
Proof. reflexivity. Qed.

(** ** Restarting the pattern generator *)

Lemma restart_orders_lookup (std_sort : Sorter) (R : RandomNumberGenerator)
    (current_order_type : PatternOrder) (task_info : TaskInfo)
    (domains : list Z) (used_var_pairs : list (list bool))
    (os : list (list nat)) :
  ∀ (ps : list (list Pattern)) (r : rng_state R) (os' : list (list nat))
    (r' : rng_state R),
  restart_orders std_sort R current_order_type task_info domains used_var_pairs
    ps os r = Some (os', r') →
  length os' = length os
  ∧ ∀ i order', os' !! i = Some order' →
      ∃ bucket order r1 r2,
        ps !! i = Some bucket ∧ os !! i = Some order
        ∧ compute_pattern_order std_sort R bucket order current_order_type
            task_info domains used_var_pairs r1 = Some (order', r2).
Proof.
  induction os as [| order os IH]; intros ps r os' r' Hrestart; simpl in Hrestart.
  - simplify_eq. split; [done |]. intros i order' Hi. by rewrite lookup_nil in Hi.
  - destruct ps as [| bucket ps]; [done |].
    destruct (compute_pattern_order std_sort R bucket order current_order_type
                task_info domains used_var_pairs r) as [[order1 r1] |] eqn:Hfirst;
      [| done].
    simpl in Hrestart.
    destruct (restart_orders std_sort R current_order_type task_info domains
                used_var_pairs ps os r1) as [[rest r2] |] eqn:Hrest; [| done].
    simpl in Hrestart. simplify_eq.
    destruct (IH ps r1 rest r' Hrest) as [Hlen Hlookup].
    split; [simpl; by rewrite Hlen |].
    intros [| i] order' Hi; simpl in Hi.
    + simplify_eq. by exists bucket, order, r, r1.
    + by apply Hlookup.
Qed.

(** Claim C7.  For every policy other than [RANDOM], [NEW_VAR_PAIRS_UP],
    [NEW_VAR_PAIRS_DOWN] and [ALT_TWO], [restart] leaves the generator, and
    with it every cached order, as it is.  For those four it keeps the
    cached buckets and replaces the order of each of them by the outcome of
    [compute_pattern_order] on that bucket and its previous order, under the
    policy [get_order_type] yields. *)
Theorem restart_recomputes_only_data_dependent_orders
    (std_sort : Sorter) (R : RandomNumberGenerator)
    (g : SequentialPatternGenerator R) (used_var_pairs : list (list bool)) :
  (¬ data_dependent_order (order_type R g) →
   restart std_sort R g used_var_pairs = Some g)
  ∧ (data_dependent_order (order_type R g) →
     ∀ g', restart std_sort R g used_var_pairs = Some g' →
       patterns R g' = patterns R g
       ∧ length (orders R g') = length (orders R g)
       ∧ ∀ i order', orders R g' !! i = Some order' →
           ∃ bucket order r1 r2,
             patterns R g !! i = Some bucket ∧ orders R g !! i = Some order
             ∧ compute_pattern_order std_sort R bucket order
                 (get_order_type R g).1 (task_info R g) (domains R g)
                 used_var_pairs r1 = Some (order', r2)).
Proof.
  unfold restart, data_dependent_order. split.
  - intros Hfixed. by rewrite bool_decide_eq_false_2.
  - intros Hdata g' Hrestart. rewrite bool_decide_eq_true_2 in Hrestart by done.
    assert (∃ g1, get_order_type R g = ((get_order_type R g).1, g1)
                  ∧ task_info R g1 = task_info R g ∧ domains R g1 = domains R g
                  ∧ patterns R g1 = patterns R g ∧ orders R g1 = orders R g)
      as (g1 & Hg1 & Hti & Hdom & Hps & Hos).
    { unfold get_order_type. case_decide; [| by exists g].
      destruct (rng_below R (rng R g) 2) as [coin r]. by eexists. }
    rewrite Hg1 in Hrestart.
    destruct (restart_orders std_sort R (get_order_type R g).1 (task_info R g1)
                (domains R g1) used_var_pairs (patterns R g1) (orders R g1)
                (rng R g1)) as [[os r] |] eqn:Horders; [| done].
    simpl in Hrestart. simplify_eq. simpl.
    rewrite Hti, Hdom, Hps, Hos in Horders.
    destruct (restart_orders_lookup _ _ _ _ _ _ _ _ _ _ _ Horders) as [Hlen Hlk].
    by rewrite Hps.
Qed.

Lemma restart_recomputes_only_data_dependent_orders_witness :
  restart stable_sort stream_rng (toy_cached_generator CG_MIN_DOWN [1] [1; 0]%nat)
    [[false; false]; [false; false]]
  = Some (toy_cached_generator CG_MIN_DOWN [1] [1; 0]%nat)
  ∧ (patterns _ (toy_cached_generator RANDOM [] [1; 0]%nat)
     = patterns _ (toy_cached_generator RANDOM [1] [0; 1]%nat)
     ∧ length (orders _ (toy_cached_generator RANDOM [] [1; 0]%nat))
       = length (orders _ (toy_cached_generator RANDOM [1] [0; 1]%nat))
     ∧ ∀ i order',
         orders _ (toy_cached_generator RANDOM [] [1; 0]%nat) !! i = Some order' →
         ∃ bucket order r1 r2,
           patterns _ (toy_cached_generator RANDOM [1] [0; 1]%nat) !! i
             = Some bucket
           ∧ orders _ (toy_cached_generator RANDOM [1] [0; 1]%nat) !! i
             = Some order
           ∧ compute_pattern_order stable_sort stream_rng bucket order RANDOM
               toy_task_info [65536; 65536] [[false; false]; [false; false]] r1
             = Some (order', r2)).
Proof.
  split.
  - apply (restart_recomputes_only_data_dependent_orders stable_sort stream_rng).
    unfold data_dependent_order. simpl. intros [? | [? | [? | ?]]]; discriminate.
  - apply (restart_recomputes_only_data_dependent_orders stable_sort stream_rng
             (toy_cached_generator RANDOM [1] [0; 1]%nat)
             [[false; false]; [false; false]]).
    + by left.
    + reflexivity.
Defined.

End pdbs_properties.

(** * Properties of the online heuristic *)

Section cost_saturation_properties.
Import CostSaturation.

(** ** Novelty bookkeeping *)

Lemma vec_get_Some {A} (v : list A) (i : Z) (x : A) :
  vec_get v i = Some x ↔ 0 ≤ i ∧ v !! Z.to_nat i = Some x.
Proof.
  unfold vec_get. case_bool_decide as Hi; [tauto |].
  split; [done | intros [? _]; lia].
Qed.

Lemma vec_get_lt {A} (v : list A) (i : Z) (x : A) :
  vec_get v i = Some x → 0 ≤ i < Z.of_nat (length v).
Proof.
  intros [Hi Hx%lookup_lt_Some]%vec_get_Some. lia.
Qed.

Lemma vec_set_same {A} (v : list A) (i : Z) (x : A) :
  vec_get v i = Some x → vec_set v i x = Some v.
Proof.
  intros Hget. pose proof (vec_get_lt _ _ _ Hget) as Hlt.
  apply vec_get_Some in Hget as [_ Hx]. unfold vec_set.
  rewrite bool_decide_eq_true_2 by done. by rewrite list_insert_id.
Qed.

Lemma visit_fact_pair_seen (pairs pairs' : list (list bool)) (fact_id1 fact_id2 : Z) :
  visit_fact_pair pairs fact_id1 fact_id2 = Some (false, pairs') → pairs' = pairs.
Proof.
  unfold visit_fact_pair.
  destruct (if bool_decide (fact_id1 > fact_id2) then (fact_id2, fact_id1)
            else (fact_id1, fact_id2)) as [i j].
  destruct (negb (bool_decide (i < j))); [done |].
  destruct (vec_get pairs i) as [row |] eqn:Hrow; [| done]. simpl.
  destruct (vec_get row j) as [seen |] eqn:Hseen; [| done]. simpl.
  destruct seen.
  - rewrite (vec_set_same _ _ _ Hseen). simpl.
    rewrite (vec_set_same _ _ _ Hrow). simpl. congruence.
  - destruct (vec_set row j true); [| done]. simpl.
    destruct (vec_set pairs i _); simpl; congruence.
Qed.

Lemma is_novel_facts_not_novel (offsets : list Z) (effects : list FactPair) :
  ∀ (novel : bool) (seen seen' : list bool),
  is_novel_facts offsets effects novel seen = Some (false, seen') →
  novel = false ∧ seen' = seen.
Proof.
  induction effects as [| fact rest IH]; intros novel seen seen' Hrun;
    simpl in Hrun.
  - by simplify_eq.
  - destruct (get_fact_id offsets (var fact) (value fact)) as [fact_id |];
      [| done]. simpl in Hrun.
    destruct (vec_get seen fact_id) as [was_seen |]; [| done]. simpl in Hrun.
    destruct was_seen; simpl in Hrun.
    + by apply IH.
    + destruct (vec_set seen fact_id true) as [seen1 |]; [| done].
      simpl in Hrun. by destruct (IH _ _ _ Hrun).
Qed.

Lemma is_novel_pairs_of_not_novel (offsets state : list Z) (fact1_var : nat)
    (fact_id1 : Z) (vars : list nat) :
  ∀ (novel : bool) (pairs pairs' : list (list bool)),
  is_novel_pairs_of offsets state fact1_var fact_id1 vars novel pairs
    = Some (false, pairs') →
  novel = false ∧ pairs' = pairs.
Proof.
  induction vars as [| var2 rest IH]; intros novel pairs pairs' Hrun;
    simpl in Hrun.
  - by simplify_eq.
  - case_bool_decide; [by apply IH |].
    destruct (state !! var2) as [value2 |]; [| done]. simpl in Hrun.
    destruct (get_fact_id offsets var2 value2) as [fact_id2 |]; [| done].
    simpl in Hrun.
    destruct (visit_fact_pair pairs fact_id1 fact_id2) as [[visited pairs1] |]
      eqn:Hvisit; [| done].
    simpl in Hrun. destruct (IH _ _ _ Hrun) as [Hnovel ->].
    destruct visited; [done |]. split; [done |].
    by apply visit_fact_pair_seen in Hvisit.
Qed.

Lemma is_novel_pairs_not_novel (offsets state : list Z) (effects : list FactPair) :
  ∀ (novel : bool) (pairs pairs' : list (list bool)),
  is_novel_pairs offsets state effects novel pairs = Some (false, pairs') →
  novel = false ∧ pairs' = pairs.
Proof.
  induction effects as [| fact1 rest IH]; intros novel pairs pairs' Hrun;
    simpl in Hrun.
  - by simplify_eq.
  - destruct (get_fact_id offsets (var fact1) (value fact1)) as [fact_id1 |];
      [| done]. simpl in Hrun.
    destruct (is_novel_pairs_of offsets state (var fact1) fact_id1
                (seq 0 (length offsets)) novel pairs) as [[novel1 pairs1] |]
      eqn:Hinner; [| done].
    simpl in Hrun. destruct (IH _ _ _ Hrun) as [-> ->].
    by apply is_novel_pairs_of_not_novel in Hinner.
Qed.

(** Claim C6.  Whatever the novelty structures, the operator and the state:
    when [is_novel] returns false, the seen facts and the seen fact pairs
    are after the call what they were before it. *)
Theorem is_novel_false_leaves_seen_sets
    (interval : Z) (task : Task) (op_id : nat) (state : GlobalState)
    (nv nv' : Novelty) :
  is_novel interval task op_id state nv = Some (false, nv') →
  seen_facts nv' = seen_facts nv ∧ seen_fact_pairs nv' = seen_fact_pairs nv
  ∧ nv' = nv.
Proof.
  unfold is_novel. intros Hrun. destruct nv as [offsets seen pairs].
  simpl in Hrun. case_bool_decide.
  - destruct (operator_effects task !! op_id) as [effects |]; [| done].
    simpl in Hrun.
    destruct (is_novel_facts offsets effects false seen) as [[novel seen1] |]
      eqn:Hfacts; [| done].
    simpl in Hrun. simplify_eq.
    by destruct (is_novel_facts_not_novel _ _ _ _ _ Hfacts) as [_ ->].
  - case_bool_decide; [| done].
    destruct (operator_effects task !! op_id) as [effects |]; [| done].
    simpl in Hrun.
    destruct (is_novel_pairs offsets (state_values state) effects false pairs)
      as [[novel pairs1] |] eqn:Hpairs; [| done].
    simpl in Hrun. simplify_eq.
    by destruct (is_novel_pairs_not_novel _ _ _ _ _ _ Hpairs) as [_ ->].
Qed.

Lemma is_novel_false_leaves_seen_sets_witness :
  let nv := {| fact_id_offsets := [0; 2]; seen_facts := [];
               seen_fact_pairs := replicate 4 (replicate 4 true) |} in
  is_novel (-2) toy_task 0 (toy_state 1 [1; 0]) nv = Some (false, nv)
  ∧ seen_facts nv = seen_facts nv ∧ seen_fact_pairs nv = seen_fact_pairs nv
  ∧ nv = nv.
Proof.
  intros nv. split; [reflexivity |].
  apply (is_novel_false_leaves_seen_sets (-2) toy_task 0 (toy_state 1 [1; 0])).
  reflexivity.
Defined.

Lemma compute_fact_id_offsets_spec (domains : list Z) :
  ∀ (base : Z) (offsets : list Z) (total : Z),
  compute_fact_id_offsets base domains = (offsets, total) →
  Forall (λ d, 0 ≤ d) domains →
  length offsets = length domains
  ∧ base ≤ total
  ∧ (∀ v d, domains !! v = Some d →
       ∃ offset, offsets !! v = Some offset ∧ base ≤ offset ∧ offset + d ≤ total)
  ∧ (∀ v1 v2 d1 offset1 offset2, (v1 < v2)%nat →
       domains !! v1 = Some d1 → offsets !! v1 = Some offset1 →
       offsets !! v2 = Some offset2 → offset1 + d1 ≤ offset2).
Proof.
  induction domains as [| d ds IH]; intros base offsets total Hrun Hpos;
    simpl in Hrun.
  - simplify_eq. repeat split; [lia | |]; intros *; by rewrite ?lookup_nil.
  - destruct (compute_fact_id_offsets (base + d) ds) as [offs tot] eqn:Hrec.
    simplify_eq. apply Forall_cons in Hpos as [Hd Hpos].
    destruct (IH _ _ _ Hrec Hpos) as (Hlen & Hle & Hin & Hdisjoint).
    split; [simpl; lia |]. split; [lia |]. split.
    + intros [| v] d' Hv; simpl in *.
      * simplify_eq. exists base. split; [done | lia].
      * destruct (Hin v d' Hv) as (offset & ? & ? & ?).
        exists offset. split; [done | lia].
    + intros [| v1] [| v2] d1 offset1 offset2 Hlt Hd1 Ho1 Ho2; simpl in *;
        try lia.
      * simplify_eq.
        destruct (lookup_lt_is_Some_2 ds v2) as [d2 Hd2].
        { rewrite <- Hlen. by eapply lookup_lt_Some. }
        destruct (Hin v2 d2 Hd2) as (offset & ? & ? & ?). simplify_eq. lia.
      * eapply (Hdisjoint v1 v2); eauto. lia.
Qed.

Lemma valid_state_positive_domains (domains state : list Z) :
  valid_state domains state → Forall (λ d, 0 ≤ d) domains.
Proof.
  unfold valid_state. induction 1; constructor; [lia | done].
Qed.

Lemma distinct_variables_well_formed_visit (domains offsets : list Z)
    (num_facts : Z) (fact1 fact2 : FactPair) :
  compute_fact_id_offsets 0 domains = (offsets, num_facts) →
  Forall (λ d, 0 ≤ d) domains →
  valid_fact domains fact1 → valid_fact domains fact2 →
  var fact1 ≠ var fact2 →
  well_formed_visit offsets num_facts (fact1, fact2).
Proof.
  intros Hoffsets Hpos (d1 & Hd1 & Hv1) (d2 & Hd2 & Hv2) Hne.
  destruct (compute_fact_id_offsets_spec _ _ _ _ Hoffsets Hpos)
    as (_ & _ & Hin & Hdisjoint).
  destruct (Hin _ _ Hd1) as (o1 & Ho1 & Hlo1 & Hhi1).
  destruct (Hin _ _ Hd2) as (o2 & Ho2 & Hlo2 & Hhi2).
  split; [done |]. exists (o1 + value fact1), (o2 + value fact2).
  unfold get_fact_id. simpl. rewrite Ho1, Ho2. simpl.
  split; [done |]. split; [done |].
  destruct (decide (var fact1 < var fact2)%nat) as [Hlt | Hge].
  - pose proof (Hdisjoint _ _ _ _ _ Hlt Hd1 Ho1 Ho2). lia.
  - assert (var fact2 < var fact1)%nat as Hlt by lia.
    pose proof (Hdisjoint _ _ _ _ _ Hlt Hd2 Ho2 Ho1). lia.
Qed.

Lemma visit_fact_pair_in_range (n : Z) (pairs : list (list bool))
    (fact_id1 fact_id2 : Z) :
  square_matrix n pairs →
  0 ≤ Z.min fact_id1 fact_id2 →
  Z.min fact_id1 fact_id2 < Z.max fact_id1 fact_id2 →
  Z.max fact_id1 fact_id2 < n →
  ∃ visited pairs',
    visit_fact_pair pairs fact_id1 fact_id2 = Some (visited, pairs')
    ∧ square_matrix n pairs'.
Proof.
  intros [Hrows Hcols] Hmin Hlt Hmax. unfold visit_fact_pair.
  destruct (if bool_decide (fact_id1 > fact_id2) then (fact_id2, fact_id1)
            else (fact_id1, fact_id2)) as [i j] eqn:Hswap.
  assert (i = Z.min fact_id1 fact_id2 ∧ j = Z.max fact_id1 fact_id2) as [Hi Hj].
  { case_bool_decide; simplify_eq; lia. }
  rewrite bool_decide_eq_true_2 by lia. simpl.
  destruct (lookup_lt_is_Some_2 pairs (Z.to_nat i)) as [row Hrow]; [lia |].
  assert (Z.of_nat (length row) = n) as Hlen.
  { rewrite Forall_forall in Hcols. apply Hcols.
    by eapply list_elem_of_lookup_2. }
  destruct (lookup_lt_is_Some_2 row (Z.to_nat j)) as [seen Hseen]; [lia |].
  unfold vec_get, vec_set. rewrite !bool_decide_eq_true_2 by lia.
  rewrite Hrow. simpl. rewrite Hseen. simpl.
  rewrite bool_decide_eq_true_2 by lia. simpl.
  eexists _, _. split; [done |]. split.
  - by rewrite length_insert.
  - apply Forall_insert; [done |]. by rewrite length_insert.
Qed.

Lemma visit_fact_pair_symmetric (pairs : list (list bool)) (fact_id1 fact_id2 : Z) :
  visit_fact_pair pairs fact_id1 fact_id2 = visit_fact_pair pairs fact_id2 fact_id1.
Proof.
  unfold visit_fact_pair.
  destruct (decide (fact_id1 = fact_id2)) as [-> | Hne]; [done |].
  destruct (decide (fact_id1 > fact_id2)).
  - rewrite (bool_decide_eq_true_2 (fact_id1 > fact_id2)) by done.
    by rewrite (bool_decide_eq_false_2 (fact_id2 > fact_id1)) by lia.
  - rewrite (bool_decide_eq_false_2 (fact_id1 > fact_id2)) by done.
    by rewrite (bool_decide_eq_true_2 (fact_id2 > fact_id1)) by lia.
Qed.

Lemma visit_all_app (offsets : list Z) (visits1 visits2 : list (FactPair * FactPair)) :
  ∀ (novel : bool) (pairs : list (list bool)),
  visit_all offsets (visits1 ++ visits2) novel pairs
  = visit_all offsets visits1 novel pairs
      ≫= λ r, visit_all offsets visits2 r.1 r.2.
Proof.
  induction visits1 as [| [fact1 fact2] rest IH]; intros novel pairs; simpl;
    [done |].
  destruct (get_fact_id offsets (var fact1) (value fact1)); [| done]. simpl.
  destruct (get_fact_id offsets (var fact2) (value fact2)); [| done]. simpl.
  destruct (visit_fact_pair pairs _ _) as [[visited pairs1] |]; [| done]. simpl.
  apply IH.
Qed.

Lemma is_novel_pairs_of_visits (offsets state : list Z) (fact1 : FactPair)
    (fact_id1 : Z) (vars : list nat) :
  get_fact_id offsets (var fact1) (value fact1) = Some fact_id1 →
  (∀ var2, var2 ∈ vars → is_Some (state !! var2)) →
  ∀ (novel : bool) (pairs : list (list bool)),
  is_novel_pairs_of offsets state (var fact1) fact_id1 vars novel pairs
  = visit_all offsets
      (var2 ← vars;
       if bool_decide (var fact1 = var2) then []
       else match state !! var2 with
            | Some value2 => [(fact1, {| var := var2; value := value2 |})]
            | None => []
            end) novel pairs.
Proof.
  intros Hid1. induction vars as [| var2 rest IH]; intros Hstate novel pairs;
    [done |].
  simpl. case_bool_decide.
  { simpl. apply IH. intros v Hv. apply Hstate. by right. }
  destruct (Hstate var2) as [value2 Hvalue2]; [by left |].
  rewrite Hvalue2. simpl. rewrite Hid1. simpl.
  destruct (get_fact_id offsets var2 value2); [| done]. simpl.
  destruct (visit_fact_pair pairs _ _) as [[visited pairs1] |]; [| done]. simpl.
  apply IH. intros v Hv. apply Hstate. by right.
Qed.

Lemma is_novel_pairs_visits (offsets state : list Z) (effects : list FactPair) :
  Forall (λ fact, is_Some (get_fact_id offsets (var fact) (value fact))) effects →
  length state = length offsets →
  ∀ (novel : bool) (pairs : list (list bool)),
  is_novel_pairs offsets state effects novel pairs
  = visit_all offsets (is_novel_visits (length offsets) state effects) novel pairs.
Proof.
  intros Hids Hlen. induction Hids as [| fact1 rest [fact_id1 Hid1] _ IH];
    intros novel pairs; [done |].
  unfold is_novel_visits. simpl. rewrite visit_all_app, Hid1. simpl.
  rewrite (is_novel_pairs_of_visits offsets state fact1 fact_id1 _ Hid1).
  - destruct (visit_all offsets _ novel pairs) as [[novel1 pairs1] |]; [| done].
    simpl. apply IH.
  - intros var2 Hvar2%elem_of_seq. apply lookup_lt_is_Some_2. lia.
Qed.

Lemma seed_pairs_of_visits (offsets state : list Z) (var1 : nat) (value1 : Z)
    (fact_id1 : Z) (vars : list nat) :
  get_fact_id offsets var1 value1 = Some fact_id1 →
  (∀ var2, var2 ∈ vars → is_Some (state !! var2)) →
  ∀ (novel : bool) (pairs : list (list bool)),
  seed_pairs_of offsets state fact_id1 vars pairs
  = snd <$> visit_all offsets
      (var2 ← vars;
       match state !! var2 with
       | Some value2 => [({| var := var1; value := value1 |},
                          {| var := var2; value := value2 |})]
       | None => []
       end) novel pairs.
Proof.
  intros Hid1. induction vars as [| var2 rest IH]; intros Hstate novel pairs;
    [done |].
  simpl. destruct (Hstate var2) as [value2 Hvalue2]; [by left |].
  rewrite Hvalue2. simpl. rewrite Hid1. simpl.
  destruct (get_fact_id offsets var2 value2); [| done]. simpl.
  destruct (visit_fact_pair pairs _ _) as [[visited pairs1] |]; [| done]. simpl.
  apply IH. intros v Hv. apply Hstate. by right.
Qed.

Lemma seed_pairs_visits (offsets state : list Z) (vars : list nat) :
  length state = length offsets →
  (∀ var1, var1 ∈ vars → (var1 < length offsets)%nat) →
  ∀ (novel : bool) (pairs : list (list bool)),
  seed_pairs offsets state (length offsets) vars pairs
  = snd <$> visit_all offsets
      (var1 ← vars;
       var2 ← seq (S var1) (length offsets - S var1);
       match state !! var1, state !! var2 with
       | Some value1, Some value2 =>
           [({| var := var1; value := value1 |},
             {| var := var2; value := value2 |})]
       | _, _ => []
       end) novel pairs.
Proof.
  intros Hlen. induction vars as [| var1 rest IH]; intros Hvars novel pairs;
    [done |].
  simpl. rewrite visit_all_app.
  assert (var1 < length offsets)%nat as Hvar1 by (apply Hvars; by left).
  destruct (lookup_lt_is_Some_2 state var1) as [value1 Hvalue1]; [lia |].
  destruct (lookup_lt_is_Some_2 offsets var1) as [offset1 Hoffset1]; [lia |].
  rewrite Hvalue1. simpl.
  assert (get_fact_id offsets var1 value1 = Some (offset1 + value1)) as Hid1.
  { unfold get_fact_id. by rewrite Hoffset1. }
  rewrite Hid1. simpl.
  rewrite (seed_pairs_of_visits offsets state var1 value1 _ _ Hid1) with (novel := novel).
  - destruct (visit_all offsets _ novel pairs) as [[novel1 pairs1] |]; [| done].
    simpl. apply IH. intros v Hv. apply Hvars. by right.
  - intros var2 Hvar2%elem_of_seq. apply lookup_lt_is_Some_2. lia.
Qed.

Lemma valid_state_lookup (domains state : list Z) (v : nat) (x : Z) :
  valid_state domains state → state !! v = Some x →
  valid_fact domains {| var := v; value := x |}.
Proof.
  intros Hvalid Hx.
  destruct (Forall2_lookup_r _ _ _ _ _ Hvalid Hx) as (d & Hd & Hrange).
  by exists d.
Qed.

Lemma is_novel_visits_well_formed (domains offsets state : list Z)
    (num_facts : Z) (effects : list FactPair) :
  compute_fact_id_offsets 0 domains = (offsets, num_facts) →
  valid_state domains state → Forall (valid_fact domains) effects →
  Forall (well_formed_visit offsets num_facts)
    (is_novel_visits (length offsets) state effects).
Proof.
  intros Hoffsets Hstate Heffects. apply Forall_forall. intros [f1 f2] Hin.
  unfold is_novel_visits in Hin.
  apply list_elem_of_bind in Hin as (fact1 & Hin & Hfact1).
  apply list_elem_of_bind in Hin as (var2 & Hin & _).
  case_bool_decide as Hne; [by apply elem_of_nil in Hin |].
  destruct (state !! var2) as [value2 |] eqn:Hvalue2;
    [| by apply elem_of_nil in Hin].
  apply list_elem_of_singleton in Hin. simplify_eq.
  eapply distinct_variables_well_formed_visit; eauto.
  - by eapply valid_state_positive_domains.
  - rewrite Forall_forall in Heffects. by apply Heffects.
  - by eapply valid_state_lookup.
Qed.

Lemma initial_visits_well_formed (domains offsets state : list Z)
    (num_facts : Z) :
  compute_fact_id_offsets 0 domains = (offsets, num_facts) →
  valid_state domains state →
  Forall (well_formed_visit offsets num_facts)
    (initial_visits (length offsets) state).
Proof.
  intros Hoffsets Hstate. apply Forall_forall. intros [f1 f2] Hin.
  unfold initial_visits in Hin.
  apply list_elem_of_bind in Hin as (var1 & Hin & _).
  apply list_elem_of_bind in Hin as (var2 & Hin & Hvar2%elem_of_seq).
  destruct (state !! var1) as [value1 |] eqn:Hvalue1;
    [| by apply elem_of_nil in Hin].
  destruct (state !! var2) as [value2 |] eqn:Hvalue2;
    [| by apply elem_of_nil in Hin].
  apply list_elem_of_singleton in Hin. simplify_eq.
  eapply distinct_variables_well_formed_visit; eauto.
  - by eapply valid_state_positive_domains.
  - by eapply valid_state_lookup.
  - by eapply valid_state_lookup.
  - simpl. lia.
Qed.

Lemma visit_all_well_formed (offsets : list Z) (num_facts : Z)
    (visits : list (FactPair * FactPair)) :
  Forall (well_formed_visit offsets num_facts) visits →
  ∀ (novel : bool) (pairs : list (list bool)),
  square_matrix num_facts pairs →
  ∃ novel' pairs',
    visit_all offsets visits novel pairs = Some (novel', pairs')
    ∧ square_matrix num_facts pairs'.
Proof.
  induction 1 as [| [fact1 fact2] rest Hvisit _ IH]; intros novel pairs Hsquare.
  - by exists novel, pairs.
  - destruct Hvisit as (_ & id1 & id2 & Hid1 & Hid2 & _ & Hmin & Hlt & Hmax).
    simpl in *. rewrite Hid1, Hid2. simpl.
    destruct (visit_fact_pair_in_range _ _ _ _ Hsquare Hmin Hlt Hmax)
      as (visited & pairs1 & -> & Hsquare1).
    simpl. by apply IH.
Qed.

(** Claim C10.  On a task, a state and novelty structures that fit together
    (the state assigns every variable a value of its domain, the effects
    are facts of the task, offsets and matrix are as the constructor builds
    them), every call of [visit_fact_pair] made by [is_novel] and by
    [notify_initial_state] for [interval = -2] receives the ids of two facts
    of distinct variables, which are distinct, pass the assertion after the
    exchange and lie within the matrix; both functions run through all their
    calls; and [visit_fact_pair] yields the same for a pair of ids and for
    the exchanged pair. *)
Theorem visit_fact_pair_calls_well_formed
    (task : Task) (op_id : nat) (effects : list FactPair) (state : GlobalState)
    (nv : Novelty) (num_facts : Z) :
  compute_fact_id_offsets 0 (variable_domains task)
    = (fact_id_offsets nv, num_facts) →
  valid_state (variable_domains task) (state_values state) →
  operator_effects task !! op_id = Some effects →
  Forall (valid_fact (variable_domains task)) effects →
  square_matrix num_facts (seen_fact_pairs nv) →
  let offsets := fact_id_offsets nv in
  let num_vars := length offsets in
  Forall (well_formed_visit offsets num_facts)
    (is_novel_visits num_vars (state_values state) effects
     ++ initial_visits num_vars (state_values state))
  ∧ (∃ novel pairs',
       visit_all offsets (is_novel_visits num_vars (state_values state) effects)
         false (seen_fact_pairs nv) = Some (novel, pairs')
       ∧ is_novel (-2) task op_id state nv
         = Some (novel, {| fact_id_offsets := offsets;
                           seen_facts := seen_facts nv;
                           seen_fact_pairs := pairs' |})
       ∧ square_matrix num_facts pairs')
  ∧ (∀ (C : Collaborators) (O : Options) (st : Heuristic C),
       interval O = -2 → novelty C st = nv →
       ∃ novel pairs',
         visit_all offsets (initial_visits num_vars (state_values state))
           false (seen_fact_pairs nv) = Some (novel, pairs')
         ∧ notify_initial_state C O state st
           = Some (set_novelty_cache C st
                     {| fact_id_offsets := offsets;
                        seen_facts := seen_facts nv;
                        seen_fact_pairs := pairs' |}
                     (cache_set_h (heuristic_cache C st) state IS_NOVEL))
         ∧ square_matrix num_facts pairs')
  ∧ (∀ (pairs : list (list bool)) (fact_id1 fact_id2 : Z),
       visit_fact_pair pairs fact_id1 fact_id2
       = visit_fact_pair pairs fact_id2 fact_id1).
Proof.
  intros Hoffsets Hstate Hop Heffects Hsquare offsets num_vars.
  subst offsets num_vars.
  pose proof (valid_state_positive_domains _ _ Hstate) as Hpos.
  destruct (compute_fact_id_offsets_spec _ _ _ _ Hoffsets Hpos)
    as (Hlen & _ & Hin & _).
  assert (length (state_values state) = length (fact_id_offsets nv))
    as Hlen_state.
  { rewrite Hlen. symmetry. by eapply Forall2_length. }
  pose proof (is_novel_visits_well_formed _ _ _ _ _ Hoffsets Hstate Heffects)
    as Hwf_novel.
  pose proof (initial_visits_well_formed _ _ _ _ Hoffsets Hstate) as Hwf_initial.
  split; [by apply Forall_app |]. split; [| split].
  - destruct (visit_all_well_formed _ _ _ Hwf_novel false _ Hsquare)
      as (novel & pairs' & Hvisits & Hsquare').
    exists novel, pairs'. split; [done |]. split; [| done].
    unfold is_novel. simpl. rewrite Hop. simpl.
    rewrite is_novel_pairs_visits; [by rewrite Hvisits | | done].
    eapply Forall_impl; [exact Heffects |].
    intros fact (d & Hd & _). destruct (Hin _ _ Hd) as (offset & Hoffset & _).
    unfold get_fact_id. rewrite Hoffset. by eexists.
  - intros C O st Hinterval Hnv.
    destruct (visit_all_well_formed _ _ _ Hwf_initial false _ Hsquare)
      as (novel & pairs' & Hvisits & Hsquare').
    exists novel, pairs'. split; [done |]. split; [| done].
    unfold notify_initial_state. rewrite Hinterval, Hnv. simpl.
    rewrite (seed_pairs_visits _ _ _ Hlen_state) with (novel := false).
    + unfold initial_visits in Hvisits. by rewrite Hvisits.
    + intros var1 Hvar1%elem_of_seq. lia.
  - apply visit_fact_pair_symmetric.
Qed.

Lemma visit_fact_pair_calls_well_formed_witness :
  let nv := initial_novelty (-2) toy_task in
  let state := toy_state 0 [0; 0] in
  Forall (well_formed_visit [0; 2] 4)
    (is_novel_visits 2 [0; 0] [{| var := 0; value := 1 |}]
     ++ initial_visits 2 [0; 0])
  ∧ is_Some (is_novel (-2) toy_task 0 state nv)
  ∧ is_Some (notify_initial_state toy_collaborators (toy_options ONE_SHOT (-2) false)
               state (toy_heuristic (-2) []))
  ∧ visit_fact_pair (seen_fact_pairs nv) 1 2
    = visit_fact_pair (seen_fact_pairs nv) 2 1.
Proof.
  intros nv state.
  destruct (visit_fact_pair_calls_well_formed toy_task 0
              [{| var := 0; value := 1 |}] state nv 4)
    as (Hvisits & (novel & pairs' & _ & Hnovel & _) & Hinitial & Hsym).
  - reflexivity.
  - repeat constructor; simpl; lia.
  - reflexivity.
  - repeat constructor. exists 2. split; [reflexivity | simpl; lia].
  - split; [reflexivity | repeat constructor].
  - destruct (Hinitial toy_collaborators (toy_options ONE_SHOT (-2) false)
                (toy_heuristic (-2) [])) as (novel' & pairs'' & _ & Hrun & _);
      [reflexivity | reflexivity |].
    split; [exact Hvisits |]. split; [by rewrite Hnovel |].
    split; [by rewrite Hrun | apply Hsym].
Defined.

(** ** [compute_heuristic], path by path *)

Lemma compute_max_h_from_ge (cps : list CostPartitioningHeuristic) (ids : list Z) :
  ∀ base,
  base ≤ foldl (λ max_h cp, Z.max max_h (cph_compute_heuristic cp ids)) base cps.
Proof.
  induction cps as [| cp cps IH]; intros base; simpl; [lia |].
  etrans; [| apply IH]. lia.
Qed.

Lemma compute_max_h_nonneg (cps : list CostPartitioningHeuristic) (ids : list Z) :
  0 ≤ compute_max_h cps ids.
Proof. apply compute_max_h_from_ge. Qed.

Lemma compute_heuristic_dead_end (C : Collaborators) (O : Options)
    (time_limit_reached : bool) (global_state : GlobalState) (st : Heuristic C) :
  phase_assertion C st = true →
  is_unsolvable (unsolvability_heuristic O)
    (abstract_state_ids_of C st global_state) = true →
  compute_heuristic C O time_limit_reached global_state st
  = Some (DEAD_END, st, []).
Proof.
  intros Hphase Hdead. unfold compute_heuristic, abstract_state_ids_of in *.
  by rewrite Hphase, Hdead.
Qed.

Lemma stop_improvement_total (C : Collaborators) (O : Options) (st : Heuristic C) :
  phase_assertion C st = true → improve_heuristic C st = true →
  ∃ functions,
    extract_useful_abstraction_functions C (cp_heuristics C st)
      (unsolvability_heuristic O) (abstractions C st) [] = Some functions
    ∧ stop_improvement C O st
      = Some {| abstractions := [];
                abstraction_functions := functions;
                cp_heuristics := cp_heuristics C st;
                order_generator := order_generator C st;
                improve_heuristic := false;
                size_kb := size_kb C st;
                num_evaluated_states := num_evaluated_states C st;
                num_scps_computed := num_scps_computed C st;
                novelty := {| fact_id_offsets := []; seen_facts := [];
                              seen_fact_pairs := [] |};
                heuristic_cache := heuristic_cache C st |}.
Proof.
  unfold phase_assertion. intros Hphase Himprove. rewrite Himprove in Hphase.
  apply andb_true_iff in Hphase as [_ Hempty%bool_decide_eq_true].
  apply nil_length_inv in Hempty.
  unfold stop_improvement. rewrite Hempty.
  unfold extract_useful_abstraction_functions. simpl.
  rewrite bool_decide_eq_true_2 by apply length_imap.
  by eexists.
Qed.

Lemma compute_heuristic_stop (C : Collaborators) (O : Options)
    (time_limit_reached : bool) (global_state : GlobalState) (st : Heuristic C) :
  phase_assertion C st = true →
  is_unsolvable (unsolvability_heuristic O)
    (abstract_state_ids_of C st global_state) = false →
  improve_heuristic C st = true →
  budget_exhausted C O time_limit_reached st →
  ∃ st1,
    stop_improvement C O st = Some st1
    ∧ compute_heuristic C O time_limit_reached global_state st
      = Some (compute_max_h (cp_heuristics C st)
                (abstract_state_ids_of C st global_state),
              count_evaluated_state C st1, [EvMaxH; EvExtract]).
Proof.
  intros Hphase Halive Himprove Hbudget.
  destruct (stop_improvement_total C O st Hphase Himprove)
    as (functions & _ & Hstop).
  eexists. split; [exact Hstop |].
  unfold compute_heuristic, abstract_state_ids_of in *.
  rewrite Hphase, Halive, Himprove. simpl.
  assert (time_limit_reached || bool_decide (size_kb C st >= max_size_kb O)
          = true) as ->.
  { destruct Hbudget as [-> | Hsize]; [done |].
    rewrite (bool_decide_eq_true_2 _ Hsize). apply orb_true_r. }
  by rewrite Hstop.
Qed.

Lemma compute_heuristic_fresh_scp (C : Collaborators) (O : Options)
    (time_limit_reached : bool) (global_state : GlobalState) (st : Heuristic C) :
  scp_triggered C O time_limit_reached global_state st →
  let ids := abstract_state_ids_of C st global_state in
  let max_h := compute_max_h (cp_heuristics C st) ids in
  let scp := compute_fresh_scp C O ids max_h st in
  let is_diverse :=
    use_evaluated_state_as_sample O && bool_decide (scp_h C scp > max_h) in
  compute_heuristic C O time_limit_reached global_state st
  = Some (Z.max max_h (scp_h C scp),
          count_evaluated_state C (record_fresh_scp C scp is_diverse st),
          [EvMaxH] ++ scp_events C scp ++ (if is_diverse then [EvStore] else [])).
Proof.
  intros (Hphase & Halive & Himprove & Hbudget & Hcompute). simpl.
  unfold compute_heuristic, abstract_state_ids_of in *.
  rewrite Hphase, Halive, Himprove. simpl.
  assert (time_limit_reached || bool_decide (size_kb C st >= max_size_kb O)
          = false) as ->.
  { apply orb_false_iff. unfold budget_exhausted in Hbudget. split.
    - destruct time_limit_reached; [| done]. exfalso. apply Hbudget. by left.
    - apply bool_decide_eq_false_2. intros Hsize. apply Hbudget. by right. }
  simpl. rewrite Himprove, Hcompute. reflexivity.
Qed.

Lemma compute_heuristic_inv (C : Collaborators) (O : Options)
    (time_limit_reached : bool) (global_state : GlobalState)
    (st st' : Heuristic C) (r : Z) (evs : list Event) :
  compute_heuristic C O time_limit_reached global_state st = Some (r, st', evs) →
  (is_unsolvable (unsolvability_heuristic O)
     (abstract_state_ids_of C st global_state) = true
   ∧ r = DEAD_END ∧ st' = st ∧ evs = [])
  ∨ (is_unsolvable (unsolvability_heuristic O)
       (abstract_state_ids_of C st global_state) = false
     ∧ 0 ≤ r
     ∧ num_evaluated_states C st' = num_evaluated_states C st + 1).
Proof.
  unfold compute_heuristic, abstract_state_ids_of.
  destruct (phase_assertion C st); [| done]. simpl.
  destruct (is_unsolvable _ _) eqn:Hdead.
  { intros. simplify_eq. by left. }
  intros Hrun. right. split; [done |].
  pose proof (compute_max_h_nonneg (cp_heuristics C st)
                (if improve_heuristic C st
                 then get_abstract_state_ids C (abstractions C st)
                        (state_values global_state)
                 else get_abstract_state_ids_of_functions C
                        (abstraction_functions C st)
                        (state_values global_state))) as Hmax.
  destruct (improve_heuristic C st
            && (time_limit_reached || bool_decide (size_kb C st >= max_size_kb O))).
  - destruct (stop_improvement C O st) as [st1 |] eqn:Hstop; [| done].
    simpl in Hrun.
    assert (improve_heuristic C st1 = false
            ∧ num_evaluated_states C st1 = num_evaluated_states C st)
      as [Himprove Hcount].
    { unfold stop_improvement in Hstop.
      destruct (extract_useful_abstraction_functions _ _ _ _ _); [| done].
      simpl in Hstop. simplify_eq. by split. }
    rewrite Himprove in Hrun. simpl in Hrun. simplify_eq. simpl.
    split; [done | by rewrite Hcount].
  - simpl in Hrun.
    destruct (if improve_heuristic C st
              then should_compute_scp C O global_state st else Some false)
      as [[|] |]; simpl in Hrun; simplify_eq; simpl; split; lia || done.
Qed.

(** Claim C2.  For a state whose abstract-state vector the unsolvability
    oracle marks unsolvable, [compute_heuristic] returns [DEAD_END]; the call
    has no event, so neither evaluates the stored cost-partitioning
    heuristics nor computes an SCP, and leaves the heuristic as it is. *)
Theorem unsolvable_state_returns_dead_end_at_once
    (C : Collaborators) (O : Options) (time_limit_reached : bool)
    (global_state : GlobalState) (st : Heuristic C) :
  phase_assertion C st = true →
  is_unsolvable (unsolvability_heuristic O)
    (abstract_state_ids_of C st global_state) = true →
  compute_heuristic C O time_limit_reached global_state st
  = Some (DEAD_END, st, []).
Proof. apply compute_heuristic_dead_end. Qed.

Lemma unsolvable_state_returns_dead_end_at_once_witness :
  compute_heuristic toy_collaborators (toy_options ONE_SHOT 1 true) false
    (toy_state 7 [0; 1]) (toy_heuristic 1 [[{| abstraction_id := 0;
                                                h_values := [1; 0] |}]])
  = Some (DEAD_END,
          toy_heuristic 1 [[{| abstraction_id := 0; h_values := [1; 0] |}]], []).
Proof.
  apply (unsolvable_state_returns_dead_end_at_once toy_collaborators
           (toy_options ONE_SHOT 1 true) false (toy_state 7 [0; 1])).
  - reflexivity.
  - reflexivity.
Defined.

(** Claim C9.  A call of [compute_heuristic] that returns [DEAD_END] leaves
    [num_evaluated_states] as it is and computes and stores no SCP, so that
    [should_compute_scp] answers after the call as before it; every other
    call adds one to [num_evaluated_states]. *)
Theorem dead_end_is_not_an_evaluated_state
    (C : Collaborators) (O : Options) (time_limit_reached : bool)
    (global_state : GlobalState) (st st' : Heuristic C) (r : Z)
    (evs : list Event) :
  compute_heuristic C O time_limit_reached global_state st = Some (r, st', evs) →
  (r = DEAD_END →
   num_evaluated_states C st' = num_evaluated_states C st
   ∧ num_scps_computed C st' = num_scps_computed C st
   ∧ cp_heuristics C st' = cp_heuristics C st
   ∧ evs = []
   ∧ ∀ s, should_compute_scp C O s st' = should_compute_scp C O s st)
  ∧ (r ≠ DEAD_END →
     num_evaluated_states C st' = num_evaluated_states C st + 1).
Proof.
  intros [(_ & -> & -> & ->) | (_ & Hr & Hcount)]%compute_heuristic_inv.
  - split; [done |]. by intros [].
  - split; [| done]. unfold DEAD_END. lia.
Qed.

Lemma dead_end_is_not_an_evaluated_state_witness :
  let O := toy_options ONE_SHOT 2 true in
  let st := toy_heuristic 2 [] in
  (num_evaluated_states _ st = num_evaluated_states _ st
   ∧ num_scps_computed _ st = num_scps_computed _ st
   ∧ cp_heuristics _ st = cp_heuristics _ st
   ∧ [] = ([] : list Event)
   ∧ ∀ s, should_compute_scp toy_collaborators O s st
          = should_compute_scp toy_collaborators O s st).
Proof.
  intros O st.
  apply (dead_end_is_not_an_evaluated_state toy_collaborators O false
           (toy_state 7 [0; 1]) st st DEAD_END []).
  - reflexivity.
  - reflexivity.
Defined.

Lemma compute_fresh_scp_spec (C : Collaborators) (O : Options) (ids : list Z)
    (max_h : Z) (st : Heuristic C) :
  let order :=
    (compute_order_for_state C (order_generator C st) ids
       (bool_decide (num_evaluated_states C st = 0))).1 in
  let perim :=
    compute_perim_saturated_cost_partitioning_change_costs C (abstractions C st)
      order (costs O) ids in
  let scp := compute_fresh_scp C O ids max_h st in
  scp_h C scp = cph_compute_heuristic (scp_first C scp) ids
  ∧ (saturator O = PERIMSTAR →
     scp_first C scp = perim.1
     ∧ (scp_h C scp > max_h →
        scp_final C scp
        = cph_add perim.1
            (compute_saturated_cost_partitioning C (abstractions C st) order
               perim.2 ids)
        ∧ scp_events C scp = [EvOrder; EvPerimSaturation; EvFullSaturation])
     ∧ (scp_h C scp ≤ max_h →
        scp_final C scp = perim.1
        ∧ scp_events C scp = [EvOrder; EvPerimSaturation]))
  ∧ (saturator O ≠ PERIMSTAR →
     scp_first C scp = cp_function C (abstractions C st) order (costs O) ids
     ∧ scp_final C scp = scp_first C scp
     ∧ scp_events C scp = [EvOrder; EvCostPartitioning]).
Proof.
  simpl. unfold compute_fresh_scp.
  destruct (compute_order_for_state C (order_generator C st) ids
              (bool_decide (num_evaluated_states C st = 0))) as [order og].
  simpl. destruct (decide (saturator O = PERIMSTAR)) as [Hperim | Hone].
  - destruct (compute_perim_saturated_cost_partitioning_change_costs C
                (abstractions C st) order (costs O) ids) as [cp remaining].
    simpl. case_bool_decide as Hfull; simpl.
    + split; [done |]. split; [| done]. intros _. split; [done |].
      split; [done | lia].
    + split; [done |]. split; [| done]. intros _. split; [done |].
      split; [| done]. intros Hgt. destruct Hfull. by split.
  - rewrite bool_decide_eq_false_2 by (by intros [? _]). simpl.
    split; [done |]. split; [done |]. by intros _.
Qed.




(** Claim C4.  Under the [PERIMSTAR] saturator, a call that computes a fresh
    SCP adds exactly one to [num_scps_computed]; with [h] the value of the
    perimeter-phase heuristic at the evaluated state, the full saturation is
    computed and added to the cost partitioning when [h > max_h], and is
    not computed, the cost partitioning staying the perimeter-phase one,
    when [h <= max_h]. *)
Theorem perimstar_full_saturation_iff_improving
    (C : Collaborators) (O : Options) (time_limit_reached : bool)
    (global_state : GlobalState) (st : Heuristic C) :
  saturator O = PERIMSTAR →
  scp_triggered C O time_limit_reached global_state st →
  let ids := abstract_state_ids_of C st global_state in
  let max_h := compute_max_h (cp_heuristics C st) ids in
  let order :=
    (compute_order_for_state C (order_generator C st) ids
       (bool_decide (num_evaluated_states C st = 0))).1 in
  let perim :=
    compute_perim_saturated_cost_partitioning_change_costs C (abstractions C st)
      order (costs O) ids in
  let h := cph_compute_heuristic perim.1 ids in
  let scp := compute_fresh_scp C O ids max_h st in
  ∃ r st' evs,
    compute_heuristic C O time_limit_reached global_state st = Some (r, st', evs)
    ∧ num_scps_computed C st' = num_scps_computed C st + 1
    ∧ EvPerimSaturation ∈ evs
    ∧ (h > max_h →
       EvFullSaturation ∈ evs
       ∧ scp_final C scp
         = cph_add perim.1
             (compute_saturated_cost_partitioning C (abstractions C st) order
                perim.2 ids))
    ∧ (h ≤ max_h → (EvFullSaturation ∉ evs) ∧ scp_final C scp = perim.1).
Proof.
  intros Hperimstar Htriggered. simpl.
  rewrite (compute_heuristic_fresh_scp C O _ _ _ Htriggered).
  eexists _, _, _. split; [reflexivity |]. split; [reflexivity |].
  destruct (compute_fresh_scp_spec C O (abstract_state_ids_of C st global_state)
              (compute_max_h (cp_heuristics C st)
                 (abstract_state_ids_of C st global_state)) st)
    as (Hh & Hperim & _).
  destruct (Hperim Hperimstar) as (Hfirst & Hfull & Hskip).
  simpl in *. rewrite Hfirst in Hh. rewrite <- Hh.
  split; [| split].
  - destruct (decide (scp_h C (compute_fresh_scp C O
                                 (abstract_state_ids_of C st global_state)
                                 (compute_max_h (cp_heuristics C st)
                                    (abstract_state_ids_of C st global_state))
                                 st)
                      > compute_max_h (cp_heuristics C st)
                          (abstract_state_ids_of C st global_state)))
      as [Hgt | Hle].
    + destruct (Hfull Hgt) as [_ ->]. simpl. do 2 right. by left.
    + destruct (Hskip ltac:(lia)) as [_ ->]. simpl. do 2 right. by left.
  - intros Hgt. destruct (Hfull Hgt) as [Hfinal ->]. split; [| done].
    simpl. do 3 right. by left.
  - intros Hle. destruct (Hskip Hle) as [Hfinal ->]. split; [| done].
    destruct (use_evaluated_state_as_sample O && _); compute_done.
Qed.

Lemma perimstar_full_saturation_iff_improving_witness :
  let C := toy_collaborators in
  let O := toy_options PERIMSTAR 1 false in
  let stored := [[{| abstraction_id := 0; h_values := [1; 0] |}]] in
  let st := toy_heuristic 1 stored in
  let scp := compute_fresh_scp C O [0; 0] 1 st in
  ∃ r st' evs,
    compute_heuristic C O false (toy_state 0 [0; 0]) st = Some (r, st', evs)
    ∧ num_scps_computed C st' = 1
    ∧ EvPerimSaturation ∈ evs
    ∧ (1 > 1 →
       EvFullSaturation ∈ evs
       ∧ scp_final C scp
         = [{| abstraction_id := 0; h_values := [1; 0] |};
            {| abstraction_id := 1; h_values := [0; 0] |}])
    ∧ (1 ≤ 1 →
       (EvFullSaturation ∉ evs)
       ∧ scp_final C scp = [{| abstraction_id := 0; h_values := [1; 0] |}]).
Proof.
  intros C O stored st scp.
  apply (perimstar_full_saturation_iff_improving C O false (toy_state 0 [0; 0]) st).
  - reflexivity.
  - repeat split; try reflexivity.
    intros [Htime | Hsize]; [discriminate | by vm_compute in Hsize].
Defined.

(** ** The end of the improvement phase *)

Lemma foldl_mark_lookup {X} (step : list bool → X → list bool) (P : X → Prop)
    (key : X → nat) (l : list X) :
  (∀ x, P x ∨ ¬ P x) →
  (∀ u x, P x → step u x = <[key x := true]> u) →
  (∀ u x, ¬ P x → step u x = u) →
  ∀ (base : list bool) (i : nat),
  length (foldl step base l) = length base
  ∧ (foldl step base l !! i = Some true
     ↔ base !! i = Some true
       ∨ ((i < length base)%nat ∧ ∃ x, x ∈ l ∧ P x ∧ key x = i)).
Proof.
  intros Hdec Hmark Hskip. induction l as [| x l IH]; intros base i; simpl.
  - split; [done |]. split; [by left |].
    intros [? | (_ & x & Hx%elem_of_nil & _)]; done.
  - destruct (IH (step base x) i) as [Hlen Hlookup].
    assert (length (step base x) = length base) as Hlen_step.
    { destruct (Hdec x) as [HP | HP].
      - by rewrite (Hmark _ _ HP), length_insert.
      - by rewrite (Hskip _ _ HP). }
    split; [by rewrite Hlen |]. rewrite Hlookup, Hlen_step. split.
    + intros [Hstep | (Hi & y & Hy & HPy & Hkey)].
      * destruct (Hdec x) as [HP | HP].
        -- rewrite (Hmark _ _ HP) in Hstep.
           destruct (decide (key x = i)) as [Heq | Hne].
           ++ right. split.
              ** apply lookup_lt_Some in Hstep. by rewrite length_insert in Hstep.
              ** exists x. split; [by left | done].
           ++ left. by rewrite list_lookup_insert_ne in Hstep.
        -- left. by rewrite (Hskip _ _ HP) in Hstep.
      * right. split; [done |]. exists y. split; [by right | done].
    + intros [Hbase | (Hi & y & Hy & HPy & Hkey)].
      * left. destruct (Hdec x) as [HP | HP].
        -- rewrite (Hmark _ _ HP).
           destruct (decide (key x = i)) as [<- | Hne].
           ++ apply list_lookup_insert_eq. by eapply lookup_lt_Some.
           ++ by rewrite list_lookup_insert_ne.
        -- by rewrite (Hskip _ _ HP).
      * apply elem_of_cons in Hy as [-> | Hy].
        -- left. rewrite (Hmark _ _ HPy), Hkey.
           by apply list_lookup_insert_eq.
        -- right. split; [done |]. by exists y.
Qed.

Lemma cph_mark_lookup (cp : CostPartitioningHeuristic) (base : list bool) (i : nat) :
  length (cph_mark_useful_abstractions cp base) = length base
  ∧ (cph_mark_useful_abstractions cp base !! i = Some true
     ↔ base !! i = Some true
       ∨ ((i < length base)%nat ∧ ∃ t, t ∈ cp ∧ abstraction_id t = i)).
Proof.
  unfold cph_mark_useful_abstractions.
  destruct (foldl_mark_lookup (λ useful t, <[abstraction_id t := true]> useful)
              (λ _, True) abstraction_id cp) with (base := base) (i := i)
    as [Hlen Hlookup]; [by left | done | done |].
  split; [done |]. rewrite Hlookup. naive_solver.
Qed.

Lemma cph_marks_lookup (cps : list CostPartitioningHeuristic) :
  ∀ (base : list bool) (i : nat),
  length (foldl (λ useful cp, cph_mark_useful_abstractions cp useful) base cps)
  = length base
  ∧ (foldl (λ useful cp, cph_mark_useful_abstractions cp useful) base cps !! i
     = Some true
     ↔ base !! i = Some true
       ∨ ((i < length base)%nat
          ∧ ∃ cp t, cp ∈ cps ∧ t ∈ cp ∧ abstraction_id t = i)).
Proof.
  induction cps as [| cp cps IH]; intros base i; simpl.
  - split; [done |]. split; [by left |].
    intros [? | (_ & cp & t & Hcp%elem_of_nil & _)]; done.
  - destruct (IH (cph_mark_useful_abstractions cp base) i) as [Hlen Hlookup].
    destruct (cph_mark_lookup cp base i) as [Hlen1 Hlookup1].
    split; [by rewrite Hlen |]. rewrite Hlookup, Hlookup1, Hlen1.
    setoid_rewrite elem_of_cons. naive_solver.
Qed.

Lemma unsolvability_mark_lookup (u : UnsolvabilityHeuristic) (base : list bool)
    (i : nat) :
  length (unsolvability_mark_useful_abstractions u base) = length base
  ∧ (unsolvability_mark_useful_abstractions u base !! i = Some true
     ↔ base !! i = Some true
       ∨ ((i < length base)%nat
          ∧ ∃ bitmap, u !! i = Some bitmap ∧ true ∈ bitmap)).
Proof.
  unfold unsolvability_mark_useful_abstractions.
  destruct (foldl_mark_lookup
              (λ useful '(a, bitmap),
                 if existsb id bitmap then <[a := true]> useful else useful)
              (λ x : nat * list bool, existsb id x.2 = true) fst
              (imap (λ a bitmap, (a, bitmap)) u)) with (base := base) (i := i)
    as [Hlen Hlookup].
  - intros [a bitmap]. simpl. destruct (existsb id bitmap); auto.
  - intros useful [a bitmap] HP. simpl in *. by rewrite HP.
  - intros useful [a bitmap] HP. simpl in *. by destruct (existsb id bitmap).
  - split; [done |]. rewrite Hlookup. split.
    + intros [? | (Hi & [a bitmap] & Hin & HP & Hkey)]; [by left | right].
      split; [done |]. simpl in *. subst a. exists bitmap.
      apply elem_of_lookup_imap in Hin as (j & y & Heq & Hj). simplify_eq.
      split; [done |].
      apply existsb_exists in HP as (b & Hb & Hid). unfold id in Hid. subst b.
      by apply list_elem_of_In.
    + intros [? | (Hi & bitmap & Hu & Htrue)]; [by left | right].
      split; [done |]. exists (i, bitmap). split; [| split; [| done]].
      * by apply (elem_of_lookup_imap_2 (λ a bitmap, (a, bitmap))).
      * simpl. apply existsb_exists. exists true. split; [| done].
        by apply list_elem_of_In.
Qed.

Lemma collect_useful_abstractions_lookup
    (cps : list CostPartitioningHeuristic) (u : UnsolvabilityHeuristic)
    (n i : nat) :
  (i < n)%nat →
  default false (collect_useful_abstractions cps u n !! i) = true
  ↔ marked_useful cps u i.
Proof.
  intros Hi. unfold collect_useful_abstractions, marked_useful.
  destruct (cph_marks_lookup cps
              (unsolvability_mark_useful_abstractions u (replicate n false)) i)
    as [_ Hcps].
  destruct (unsolvability_mark_lookup u (replicate n false) i) as [Hlen Hu].
  rewrite length_replicate in *.
  assert (∀ o : option bool, default false o = true ↔ o = Some true) as Hdefault.
  { intros [[|] |]; simpl; naive_solver. }
  rewrite Hdefault, Hcps, Hu, Hlen, lookup_replicate. naive_solver.
Qed.

Lemma call_after_improvement (C : Collaborators) (O : Options) (c : Call)
    (st st' : Heuristic C) (evs : list Event) :
  improve_heuristic C st = false →
  call C O c st = Some (st', evs) →
  improve_heuristic C st' = false
  ∧ cp_heuristics C st' = cp_heuristics C st
  ∧ num_scps_computed C st' = num_scps_computed C st
  ∧ abstractions C st' = abstractions C st
  ∧ abstraction_functions C st' = abstraction_functions C st
  ∧ ∀ e, e ∈ evs → ¬ is_scp_event e.
Proof.
  intros Himprove Hcall.
  assert (∀ e : Event, e ∈ [] → ¬ is_scp_event e) as Hnone.
  { by intros e Hin%elem_of_nil. }
  destruct c as [s | op s | t s]; simpl in Hcall.
  - unfold notify_initial_state in Hcall.
    destruct (bool_decide (interval O >= 1)); simpl in Hcall;
      [by simplify_eq |].
    destruct (bool_decide (interval O = -1)).
    { destruct (seed_facts _ _ _ _); simpl in Hcall; [| done]. by simplify_eq. }
    destruct (bool_decide (interval O = -2)); [| done].
    destruct (seed_pairs _ _ _ _ _); simpl in Hcall; [| done]. by simplify_eq.
  - unfold notify_state_transition in Hcall. rewrite Himprove in Hcall.
    simpl in Hcall. by simplify_eq.
  - unfold compute_heuristic in Hcall.
    destruct (phase_assertion C st); [| done]. simpl in Hcall.
    destruct (is_unsolvable _ _); simpl in Hcall; [by simplify_eq |].
    rewrite Himprove in Hcall. simpl in Hcall. rewrite Himprove in Hcall.
    simpl in Hcall. simplify_eq. simpl. repeat split; try done.
    intros e ->%list_elem_of_singleton. unfold is_scp_event. naive_solver.
Qed.

Lemma calls_after_improvement (C : Collaborators) (O : Options) (cs : list Call) :
  ∀ (st st' : Heuristic C) (evs : list Event),
  improve_heuristic C st = false →
  calls C O cs st = Some (st', evs) →
  improve_heuristic C st' = false
  ∧ cp_heuristics C st' = cp_heuristics C st
  ∧ num_scps_computed C st' = num_scps_computed C st
  ∧ abstractions C st' = abstractions C st
  ∧ abstraction_functions C st' = abstraction_functions C st
  ∧ ∀ e, e ∈ evs → ¬ is_scp_event e.
Proof.
  induction cs as [| c cs IH]; intros st st' evs Himprove Hcalls;
    simpl in Hcalls.
  - simplify_eq. repeat split; try done. by intros e Hin%elem_of_nil.
  - destruct (call C O c st) as [[st1 evs1] |] eqn:Hcall; [| done].
    simpl in Hcalls.
    destruct (calls C O cs st1) as [[st2 evs2] |] eqn:Hrest; [| done].
    simpl in Hcalls. simplify_eq.
    destruct (call_after_improvement C O c st st1 evs1 Himprove Hcall)
      as (Himprove1 & Hcps1 & Hnum1 & Habs1 & Hfun1 & Hevs1).
    destruct (IH st1 st' evs2 Himprove1 Hrest)
      as (Himprove2 & Hcps2 & Hnum2 & Habs2 & Hfun2 & Hevs2).
    repeat split; try congruence.
    intros e [Hin | Hin]%elem_of_app; [by apply Hevs1 | by apply Hevs2].
Qed.

Lemma compute_heuristic_ends_improvement (C : Collaborators) (O : Options)
    (time_limit_reached : bool) (global_state : GlobalState)
    (st st' : Heuristic C) (r : Z) (evs : list Event) :
  compute_heuristic C O time_limit_reached global_state st = Some (r, st', evs) →
  improve_heuristic C st = true → improve_heuristic C st' = false →
  phase_assertion C st = true
  ∧ is_unsolvable (unsolvability_heuristic O)
      (abstract_state_ids_of C st global_state) = false
  ∧ budget_exhausted C O time_limit_reached st.
Proof.
  unfold compute_heuristic, abstract_state_ids_of, budget_exhausted.
  intros Hrun Himprove Hended.
  destruct (phase_assertion C st); [| done]. simpl in Hrun.
  destruct (is_unsolvable _ _); [simplify_eq; congruence |].
  split; [done |]. split; [done |].
  rewrite Himprove in Hrun. simpl in Hrun.
  destruct time_limit_reached; [by left |]. simpl in Hrun.
  case_bool_decide; [by right |]. simpl in Hrun.
  rewrite Himprove in Hrun.
  destruct (should_compute_scp C O global_state st) as [[|] |];
    simpl in Hrun; simplify_eq; simpl in Hended; congruence.
Qed.

(** Claim C5.  While the improvement phase is on, a call of
    [compute_heuristic] on a state that is not a dead end with the time or
    size budget used up ends the phase, and a call ends the phase only
    then.  The call that ends it extracts the abstraction function of
    exactly the abstractions marked useful by a stored heuristic or by the
    unsolvability oracle (the others get none), releases the abstractions
    and the novelty structures, and computes no SCP; and whatever calls
    follow, [improve_heuristic] stays false and no SCP is computed or
    stored. *)
Theorem improvement_phase_ends_for_good
    (C : Collaborators) (O : Options) (time_limit_reached : bool)
    (global_state : GlobalState) (st : Heuristic C) :
  improve_heuristic C st = true →
  (phase_assertion C st = true →
   is_unsolvable (unsolvability_heuristic O)
     (abstract_state_ids_of C st global_state) = false →
   budget_exhausted C O time_limit_reached st →
   ∃ r st' evs,
     compute_heuristic C O time_limit_reached global_state st
     = Some (r, st', evs)
     ∧ improve_heuristic C st' = false)
  ∧ ∀ r st' evs,
      compute_heuristic C O time_limit_reached global_state st
      = Some (r, st', evs) →
      improve_heuristic C st' = false →
      is_unsolvable (unsolvability_heuristic O)
        (abstract_state_ids_of C st global_state) = false
      ∧ budget_exhausted C O time_limit_reached st
      ∧ abstractions C st' = []
      ∧ novelty C st'
        = {| fact_id_offsets := []; seen_facts := []; seen_fact_pairs := [] |}
      ∧ length (abstraction_functions C st') = length (abstractions C st)
      ∧ (∀ i a, abstractions C st !! i = Some a →
           (marked_useful (cp_heuristics C st) (unsolvability_heuristic O) i →
            abstraction_functions C st' !! i
            = Some (Some (extract_abstraction_function C a)))
           ∧ (¬ marked_useful (cp_heuristics C st) (unsolvability_heuristic O) i →
              abstraction_functions C st' !! i = Some None))
      ∧ cp_heuristics C st' = cp_heuristics C st
      ∧ num_scps_computed C st' = num_scps_computed C st
      ∧ (∀ e, e ∈ evs → ¬ is_scp_event e)
      ∧ ∀ cs st'' evs',
          calls C O cs st' = Some (st'', evs') →
          improve_heuristic C st'' = false
          ∧ cp_heuristics C st'' = cp_heuristics C st'
          ∧ num_scps_computed C st'' = num_scps_computed C st'
          ∧ ∀ e, e ∈ evs' → ¬ is_scp_event e.
Proof.
  intros Himprove. split.
  - intros Hphase Halive Hbudget.
    destruct (compute_heuristic_stop C O _ _ _ Hphase Halive Himprove Hbudget)
      as (st1 & Hstop & Hrun).
    destruct (stop_improvement_total C O st Hphase Himprove)
      as (functions & _ & Hstop').
    rewrite Hstop' in Hstop. simplify_eq. by eexists _, _, _.
  - intros r st' evs Hrun Hended.
    destruct (compute_heuristic_ends_improvement C O _ _ _ _ _ _ Hrun Himprove
                Hended) as (Hphase & Halive & Hbudget).
    destruct (compute_heuristic_stop C O _ _ _ Hphase Halive Himprove Hbudget)
      as (st1 & Hstop & Hrun').
    destruct (stop_improvement_total C O st Hphase Himprove)
      as (functions & Hextract & Hstop').
    rewrite Hstop' in Hstop. rewrite Hrun' in Hrun. simplify_eq. simpl.
    unfold extract_useful_abstraction_functions in Hextract. simpl in Hextract.
    case_bool_decide as Hlen; [| done]. simplify_eq.
    split; [done |]. split; [done |]. split; [done |]. split; [done |].
    split; [done |].
    split; [| split; [done |]; split; [done |]; split].
    + intros i a Ha. rewrite list_lookup_imap, Ha. simpl.
      pose proof (collect_useful_abstractions_lookup (cp_heuristics C st)
                    (unsolvability_heuristic O) (length (abstractions C st)) i
                    (lookup_lt_Some _ _ _ Ha)) as Huseful.
      destruct (default false _) eqn:Hbit.
      * split; [done |]. intros Hnot. destruct Hnot. by apply Huseful.
      * split; [| done]. intros Hmarked. apply Huseful in Hmarked. done.
    + intros e Hin. unfold is_scp_event.
      apply elem_of_cons in Hin as [-> | Hin]; [naive_solver |].
      apply list_elem_of_singleton in Hin as ->. naive_solver.
    + intros cs st'' evs' Hcalls.
      apply calls_after_improvement in Hcalls as (? & ? & ? & _ & _ & ?);
        [done | reflexivity].
Qed.

Lemma improvement_phase_ends_for_good_witness :
  let C := toy_collaborators in
  let O := toy_options ONE_SHOT 1 true in
  ∃ r st' evs,
    compute_heuristic C O true (toy_state 0 [0; 0]) (toy_heuristic 1 [])
    = Some (r, st', evs)
    ∧ improve_heuristic C st' = false
    ∧ abstraction_functions C st' = [None; Some 1%nat]
    ∧ ∀ cs st'' evs',
        calls C O cs st' = Some (st'', evs') →
        improve_heuristic C st'' = false
        ∧ num_scps_computed C st'' = num_scps_computed C st'.
Proof.
  intros C O.
  destruct (improvement_phase_ends_for_good C O true (toy_state 0 [0; 0])
              (toy_heuristic 1 [])) as [Hends Honce]; [reflexivity |].
  destruct Hends as (r & st' & evs & Hrun & Hended);
    [reflexivity | reflexivity | by left |].
  destruct (Honce r st' evs Hrun Hended)
    as (_ & _ & _ & _ & _ & _ & _ & _ & _ & Hafter).
  exists r, st', evs. split; [exact Hrun |]. split; [exact Hended |]. split.
  - vm_compute in Hrun. by simplify_eq.
  - intros cs st'' evs' Hcalls.
    destruct (Hafter cs st'' evs' Hcalls) as (? & _ & ? & _). by split.
Defined.

(** A dead end met when the budget is used up does not end the improvement
    phase; the next state that is not a dead end does. *)
Example dead_end_does_not_end_improvement :
  compute_heuristic toy_collaborators (toy_options ONE_SHOT 1 true) true
    (toy_state 7 [0; 1]) (toy_heuristic 1 [])
  = Some (DEAD_END, toy_heuristic 1 [], [])
  ∧ improve_heuristic _ (toy_heuristic 1 []) = true.
Proof. split; reflexivity. Qed.

End cost_saturation_properties.

(** * Further properties of the pattern generator

    Scores, the operators per variable, the cache of the sequential
    generator, the selection loop and [generate]. *)

Section pdbs_further_properties.
Import Pdbs.

(** ** Minimum and maximum of a pattern *)

Lemma foldl_min_spec (l : list nat) :
  ∀ base : Z,
  let m := foldl (λ res var, Z.min res (Z.of_nat var)) base l in
  m ≤ base
  ∧ (∀ var, var ∈ l → m ≤ Z.of_nat var)
  ∧ (m = base ∨ ∃ var, var ∈ l ∧ m = Z.of_nat var).
Proof.
  induction l as [| x l IH]; intros base; simpl.
  - split; [lia |]. split; [by intros var Hin%elem_of_nil | by left].
  - destruct (IH (Z.min base (Z.of_nat x))) as (Hle & Hall & Hattained).
    split; [lia |]. split.
    + intros var [-> | Hin]%elem_of_cons; [lia | by apply Hall].
    + destruct Hattained as [Heq | (var & Hin & Heq)].
      * destruct (decide (base ≤ Z.of_nat x)).
        -- left. lia.
        -- right. exists x. split; [by left | lia].
      * right. exists var. split; [by right | done].
Qed.

Lemma foldl_max_spec (l : list nat) :
  ∀ base : Z,
  let m := foldl (λ res var, Z.max res (Z.of_nat var)) base l in
  base ≤ m
  ∧ (∀ var, var ∈ l → Z.of_nat var ≤ m)
  ∧ (m = base ∨ ∃ var, var ∈ l ∧ m = Z.of_nat var).
Proof.
  induction l as [| x l IH]; intros base; simpl.
  - split; [lia |]. split; [by intros var Hin%elem_of_nil | by left].
  - destruct (IH (Z.max base (Z.of_nat x))) as (Hle & Hall & Hattained).
    split; [lia |]. split.
    + intros var [-> | Hin]%elem_of_cons; [lia | by apply Hall].
    + destruct Hattained as [Heq | (var & Hin & Heq)].
      * destruct (decide (Z.of_nat x ≤ base)).
        -- left. lia.
        -- right. exists x. split; [by left | lia].
      * right. exists var. split; [by right | done].
Qed.

(** Property X1.  [get_min] and [get_max] bound the variables of a pattern
    from below and above.  For the empty pattern they return the start
    values, the largest [int] and -1; for a pattern with a variable,
    [get_max] is one of its variables, and so is [get_min] as long as the
    variable ids fit an [int]. *)
Theorem get_min_get_max_bound_the_pattern (pattern : Pattern) :
  (∀ var, var ∈ pattern →
     get_min pattern ≤ Z.of_nat var ≤ get_max pattern)
  ∧ (pattern = [] → get_min pattern = INT_MAX ∧ get_max pattern = -1)
  ∧ (pattern ≠ [] →
     (∃ var, var ∈ pattern ∧ get_max pattern = Z.of_nat var)
     ∧ (Forall (λ var, Z.of_nat var ≤ INT_MAX) pattern →
        ∃ var, var ∈ pattern ∧ get_min pattern = Z.of_nat var)).
Proof.
  unfold get_min, get_max.
  destruct (foldl_min_spec pattern INT_MAX) as (_ & Hmin & Hmin_attained).
  destruct (foldl_max_spec pattern (-1)) as (Hmax_base & Hmax & Hmax_attained).
  simpl in *. split; [| split].
  - intros var Hin. split; [by apply Hmin | by apply Hmax].
  - by intros ->.
  - intros Hne. split.
    + destruct Hmax_attained as [Heq | ?]; [| done].
      destruct pattern as [| x pattern]; [done |].
      specialize (Hmax x ltac:(by left)). lia.
    + intros Hfit. destruct Hmin_attained as [Heq | ?]; [| done].
      destruct pattern as [| x pattern]; [done |].
      exists x. split; [by left |].
      specialize (Hmin x ltac:(by left)).
      apply Forall_cons in Hfit as [Hx _]. lia.
Qed.

Lemma get_min_get_max_bound_the_pattern_witness :
  get_min [2; 0; 1]%nat ≤ Z.of_nat 0 ≤ get_max [2; 0; 1]%nat.
Proof.
  destruct (get_min_get_max_bound_the_pattern [2; 0; 1]%nat) as [Hbounds _].
  apply Hbounds. by apply (list_elem_of_lookup_2 _ 1%nat).
Defined.

(** ** Used variable pairs *)

Lemma mark_step_lookup (used : list (list bool)) (v1 v2 a b : nat) :
  let used' := alter (λ row, <[v2 := true]> row) v1 used in
  (is_Some (used' !! a ≫= (.!! b)) ↔ is_Some (used !! a ≫= (.!! b)))
  ∧ (var_pair_used used' a b = true
     ↔ var_pair_used used a b = true
       ∨ (a = v1 ∧ b = v2 ∧ is_Some (used !! a ≫= (.!! b)))).
Proof.
  simpl. unfold var_pair_used.
  destruct (decide (v1 = a)) as [-> | Hne].
  - rewrite list_lookup_alter_eq.
    destruct (used !! a) as [row |]; simpl;
      [| split; [done | split; [by left | by intros [? | (_ & _ & [? ?])]]]].
    destruct (decide (v2 = b)) as [-> | Hne].
    + destruct (decide (b < length row)%nat) as [Hlt | Hge].
      * rewrite list_lookup_insert_eq by done.
        destruct (lookup_lt_is_Some_2 row b Hlt) as [x Hx]. rewrite Hx.
        split; [done |]. simpl. split; [| done]. intros _. right. eauto.
      * rewrite list_insert_ge by lia. split; [done |].
        split; [by left |]. intros [? | (_ & _ & [x Hx])]; [done |].
        apply lookup_lt_Some in Hx. lia.
    + rewrite list_lookup_insert_ne by done. split; [done |].
      split; [by left |]. by intros [? | (_ & ? & _)].
  - rewrite list_lookup_alter_ne by done. split; [done |].
    split; [by left |]. by intros [? | (? & _)].
Qed.

Lemma mark_inner_lookup (v1 : nat) (vars2 : list nat) :
  ∀ (used : list (list bool)) (a b : nat),
  let used' :=
    foldl (λ used var2, alter (λ row, <[var2 := true]> row) v1 used)
      used vars2 in
  (is_Some (used' !! a ≫= (.!! b)) ↔ is_Some (used !! a ≫= (.!! b)))
  ∧ (var_pair_used used' a b = true
     ↔ var_pair_used used a b = true
       ∨ (a = v1 ∧ b ∈ vars2 ∧ is_Some (used !! a ≫= (.!! b)))).
Proof.
  induction vars2 as [| v2 vars2 IH]; intros used a b; simpl.
  - split; [done |]. split; [by left |].
    by intros [? | (_ & ?%elem_of_nil & _)].
  - destruct (IH (alter (λ row, <[v2 := true]> row) v1 used) a b)
      as [Hentry Hlookup].
    destruct (mark_step_lookup used v1 v2 a b) as [Hentry1 Hlookup1].
    simpl in *. split; [by rewrite Hentry |].
    rewrite Hlookup, Hlookup1, Hentry1, elem_of_cons. naive_solver.
Qed.

Lemma mark_used_var_pairs_lookup (vars1 vars2 : list nat) :
  ∀ (used : list (list bool)) (a b : nat),
  let used' :=
    foldl (λ used var1,
      foldl (λ used var2, alter (λ row, <[var2 := true]> row) var1 used)
        used vars2) used vars1 in
  (is_Some (used' !! a ≫= (.!! b)) ↔ is_Some (used !! a ≫= (.!! b)))
  ∧ (var_pair_used used' a b = true
     ↔ var_pair_used used a b = true
       ∨ (a ∈ vars1 ∧ b ∈ vars2 ∧ is_Some (used !! a ≫= (.!! b)))).
Proof.
  induction vars1 as [| v1 vars1 IH]; intros used a b; simpl.
  - split; [done |]. split; [by left |].
    by intros [? | (?%elem_of_nil & _)].
  - destruct (IH (foldl (λ used var2,
                           alter (λ row, <[var2 := true]> row) v1 used)
                    used vars2) a b) as [Hentry Hlookup].
    destruct (mark_inner_lookup v1 vars2 used a b) as [Hentry1 Hlookup1].
    simpl in *. split; [by rewrite Hentry |].
    rewrite Hlookup, Hlookup1, Hentry1, elem_of_cons. naive_solver.
Qed.

(** Property X2.  [used_var_pairs] after the double loop that marks a
    pattern: an entry of the matrix is set exactly if it was set before or
    both its variables are in the pattern; entries outside the matrix stay
    outside.  So earlier marks are kept and the marks of a pattern are
    symmetric. *)
Theorem mark_used_var_pairs_marks_the_pattern
    (pattern : Pattern) (used_var_pairs : list (list bool)) (a b : nat) :
  (is_Some (mark_used_var_pairs pattern used_var_pairs !! a ≫= (.!! b))
   ↔ is_Some (used_var_pairs !! a ≫= (.!! b)))
  ∧ (var_pair_used (mark_used_var_pairs pattern used_var_pairs) a b = true
     ↔ var_pair_used used_var_pairs a b = true
       ∨ (a ∈ pattern ∧ b ∈ pattern
          ∧ is_Some (used_var_pairs !! a ≫= (.!! b)))).
Proof. apply mark_used_var_pairs_lookup. Qed.

Lemma count_new_bounds (used : list (list bool)) (var1 : nat) (rest : list nat) :
  ∀ n : Z,
  n ≤ foldl (λ n var2, if var_pair_used used var1 var2 then n else n + 1) n rest
    ≤ n + Z.of_nat (length rest).
Proof.
  induction rest as [| var2 rest IH]; intros n; simpl; [lia |].
  destruct (var_pair_used used var1 var2).
  - specialize (IH n). lia.
  - specialize (IH (n + 1)). lia.
Qed.

Lemma count_new_all_used (used : list (list bool)) (var1 : nat) (rest : list nat) :
  (∀ var2, var2 ∈ rest → var_pair_used used var1 var2 = true) →
  ∀ n : Z,
  foldl (λ n var2, if var_pair_used used var1 var2 then n else n + 1) n rest = n.
Proof.
  induction rest as [| var2 rest IH]; intros Hused n; simpl; [done |].
  rewrite (Hused var2) by (by left). apply IH. intros v Hv. apply Hused. by right.
Qed.

Lemma get_num_new_var_pairs_bounds (pattern : Pattern) (used : list (list bool)) :
  0 ≤ get_num_new_var_pairs pattern used
  ∧ 2 * get_num_new_var_pairs pattern used
    ≤ Z.of_nat (length pattern) * (Z.of_nat (length pattern) - 1).
Proof.
  induction pattern as [| var1 rest [IH0 IH]]; simpl; [lia |].
  pose proof (count_new_bounds used var1 rest 0). lia.
Qed.

Lemma get_num_new_var_pairs_all_used (pattern : Pattern)
    (used : list (list bool)) :
  (∀ a b, a ∈ pattern → b ∈ pattern → var_pair_used used a b = true) →
  get_num_new_var_pairs pattern used = 0.
Proof.
  induction pattern as [| var1 rest IH]; intros Hused; simpl; [done |].
  rewrite count_new_all_used, IH; [done | |].
  - intros a b Ha Hb. apply Hused; by right.
  - intros var2 Hvar2. apply Hused; [by left | by right].
Qed.

(** Property X3.  [get_num_new_var_pairs] counts between 0 and
    [k (k - 1) / 2] pairs for a pattern of [k] variables, and counts none
    once the pattern was marked in a matrix that holds its variables. *)
Theorem get_num_new_var_pairs_range_and_reset
    (pattern : Pattern) (used_var_pairs : list (list bool)) (num_vars : nat) :
  (0 ≤ get_num_new_var_pairs pattern used_var_pairs
   ∧ 2 * get_num_new_var_pairs pattern used_var_pairs
     ≤ Z.of_nat (length pattern) * (Z.of_nat (length pattern) - 1))
  ∧ (pairs_in_range num_vars used_var_pairs pattern →
     get_num_new_var_pairs pattern
       (mark_used_var_pairs pattern used_var_pairs) = 0).
Proof.
  split; [apply get_num_new_var_pairs_bounds |].
  intros (Hrows & Hcols & Hvars).
  apply get_num_new_var_pairs_all_used. intros a b Ha Hb.
  apply mark_used_var_pairs_lookup. right. split; [done |]. split; [done |].
  rewrite Forall_forall in Hvars. rewrite Forall_forall in Hcols.
  destruct (lookup_lt_is_Some_2 used_var_pairs a) as [row Hrow];
    [rewrite Hrows; by apply Hvars |].
  rewrite Hrow. simpl. apply lookup_lt_is_Some_2.
  rewrite (Hcols row) by (by eapply list_elem_of_lookup_2). by apply Hvars.
Qed.

Lemma get_num_new_var_pairs_range_and_reset_witness :
  get_num_new_var_pairs [0; 2]%nat
    (replicate 3 (replicate 3 false)) = 1
  ∧ get_num_new_var_pairs [0; 2]%nat
      (mark_used_var_pairs [0; 2]%nat (replicate 3 (replicate 3 false))) = 0.
Proof.
  split; [reflexivity |].
  apply (get_num_new_var_pairs_range_and_reset [0; 2]%nat
           (replicate 3 (replicate 3 false)) 3).
  split; [reflexivity |]. split; repeat constructor.
Defined.

(** ** Operators per variable *)

Lemma relevant_inner_lookup (op : nat) (effect_vars : list nat) :
  ∀ (opv : list (list nat)) (v x : nat),
  let opv' :=
    foldl (λ opv v', alter (λ ops, ops ++ [op]) v' opv) opv effect_vars in
  length opv' = length opv
  ∧ (x ∈ default [] (opv' !! v)
     ↔ x ∈ default [] (opv !! v)
       ∨ (x = op ∧ v ∈ effect_vars ∧ (v < length opv)%nat)).
Proof.
  induction effect_vars as [| v' effect_vars IH]; intros opv v x; simpl.
  - split; [done |]. split; [by left |].
    by intros [? | (_ & ?%elem_of_nil & _)].
  - destruct (IH (alter (λ ops, ops ++ [op]) v' opv) v x) as [Hlen Hin].
    rewrite length_alter in Hlen. split; [done |].
    rewrite Hin, length_alter, elem_of_cons.
    destruct (decide (v' = v)) as [-> | Hne].
    + rewrite list_lookup_alter_eq.
      destruct (opv !! v) as [ops |] eqn:Hops; simpl.
      * apply lookup_lt_Some in Hops. rewrite elem_of_app, list_elem_of_singleton.
        naive_solver.
      * apply lookup_ge_None in Hops. naive_solver lia.
    + rewrite list_lookup_alter_ne by done. naive_solver.
Qed.

Lemma relevant_outer_lookup (l : list (nat * list nat)) :
  ∀ (opv : list (list nat)) (v x : nat),
  let opv' :=
    foldl (λ opv '(op_id, effect_vars),
      foldl (λ opv v', alter (λ ops, ops ++ [op_id]) v' opv) opv effect_vars)
      opv l in
  length opv' = length opv
  ∧ (x ∈ default [] (opv' !! v)
     ↔ x ∈ default [] (opv !! v)
       ∨ ((v < length opv)%nat
          ∧ ∃ effect_vars, (x, effect_vars) ∈ l ∧ v ∈ effect_vars)).
Proof.
  induction l as [| [op effect_vars] l IH]; intros opv v x; simpl.
  - split; [done |]. split; [by left |].
    by intros [? | (_ & ? & ?%elem_of_nil & _)].
  - destruct (relevant_inner_lookup op effect_vars opv v x) as [Hlen1 Hin1].
    simpl in *.
    destruct (IH (foldl (λ opv v', alter (λ ops, ops ++ [op]) v' opv)
                    opv effect_vars) v x) as [Hlen Hin].
    split; [by rewrite Hlen |]. rewrite Hin, Hin1, Hlen1.
    setoid_rewrite elem_of_cons. naive_solver.
Qed.

Lemma get_relevant_operators_per_variable_lookup
    (num_variables : nat) (operators : list (list nat)) (v op : nat) :
  length (get_relevant_operators_per_variable num_variables operators)
  = num_variables
  ∧ (op ∈ default []
            (get_relevant_operators_per_variable num_variables operators !! v)
     ↔ (v < num_variables)%nat
       ∧ ∃ effect_vars, operators !! op = Some effect_vars ∧ v ∈ effect_vars).
Proof.
  unfold get_relevant_operators_per_variable.
  destruct (relevant_outer_lookup
              (imap (λ op_id effect_vars, (op_id, effect_vars)) operators)
              (replicate num_variables []) v op) as [Hlen Hin].
  simpl in *. rewrite length_replicate in *. split; [done |].
  rewrite Hin. split.
  - intros [Hbase | (Hv & effect_vars & Hop & Hvar)].
    + destruct (replicate num_variables [] !! v) as [ops |] eqn:Hops;
        simpl in Hbase; [| by apply elem_of_nil in Hbase].
      apply lookup_replicate in Hops as [-> _]. by apply elem_of_nil in Hbase.
    + split; [done |]. exists effect_vars. split; [| done].
      apply elem_of_lookup_imap in Hop as (i & y & Heq & Hi). by simplify_eq.
  - intros (Hv & effect_vars & Hop & Hvar). right. split; [done |].
    exists effect_vars. split; [| done].
    by apply (elem_of_lookup_imap_2 (λ op_id effect_vars, (op_id, effect_vars))).
Qed.

(** Property X4.  [get_relevant_operators_per_variable] returns one list
    per variable, and an operator is in the list of a variable exactly if
    it has an effect on that variable. *)
Theorem relevant_operators_are_those_with_an_effect
    (num_variables : nat) (operators : list (list nat)) (v op : nat) :
  length (get_relevant_operators_per_variable num_variables operators)
  = num_variables
  ∧ (op ∈ default []
            (get_relevant_operators_per_variable num_variables operators !! v)
     ↔ (v < num_variables)%nat
       ∧ ∃ effect_vars, operators !! op = Some effect_vars ∧ v ∈ effect_vars).
Proof. apply get_relevant_operators_per_variable_lookup. Qed.

Lemma only_free_operators_affect_pdb_spec (pattern : Pattern) (costs : list Z)
    (relevant : list (list nat)) :
  only_free_operators_affect_pdb pattern costs relevant = true
  ↔ ∀ v op, v ∈ pattern → op ∈ default [] (relevant !! v) →
      ¬ (0 < default 0 (costs !! op) ∧ default 0 (costs !! op) ≠ INT_MAX).
Proof.
  unfold only_free_operators_affect_pdb. rewrite forallb_forall. split.
  - intros Hall v op Hv Hop. specialize (Hall v ltac:(by apply list_elem_of_In)).
    rewrite forallb_forall in Hall.
    specialize (Hall op ltac:(by apply list_elem_of_In)).
    apply negb_true_iff, andb_false_iff in Hall.
    rewrite negb_false_iff, bool_decide_eq_false, bool_decide_eq_true in Hall.
    tauto.
  - intros Hfree v Hv%list_elem_of_In. apply forallb_forall.
    intros op Hop%list_elem_of_In. specialize (Hfree v op Hv Hop).
    apply negb_true_iff, andb_false_iff.
    rewrite negb_false_iff, bool_decide_eq_false, bool_decide_eq_true.
    destruct (decide (0 < default 0 (costs !! op))); [| by left].
    right. destruct (decide (default 0 (costs !! op) = INT_MAX)); [done |].
    destruct Hfree. by split.
Qed.

(** Property X5.  On the operators per variable that [generate] computes,
    [only_free_operators_affect_pdb] holds exactly if every operator with
    an effect on a variable of the pattern has a cost that is zero (or
    less) or infinite; in particular it holds for the empty pattern. *)
Theorem only_free_operators_affect_pdb_iff_all_free
    (num_variables : nat) (operators : list (list nat)) (pattern : Pattern)
    (costs : list Z) :
  Forall (λ v, (v < num_variables)%nat) pattern →
  only_free_operators_affect_pdb pattern costs
    (get_relevant_operators_per_variable num_variables operators) = true
  ↔ ∀ v op effect_vars,
      v ∈ pattern → operators !! op = Some effect_vars → v ∈ effect_vars →
      default 0 (costs !! op) ≤ 0 ∨ default 0 (costs !! op) = INT_MAX.
Proof.
  intros Hvars. rewrite Forall_forall in Hvars.
  rewrite only_free_operators_affect_pdb_spec. split.
  - intros Hfree v op effect_vars Hv Hop Hvar.
    specialize (Hfree v op Hv).
    destruct (get_relevant_operators_per_variable_lookup num_variables
                operators v op) as [_ Hrel].
    assert (op ∈ default []
              (get_relevant_operators_per_variable num_variables operators !! v))
      as Hin by (apply Hrel; eauto).
    specialize (Hfree Hin). lia.
  - intros Hfree v op Hv Hin.
    destruct (get_relevant_operators_per_variable_lookup num_variables
                operators v op) as [_ Hrel].
    apply Hrel in Hin as (_ & effect_vars & Hop & Hvar).
    specialize (Hfree v op effect_vars Hv Hop Hvar). lia.
Qed.

Lemma only_free_operators_affect_pdb_iff_all_free_witness :
  only_free_operators_affect_pdb [0%nat] [0; 5]
    (get_relevant_operators_per_variable 2 [[0%nat]; [1%nat]]) = true
  ↔ ∀ v op effect_vars,
      v ∈ [0%nat] → [[0%nat]; [1%nat]] !! op = Some effect_vars →
      v ∈ effect_vars →
      default 0 ([0; 5] !! op) ≤ 0 ∨ default 0 ([0; 5] !! op) = INT_MAX.
Proof.
  apply (only_free_operators_affect_pdb_iff_all_free 2 [[0%nat]; [1%nat]]
           [0%nat] [0; 5]).
  repeat constructor.
Defined.

(** ** Pattern orders, all policies *)

Lemma compute_pattern_order_total
    (std_sort : Sorter) (R : RandomNumberGenerator)
    (patterns : list Pattern) (order : list nat) (order_type : PatternOrder)
    (task_info : TaskInfo) (domains : list Z) (used_var_pairs : list (list bool))
    (rng : rng_state R) :
  sort_contract std_sort → shuffle_contract R →
  proper_order order_type → length patterns = length order →
  ∃ order' rng',
    compute_pattern_order std_sort R patterns order order_type task_info domains
      used_var_pairs rng = Some (order', rng')
    ∧ order' ≡ₚ order
    ∧ (order_type = ORIGINAL → order' = order ∧ rng' = rng)
    ∧ (order_type = REVERSE → order' = reverse order ∧ rng' = rng).
Proof.
  intros Hsort Hshuffle Hproper Hlen.
  destruct (is_score_order order_type || is_composite_order order_type)
    eqn:Hkind.
  - destruct (compute_pattern_order_arranges std_sort R patterns order
                order_type task_info domains used_var_pairs rng Hsort Hshuffle
                Hkind Hlen) as (order' & rng' & Hrun & Hperm & _).
    exists order', rng'. split; [done |]. split; [done |].
    split; intros ->; done.
  - unfold compute_pattern_order. rewrite bool_decide_eq_true_2 by done. simpl.
    destruct (decide (order_type = ORIGINAL)) as [-> | Ho].
    { eexists _, _. split; [done |]. split; [done |]. split; by intros. }
    destruct (decide (order_type = REVERSE)) as [-> | Hr].
    { eexists _, _. split; [done |]. split; [apply reverse_Permutation |].
      split; by intros. }
    pose proof (Hshuffle rng order) as Hperm.
    destruct (rng_shuffle R rng order) as [shuffled rng']. simpl in Hperm.
    destruct (decide (order_type = RANDOM)) as [-> | Hn].
    { eexists _, _. split; [done |]. split; [done |]. split; by intros. }
    unfold proper_order in Hproper. by destruct order_type.
Qed.

(** Property X6.  For every policy other than [ALT_TWO] and a bucket as
    long as the order, [compute_pattern_order] returns a rearrangement of
    the incoming order; [ORIGINAL] returns it as it is and [REVERSE]
    reversed, both without touching the random number generator. *)
Theorem compute_pattern_order_rearranges
    (std_sort : Sorter) (R : RandomNumberGenerator)
    (patterns : list Pattern) (order : list nat) (order_type : PatternOrder)
    (task_info : TaskInfo) (domains : list Z) (used_var_pairs : list (list bool))
    (rng : rng_state R) :
  sort_contract std_sort → shuffle_contract R →
  proper_order order_type → length patterns = length order →
  ∃ order' rng',
    compute_pattern_order std_sort R patterns order order_type task_info domains
      used_var_pairs rng = Some (order', rng')
    ∧ order' ≡ₚ order
    ∧ (order_type = ORIGINAL → order' = order ∧ rng' = rng)
    ∧ (order_type = REVERSE → order' = reverse order ∧ rng' = rng).
Proof. apply compute_pattern_order_total. Qed.

Lemma compute_pattern_order_rearranges_witness :
  ∃ order' rng',
    compute_pattern_order stable_sort stream_rng [[0]; [1]; [2]]%nat
      [0; 1; 2]%nat REVERSE toy_task_info [2; 2; 2] []
      ([1] : rng_state stream_rng) = Some (order', rng')
    ∧ order' ≡ₚ [0; 1; 2]%nat
    ∧ (REVERSE = ORIGINAL → order' = [0; 1; 2]%nat ∧ rng' = [1])
    ∧ (REVERSE = REVERSE → order' = reverse [0; 1; 2]%nat ∧ rng' = [1]).
Proof.
  apply (compute_pattern_order_rearranges stable_sort stream_rng).
  - exact stable_sort_contract.
  - exact stream_rng_contract.
  - discriminate.
  - reflexivity.
Defined.

(** Property X7.  [compute_pattern_order] fails in two cases only: on the
    assertion, when bucket and order differ in length, and on
    [ABORT("wrong order_type")], when it is handed [ALT_TWO] with a bucket
    that is not empty. *)
Theorem compute_pattern_order_fails_iff
    (std_sort : Sorter) (R : RandomNumberGenerator)
    (patterns : list Pattern) (order : list nat) (order_type : PatternOrder)
    (task_info : TaskInfo) (domains : list Z) (used_var_pairs : list (list bool))
    (rng : rng_state R) :
  compute_pattern_order std_sort R patterns order order_type task_info domains
    used_var_pairs rng = None
  ↔ length patterns ≠ length order
    ∨ (order_type = ALT_TWO ∧ patterns ≠ []).
Proof.
  unfold compute_pattern_order.
  destruct (decide (length patterns = length order)) as [Hlen | Hlen].
  2: { rewrite bool_decide_eq_false_2 by done. simpl. split; [by left | done]. }
  rewrite bool_decide_eq_true_2 by done. simpl.
  destruct (decide (order_type = ORIGINAL)) as [-> | Ho];
    [split; [done | by intros [? | [? _]]] |].
  destruct (decide (order_type = REVERSE)) as [-> | Hr];
    [split; [done | by intros [? | [? _]]] |].
  destruct (rng_shuffle R rng order) as [shuffled rng'].
  destruct (decide (order_type = RANDOM)) as [-> | Hn];
    [split; [done | by intros [? | [? _]]] |].
  case_bool_decide as Hcomposite.
  - destruct (mapM_is_Some_2
                (composite_pair order_type task_info domains used_var_pairs)
                patterns) as [pairs ->].
    { apply Forall_forall. intros pattern _. apply composite_pair_total. }
    simpl. split; [done |]. intros [? | [-> _]]; [done |].
    by destruct Hcomposite.
  - destruct (decide (order_type = ALT_TWO)) as [-> | Halt].
    + destruct patterns as [| pattern patterns]; simpl.
      * split; [done | by intros [? | [_ ?]]].
      * split; [intros _; by right | done].
    + destruct (mapM_is_Some_2
                  (λ pattern, compute_score pattern order_type task_info domains
                                used_var_pairs) patterns) as [scores ->].
      { apply Forall_forall. intros pattern _. apply compute_score_total.
        destruct order_type; try done; by destruct Hcomposite; auto. }
      simpl. split; [done |]. by intros [? | [? _]].
Qed.

Lemma StronglySorted_lookup {A} (R : relation A) (l : list A) :
  StronglySorted R l →
  ∀ p q a b, (p < q)%nat → l !! p = Some a → l !! q = Some b → R a b.
Proof.
  induction 1 as [| x l _ IH Hall]; intros p q a b Hlt Hp Hq; [done |].
  destruct q as [| q]; [lia |]. simpl in Hq. destruct p as [| p]; simpl in Hp.
  - simplify_eq. rewrite Forall_forall in Hall. apply Hall.
    by eapply list_elem_of_lookup_2.
  - eapply (IH p q); [lia | done | done].
Qed.

Lemma get_pdb_size_positive (domain_sizes : list Z) (pattern : Pattern) :
  Forall (λ var, 1 ≤ domain_size domain_sizes var ≤ INT_MAX) pattern →
  get_pdb_size domain_sizes pattern = -1 ∨ 1 ≤ get_pdb_size domain_sizes pattern.
Proof.
  intros Hdom. unfold get_pdb_size.
  rewrite (get_pdb_size_from_spec _ _ Hdom 1) by (unfold INT_MAX; lia).
  pose proof (domain_product_pos _ _ Hdom). case_bool_decide; lia.
Qed.

(** Property X8.  Under [PDB_SIZE_UP] a pattern whose size does not fit an
    [int] has the score -1 and so precedes every pattern whose size fits
    (for domain sizes from 1 on). *)
Theorem overflowing_patterns_lead_the_pdb_size_up_order
    (std_sort : Sorter) (R : RandomNumberGenerator)
    (patterns : list Pattern) (order order' : list nat)
    (task_info : TaskInfo) (domains : list Z) (used_var_pairs : list (list bool))
    (rng rng' : rng_state R) (p q i j : nat) (large small : Pattern) :
  sort_contract std_sort → shuffle_contract R →
  compute_pattern_order std_sort R patterns order PDB_SIZE_UP task_info domains
    used_var_pairs rng = Some (order', rng') →
  order' !! p = Some i → order' !! q = Some j →
  patterns !! i = Some large → patterns !! j = Some small →
  get_pdb_size domains large = -1 →
  get_pdb_size domains small ≠ -1 →
  Forall (λ var, 1 ≤ domain_size domains var ≤ INT_MAX) small →
  (p < q)%nat.
Proof.
  intros Hsort Hshuffle Hrun Hp Hq Hi Hj Hlarge Hsmall Hdom.
  assert (length patterns = length order) as Hlen.
  { unfold compute_pattern_order in Hrun. by case_bool_decide. }
  destruct (compute_pattern_order_arranges std_sort R patterns order PDB_SIZE_UP
              task_info domains used_var_pairs rng Hsort Hshuffle eq_refl Hlen)
    as (order1 & rng1 & Hrun1 & _ & Harranged).
  rewrite Hrun in Hrun1. simplify_eq. unfold arranged_by in Harranged.
  simpl in Harranged.
  destruct (get_pdb_size_positive _ _ Hdom) as [? | Hpos]; [done |].
  destruct (decide (p < q)%nat) as [? | Hge]; [done |]. exfalso.
  destruct (decide (p = q)) as [-> | Hne].
  - by simplify_eq.
  - pose proof (StronglySorted_lookup _ _ Harranged q p j i ltac:(lia) Hq Hp)
      as Hle.
    unfold pattern_score in Hle. rewrite Hi, Hj in Hle. simpl in Hle. lia.
Qed.

Lemma overflowing_patterns_lead_the_pdb_size_up_order_witness :
  compute_pattern_order stable_sort stream_rng [[0]; [0; 1]]%nat [0; 1]%nat
    PDB_SIZE_UP toy_task_info [65536; 65536] []
    ([0; 0] : rng_state stream_rng) = Some ([1; 0]%nat, [])
  ∧ (0 < 1)%nat.
Proof.
  split; [reflexivity |].
  apply (overflowing_patterns_lead_the_pdb_size_up_order stable_sort stream_rng
           [[0]; [0; 1]]%nat [0; 1]%nat [1; 0]%nat toy_task_info
           [65536; 65536] [] ([0; 0] : rng_state stream_rng) [] 0 1 1 0
           [0; 1]%nat [0]%nat).
  - exact stable_sort_contract.
  - exact stream_rng_contract.
  - reflexivity.
  - reflexivity.
  - reflexivity.
  - reflexivity.
  - reflexivity.
  - reflexivity.
  - vm_compute. discriminate.
  - repeat constructor; vm_compute; discriminate.
Defined.

(** ** The cache of the sequential pattern generator *)

Lemma omap_lookup_total {A B} (f : A → option B) (l : list A) :
  Forall (λ x, is_Some (f x)) l →
  length (omap f l) = length l ∧ ∀ t, omap f l !! t = l !! t ≫= f.
Proof.
  induction 1 as [| x l [y Hy] _ [IHlen IH]]; csimpl; [done |].
  rewrite Hy. csimpl. split; [by rewrite IHlen |].
  intros [| t]; csimpl; [done | apply IH].
Qed.

Lemma order_lookups_total (ps : list Pattern)
    (order : list nat) :
  order ≡ₚ seq 0 (length ps) →
  Forall (λ i, is_Some (ps !! i)) order.
Proof.
  intros Hperm. apply Forall_forall. intros i Hi. rewrite Hperm in Hi.
  apply elem_of_seq in Hi. apply lookup_lt_is_Some_2. lia.
Qed.

Lemma omap_lookup_seq {A} (l : list A) :
  omap (λ i, l !! i) (seq 0 (length l)) = l.
Proof.
  assert (Forall (λ i, is_Some (l !! i)) (seq 0 (length l))) as Hall.
  { apply Forall_forall. intros i Hi%elem_of_seq. apply lookup_lt_is_Some_2. lia. }
  destruct (omap_lookup_total (λ i, l !! i) _ Hall) as [Hlen Hlookup].
  apply list_eq. intros t. rewrite Hlookup.
  destruct (decide (t < length l)%nat) as [Hlt | Hge].
  - by rewrite lookup_seq_lt.
  - rewrite lookup_seq_ge by lia. simpl. symmetry. apply lookup_ge_None. lia.
Qed.

Lemma ordered_bucket_Permutation (ps : list Pattern) (order : list nat) :
  order ≡ₚ seq 0 (length ps) → omap (λ i, ps !! i) order ≡ₚ ps.
Proof.
  intros Hperm. rewrite Hperm. by rewrite omap_lookup_seq.
Qed.

Lemma enumeration_Permutation (buckets : list (list Pattern))
    (os : list (list nat)) :
  Forall2 (λ bucket order, order ≡ₚ seq 0 (length bucket)) buckets os →
  concat (zip_with (λ bucket order, omap (λ i, bucket !! i) order) buckets os)
  ≡ₚ concat buckets.
Proof.
  induction 1 as [| bucket order buckets os Hperm _ IH]; simpl; [done |].
  by rewrite IH, ordered_bucket_Permutation.
Qed.

Lemma find_bucket_enumeration (buckets : list (list Pattern))
    (os : list (list nat)) :
  Forall2 (λ bucket order, order ≡ₚ seq 0 (length bucket)) buckets os →
  ∀ (b : nat) (start pattern_id : Z),
  start ≤ pattern_id →
  pattern_id - start < Z.of_nat (length (concat buckets)) →
  ∃ k i bucket pattern,
    find_bucket os b start (start - 1) pattern_id = Some ((b + k)%nat, i)
    ∧ buckets !! k = Some bucket
    ∧ bucket !! i = Some pattern
    ∧ concat (zip_with (λ bucket order, omap (λ i, bucket !! i) order)
                buckets os) !! Z.to_nat (pattern_id - start) = Some pattern.
Proof.
  induction 1 as [| bucket order buckets os Hperm Hrest IH];
    intros b start pattern_id Hstart Hlt; simpl in *; [lia |].
  pose proof (Permutation_length Hperm) as Hlen. rewrite length_seq in Hlen.
  pose proof (order_lookups_total bucket order Hperm) as Htotal.
  destruct (omap_lookup_total (λ i, bucket !! i) order Htotal)
    as [Hlen_omap Hlookup].
  destruct (decide (pattern_id - start < Z.of_nat (length order))) as [Hin | Hout].
  - rewrite bool_decide_eq_true_2 by lia.
    destruct (lookup_lt_is_Some_2 order (Z.to_nat (pattern_id - start)))
      as [i Hi]; [lia |].
    rewrite Forall_forall in Htotal.
    destruct (Htotal i) as [pattern Hpattern]; [by eapply list_elem_of_lookup_2 |].
    exists 0%nat, i, bucket, pattern.
    unfold vec_get. rewrite bool_decide_eq_true_2 by lia. rewrite Hi. simpl.
    rewrite Nat.add_0_r. split; [done |]. split; [done |]. split; [done |].
    rewrite lookup_app_l by lia. by rewrite Hlookup, Hi.
  - rewrite bool_decide_eq_false_2 by lia.
    rewrite length_app in Hlt.
    destruct (IH (S b) (start + Z.of_nat (length order)) pattern_id
                ltac:(lia) ltac:(lia)) as (k & i & bucket' & pattern & Hfind
                                           & Hbucket & Hpattern & Henum).
    exists (S k), i, bucket', pattern.
    replace (start + Z.of_nat (length order) - 1)
      with (start - 1 + Z.of_nat (length order)) in Hfind by lia.
    rewrite Hfind. replace (b + S k)%nat with (S b + k)%nat by lia.
    split; [done |]. split; [done |]. split; [done |].
    rewrite lookup_app_r by lia. rewrite <- Henum. f_equal. lia.
Qed.

Lemma get_pattern_cached (std_sort : Sorter) (R : RandomNumberGenerator)
    (get_patterns : nat → option (list Pattern))
    (g : SequentialPatternGenerator R) (pattern_id : Z)
    (used_var_pairs : list (list bool)) :
  generator_consistent g →
  0 ≤ pattern_id < num_generated_patterns R g →
  ∃ pattern,
    enumeration g !! Z.to_nat pattern_id = Some pattern
    ∧ get_pattern std_sort R get_patterns g pattern_id used_var_pairs
      = Some (pattern, g).
Proof.
  intros [Horders Hcount] Hid. unfold get_pattern, enumeration.
  destruct (find_bucket_enumeration _ _ Horders 0%nat 0 pattern_id)
    as (k & i & bucket & pattern & Hfind & Hbucket & Hpattern & Henum);
    [lia | lia |].
  exists pattern. rewrite Z.sub_0_r in Henum. split; [done |].
  change (0 - 1) with (-1) in Hfind. simpl in Hfind.
  assert (∀ n, get_pattern_rec std_sort R get_patterns n g pattern_id
                 used_var_pairs = Some (pattern, g)) as Hrec; [| apply Hrec].
  intros n. destruct n; simpl;
    rewrite bool_decide_eq_false_2 by lia;
    rewrite bool_decide_eq_true_2 by lia;
    rewrite Hfind; simpl; rewrite Hbucket; simpl; by rewrite Hpattern.
Qed.

(** Property X9.  On a consistent cache, [get_pattern] with an id below
    [num_generated_patterns] only reads: it leaves the generator as it is
    and yields the pattern at that position of the enumeration, which goes
    through the buckets in turn and through each bucket in its cached
    order; the enumeration holds every cached pattern exactly once. *)
Theorem get_pattern_reads_the_cache
    (std_sort : Sorter) (R : RandomNumberGenerator)
    (get_patterns : nat → option (list Pattern))
    (g : SequentialPatternGenerator R) (pattern_id : Z)
    (used_var_pairs : list (list bool)) :
  generator_consistent g →
  0 ≤ pattern_id < num_generated_patterns R g →
  enumeration g ≡ₚ concat (patterns R g)
  ∧ ∃ pattern,
      enumeration g !! Z.to_nat pattern_id = Some pattern
      ∧ get_pattern std_sort R get_patterns g pattern_id used_var_pairs
        = Some (pattern, g).
Proof.
  intros Hconsistent Hid. split.
  - apply enumeration_Permutation, Hconsistent.
  - by apply get_pattern_cached.
Qed.

Lemma get_pattern_reads_the_cache_witness :
  let g := toy_cached_generator CG_SUM_UP [] [1; 0]%nat in
  enumeration g ≡ₚ concat (patterns _ g)
  ∧ ∃ pattern,
      enumeration g !! Z.to_nat 0 = Some pattern
      ∧ get_pattern stable_sort stream_rng toy_get_patterns g 0 []
        = Some (pattern, g).
Proof.
  intros g.
  apply (get_pattern_reads_the_cache stable_sort stream_rng toy_get_patterns g 0 []).
  - split; [| reflexivity]. repeat constructor.
  - simpl. lia.
Defined.

Lemma get_order_type_proper (R : RandomNumberGenerator)
    (g : SequentialPatternGenerator R) :
  let '(current, g') := get_order_type R g in
  (order_type R g ≠ ALT_TWO → current = order_type R g ∧ g' = g)
  ∧ proper_order current
  ∧ task_info R g' = task_info R g ∧ domains R g' = domains R g
  ∧ patterns R g' = patterns R g ∧ orders R g' = orders R g
  ∧ max_pattern_size R g' = max_pattern_size R g
  ∧ order_type R g' = order_type R g
  ∧ default_order_type R g' = default_order_type R g
  ∧ cached_pattern_size R g' = cached_pattern_size R g
  ∧ num_generated_patterns R g' = num_generated_patterns R g.
Proof.
  unfold get_order_type, proper_order. case_decide as Halt.
  - destruct (rng_below R (rng R g) 2) as [coin r]. simpl.
    split; [done |]. split; [by case_bool_decide |]. done.
  - done.
Qed.

Lemma get_patterns_sizes (handled : list (Pattern * bool))
    (timer_is_expired : bool) (pattern_size : nat) (ps : list Pattern) :
  get_patterns handled timer_is_expired pattern_size = Some ps →
  timer_is_expired = false
  ∧ Forall (λ pattern, length pattern = pattern_size) ps
  ∧ ∀ pattern, pattern ∈ ps
      ↔ (pattern, true) ∈ handled ∧ length pattern = pattern_size.
Proof.
  unfold get_patterns. destruct timer_is_expired; [done |]. intros [= <-].
  split; [done |].
  assert (∀ pattern,
            pattern ∈ omap (λ '(pattern, handle),
                        if (handle : bool)
                           && bool_decide (length pattern = pattern_size)
                        then Some pattern else None) handled
            ↔ (pattern, true) ∈ handled ∧ length pattern = pattern_size)
    as Hin.
  { intros pattern. rewrite list_elem_of_omap. split.
    - intros ([q handle] & Hq & Hkeep).
      destruct handle; simpl in Hkeep; [| done].
      case_bool_decide; by simplify_eq.
    - intros [Hq Hlen]. exists (pattern, true). split; [done |].
      simpl. by rewrite bool_decide_eq_true_2. }
  split; [| done]. apply Forall_forall. intros pattern Hp.
  apply Hin in Hp. by destruct Hp.
Qed.

Lemma enumeration_snoc (buckets : list (list Pattern)) (os : list (list nat))
    (bucket : list Pattern) (order : list nat) :
  length buckets = length os →
  concat (zip_with (λ bucket order, omap (λ i, bucket !! i) order)
            (buckets ++ [bucket]) (os ++ [order]))
  = concat (zip_with (λ bucket order, omap (λ i, bucket !! i) order) buckets os)
    ++ omap (λ i, bucket !! i) order.
Proof.
  intros Hlen. rewrite zip_with_app by done. rewrite concat_app. simpl.
  by rewrite app_nil_r.
Qed.

Lemma get_pattern_rec_spec (std_sort : Sorter) (R : RandomNumberGenerator)
    (get_patterns : nat → option (list Pattern))
    (pattern_id : Z) (used_var_pairs : list (list bool)) :
  sort_contract std_sort → shuffle_contract R → 0 ≤ pattern_id →
  ∀ (n : nat) (g : SequentialPatternGenerator R),
  n = (max_pattern_size R g - cached_pattern_size R g)%nat →
  generator_consistent g → proper_order (default_order_type R g) →
  ∃ pattern g',
    get_pattern_rec std_sort R get_patterns n g pattern_id used_var_pairs
    = Some (pattern, g')
    ∧ generator_consistent g'
    ∧ default_order_type R g' = default_order_type R g
    ∧ order_type R g' = order_type R g
    ∧ max_pattern_size R g' = max_pattern_size R g
    ∧ (cached_pattern_size R g ≤ cached_pattern_size R g')%nat
    ∧ patterns R g `prefix_of` patterns R g'
    ∧ enumeration g `prefix_of` enumeration g'
    ∧ (pattern_id < num_generated_patterns R g' →
       enumeration g' !! Z.to_nat pattern_id = Some pattern)
    ∧ (num_generated_patterns R g' ≤ pattern_id →
       pattern = []
       ∧ ((max_pattern_size R g' ≤ cached_pattern_size R g')%nat
          ∨ get_patterns (cached_pattern_size R g' + 1)%nat = None))
    ∧ ((∀ k ps, get_patterns k = Some ps →
          Forall (λ pattern, length pattern = k) ps) →
       buckets_by_size g → buckets_by_size g').
Proof.
  intros Hsort Hshuffle Hid.
  induction n as [| n IH]; intros g Hn Hconsistent Hproper.
  - destruct (decide (pattern_id < num_generated_patterns R g)) as [Hlt | Hge].
    + destruct (get_pattern_cached std_sort R get_patterns g pattern_id
                  used_var_pairs Hconsistent ltac:(lia)) as (pattern & Henum & Hrun).
      unfold get_pattern in Hrun. rewrite <- Hn in Hrun.
      exists pattern, g. split; [done |].
      do 7 (split; [done || lia |]). split; [done |].
      split; [intros; lia | done].
    + exists [], g. simpl. rewrite bool_decide_eq_false_2 by lia.
      rewrite bool_decide_eq_false_2 by lia. split; [done |].
      do 7 (split; [done || lia |]). split; [intros; lia |].
      split; [| done]. intros _. split; [done |]. left. lia.
  - destruct (decide (pattern_id < num_generated_patterns R g)) as [Hlt | Hge].
    + destruct (get_pattern_cached std_sort R get_patterns g pattern_id
                  used_var_pairs Hconsistent ltac:(lia)) as (pattern & Henum & Hrun).
      unfold get_pattern in Hrun. rewrite <- Hn in Hrun.
      exists pattern, g. split; [done |].
      do 7 (split; [done || lia |]). split; [done |].
      split; [intros; lia | done].
    + simpl. rewrite bool_decide_eq_false_2 by lia.
      rewrite bool_decide_eq_false_2 by lia.
      destruct (get_patterns (cached_pattern_size R g + 1)%nat)
        as [current |] eqn:Hcurrent.
      2: { exists [], g. split; [done |].
           do 7 (split; [done || lia |]). split; [intros; lia |].
           split; [| done]. intros _. split; [done |]. by right. }
      destruct (compute_pattern_order_total std_sort R current
                  (seq 0 (length current)) (default_order_type R g)
                  (task_info R g) (domains R g) used_var_pairs (rng R g)
                  Hsort Hshuffle Hproper ltac:(by rewrite length_seq))
        as (order & r & Horder & Hperm & _).
      rewrite Horder. simpl.
      destruct Hconsistent as [Hforall Hcount].
      pose proof (Forall2_length _ _ _ Hforall) as Hlen.
      match goal with
      | |- context [get_pattern_rec _ _ _ n ?g1 _ _] =>
          destruct (IH g1) as (pattern & g' & Hrun & Hcons' & Hdefault & Hot
                               & Hmax & Hcached & Hprefix & Henum_prefix
                               & Hhit & Hmiss & Hsized)
      end.
      * simpl. lia.
      * split; simpl.
        -- apply Forall2_app; [done |]. by repeat constructor.
        -- rewrite concat_app, length_app. simpl. rewrite app_nil_r. lia.
      * done.
      * simpl in *. exists pattern, g'. split; [exact Hrun |].
        split; [done |]. split; [done |]. split; [done |]. split; [done |].
        split; [lia |].
        split; [etrans; [| exact Hprefix]; by apply prefix_app_r |].
        split.
        { etrans; [| exact Henum_prefix]. unfold enumeration. simpl.
          rewrite enumeration_snoc by done. by apply prefix_app_r. }
        split; [done |]. split; [done |].
        intros Hsource [Hbuckets Hsizes]. apply Hsized; [done |].
        split; simpl.
        -- rewrite length_app. simpl. lia.
        -- intros k bucket Hk.
           apply lookup_app_Some in Hk as [Hk | [Hge' Hk]]; [by apply Hsizes |].
           apply list_lookup_singleton_Some in Hk as [Hk0 <-].
           unfold Pattern in *.
           replace (S k) with (cached_pattern_size R g + 1)%nat by lia.
           by apply Hsource.
Qed.

(** Property X10.  On a consistent cache with a proper default policy,
    [get_pattern] answers every id from 0 on without failing and keeps the
    cache consistent.  It only adds buckets, so the patterns of the ids
    answered before stay the same; an id below the new
    [num_generated_patterns] yields the pattern at its position of the
    enumeration, and an id beyond it yields the empty pattern, which
    happens only when all sizes are cached or the systematic generator
    ran out of time. *)
Theorem get_pattern_extends_the_cache
    (std_sort : Sorter) (R : RandomNumberGenerator)
    (get_patterns : nat → option (list Pattern))
    (g : SequentialPatternGenerator R) (pattern_id : Z)
    (used_var_pairs : list (list bool)) :
  sort_contract std_sort → shuffle_contract R → 0 ≤ pattern_id →
  generator_consistent g → proper_order (default_order_type R g) →
  ∃ pattern g',
    get_pattern std_sort R get_patterns g pattern_id used_var_pairs
    = Some (pattern, g')
    ∧ generator_consistent g'
    ∧ default_order_type R g' = default_order_type R g
    ∧ patterns R g `prefix_of` patterns R g'
    ∧ enumeration g `prefix_of` enumeration g'
    ∧ (pattern_id < num_generated_patterns R g' →
       enumeration g' !! Z.to_nat pattern_id = Some pattern)
    ∧ (num_generated_patterns R g' ≤ pattern_id →
       pattern = []
       ∧ ((max_pattern_size R g' ≤ cached_pattern_size R g')%nat
          ∨ get_patterns (cached_pattern_size R g' + 1)%nat = None)).
Proof.
  intros Hsort Hshuffle Hid Hconsistent Hproper.
  destruct (get_pattern_rec_spec std_sort R get_patterns pattern_id
              used_var_pairs Hsort Hshuffle Hid _ g eq_refl Hconsistent Hproper)
    as (pattern & g' & Hrun & Hcons & Hdefault & _ & _ & _ & Hprefix & Henum
        & Hhit & Hmiss & _).
  by exists pattern, g'.
Qed.

Lemma get_pattern_extends_the_cache_witness :
  ∃ pattern g',
    get_pattern stable_sort stream_rng toy_get_patterns
      (toy_generator REVERSE []) 2 [] = Some (pattern, g')
    ∧ generator_consistent g'
    ∧ default_order_type _ g' = REVERSE
    ∧ [] `prefix_of` patterns _ g'
    ∧ enumeration (toy_generator REVERSE []) `prefix_of` enumeration g'
    ∧ (2 < num_generated_patterns _ g' →
       enumeration g' !! Z.to_nat 2 = Some pattern)
    ∧ (num_generated_patterns _ g' ≤ 2 →
       pattern = []
       ∧ ((max_pattern_size _ g' ≤ cached_pattern_size _ g')%nat
          ∨ toy_get_patterns (cached_pattern_size _ g' + 1)%nat = None)).
Proof.
  apply (get_pattern_extends_the_cache stable_sort stream_rng toy_get_patterns
           (toy_generator REVERSE []) 2 []).
  - exact stable_sort_contract.
  - exact stream_rng_contract.
  - lia.
  - split; [constructor | reflexivity].
  - discriminate.
Defined.

(** ** Restart, pattern sizes and the constructor *)

Lemma restart_orders_consistent (std_sort : Sorter) (R : RandomNumberGenerator)
    (current_order_type : PatternOrder) (task_info : TaskInfo)
    (domains : list Z) (used_var_pairs : list (list bool)) :
  sort_contract std_sort → shuffle_contract R →
  proper_order current_order_type →
  ∀ (ps : list (list Pattern)) (os : list (list nat)) (r : rng_state R),
  Forall2 (λ bucket order, order ≡ₚ seq 0 (length bucket)) ps os →
  ∃ os' r',
    restart_orders std_sort R current_order_type task_info domains
      used_var_pairs ps os r = Some (os', r')
    ∧ Forall2 (λ bucket order, order ≡ₚ seq 0 (length bucket)) ps os'.
Proof.
  intros Hsort Hshuffle Hproper ps os r Hforall. revert r.
  induction Hforall as [| bucket order ps os Hperm Hforall IH]; intros r.
  - exists [], r. by split.
  - simpl.
    destruct (compute_pattern_order_total std_sort R bucket order
                current_order_type task_info domains used_var_pairs r
                Hsort Hshuffle Hproper) as (order' & r' & -> & Hperm' & _).
    { apply Permutation_length in Hperm. by rewrite length_seq in Hperm. }
    simpl. destruct (IH r') as (os' & r'' & -> & Hforall').
    simpl. exists (order' :: os'), r''. split; [done |].
    constructor; [by etrans |done].
Qed.

Lemma restart_consistent (std_sort : Sorter) (R : RandomNumberGenerator)
    (g : SequentialPatternGenerator R) (used_var_pairs : list (list bool)) :
  sort_contract std_sort → shuffle_contract R → generator_consistent g →
  ∃ g',
    restart std_sort R g used_var_pairs = Some g'
    ∧ generator_consistent g'
    ∧ patterns R g' = patterns R g
    ∧ enumeration g' ≡ₚ enumeration g
    ∧ num_generated_patterns R g' = num_generated_patterns R g
    ∧ cached_pattern_size R g' = cached_pattern_size R g
    ∧ max_pattern_size R g' = max_pattern_size R g
    ∧ order_type R g' = order_type R g
    ∧ default_order_type R g' = default_order_type R g.
Proof.
  intros Hsort Hshuffle [Hforall Hcount]. unfold restart.
  case_bool_decide as Hdata.
  2: { exists g. by repeat split. }
  pose proof (get_order_type_proper R g) as Hget.
  destruct (get_order_type R g) as [current g1].
  destruct Hget as (_ & Hproper & Hti & Hdom & Hps & Hos & Hmax & Hot & Hdef
                    & Hcached & Hnum).
  destruct (restart_orders_consistent std_sort R current (task_info R g1)
              (domains R g1) used_var_pairs Hsort Hshuffle Hproper
              (patterns R g1) (orders R g1) (rng R g1))
    as (os' & r' & -> & Hforall').
  { by rewrite Hps, Hos. }
  simpl. eexists. split; [done |]. simpl.
  rewrite Hps in Hforall'.
  split; [split; simpl; [by rewrite Hps | by rewrite Hps, Hnum] |].
  split; [done |]. split; [| done].
  unfold enumeration. simpl. rewrite Hps.
  rewrite (enumeration_Permutation _ _ Hforall').
  by rewrite (enumeration_Permutation _ _ Hforall).
Qed.

(** Property X11.  On a consistent cache [restart] never fails, whatever the
    policy: it leaves the buckets, the counters and the policies as they
    are, and the recomputed orders are again rearrangements of the ids of
    their buckets, so that the ids keep denoting the same patterns, in
    another order. *)
Theorem restart_keeps_the_cache_consistent
    (std_sort : Sorter) (R : RandomNumberGenerator)
    (g : SequentialPatternGenerator R) (used_var_pairs : list (list bool)) :
  sort_contract std_sort → shuffle_contract R → generator_consistent g →
  ∃ g',
    restart std_sort R g used_var_pairs = Some g'
    ∧ generator_consistent g'
    ∧ patterns R g' = patterns R g
    ∧ enumeration g' ≡ₚ enumeration g
    ∧ num_generated_patterns R g' = num_generated_patterns R g
    ∧ cached_pattern_size R g' = cached_pattern_size R g
    ∧ max_pattern_size R g' = max_pattern_size R g
    ∧ order_type R g' = order_type R g
    ∧ default_order_type R g' = default_order_type R g.
Proof. apply restart_consistent. Qed.

Lemma restart_keeps_the_cache_consistent_witness :
  let g := toy_cached_generator RANDOM [1] [0; 1]%nat in
  ∃ g',
    restart stable_sort stream_rng g [] = Some g'
    ∧ generator_consistent g'
    ∧ patterns _ g' = patterns _ g
    ∧ enumeration g' ≡ₚ enumeration g
    ∧ num_generated_patterns _ g' = num_generated_patterns _ g
    ∧ cached_pattern_size _ g' = cached_pattern_size _ g
    ∧ max_pattern_size _ g' = max_pattern_size _ g
    ∧ order_type _ g' = order_type _ g
    ∧ default_order_type _ g' = default_order_type _ g.
Proof.
  apply (restart_keeps_the_cache_consistent stable_sort stream_rng
           (toy_cached_generator RANDOM [1] [0; 1]%nat) []).
  - exact stable_sort_contract.
  - exact stream_rng_contract.
  - split; [| reflexivity]. simpl. by repeat constructor.
Defined.

Lemma concat_sorted_by_level {A} (level : A → nat) (ls : list (list A)) :
  ∀ base : nat,
  (∀ k l, ls !! k = Some l → Forall (λ x, level x = (base + k)%nat) l) →
  StronglySorted (λ x y, (level x ≤ level y)%nat) (concat ls).
Proof.
  induction ls as [| l ls IH]; intros base Hlevels; simpl; [constructor |].
  assert (Forall (λ x, level x = base) l) as Hl.
  { eapply Forall_impl; [apply (Hlevels 0%nat l eq_refl) |].
    simpl. intros x Hx. lia. }
  assert (∀ k l', ls !! k = Some l' →
            Forall (λ x, level x = (S base + k)%nat) l') as Hrest.
  { intros k l' Hk. eapply Forall_impl; [apply (Hlevels (S k) l' Hk) |].
    simpl. intros x Hx. lia. }
  apply StronglySorted_app_2.
  - intros x y Hx Hy. apply list_elem_of_In, in_concat in Hy
      as (l' & Hl' & Hy).
    apply list_elem_of_In, list_elem_of_lookup in Hl' as [k Hk].
    apply list_elem_of_In in Hy.
    rewrite Forall_forall in Hl. rewrite (Hl x Hx).
    pose proof (Hrest k l' Hk) as Hk'. rewrite Forall_forall in Hk'.
    rewrite (Hk' y Hy). lia.
  - clear -Hl. induction Hl as [| x l Hx Hl IH]; constructor; [done |].
    eapply Forall_impl; [exact Hl |]. simpl. intros y Hy. lia.
  - by apply (IH (S base)).
Qed.

Lemma enumeration_by_size {R : RandomNumberGenerator}
    (g : SequentialPatternGenerator R) :
  generator_consistent g → buckets_by_size g →
  ∀ (i j : nat) (p q : Pattern), (i ≤ j)%nat →
    enumeration g !! i = Some p → enumeration g !! j = Some q →
    (length p ≤ length q)%nat.
Proof.
  intros [Hforall _] [_ Hsizes] i j p q Hij Hp Hq.
  destruct (decide (i = j)) as [-> | Hne]; [by simplify_eq |].
  refine (StronglySorted_lookup (λ x y : Pattern, (length x ≤ length y)%nat)
            _ _ i j p q ltac:(lia) Hp Hq).
  unfold enumeration. apply (concat_sorted_by_level _ _ 1%nat).
  intros k l Hk. apply lookup_zip_with_Some in Hk
    as (bucket & order & -> & Hbucket & Horder).
  apply Forall_forall. intros pattern Hin.
  apply list_elem_of_omap in Hin as (t & _ & Ht).
  pose proof (Hsizes k bucket Hbucket) as Hb. rewrite Forall_forall in Hb.
  apply Hb. by eapply list_elem_of_lookup_2.
Qed.

Lemma enumeration_lengths {R : RandomNumberGenerator}
    (g : SequentialPatternGenerator R) (i : nat) (p : Pattern) :
  buckets_by_size g → enumeration g !! i = Some p →
  (1 ≤ length p ≤ cached_pattern_size R g)%nat.
Proof.
  intros [Hlen Hsizes] Hp. apply list_elem_of_lookup_2 in Hp.
  unfold enumeration in Hp.
  apply list_elem_of_In, in_concat in Hp as (l & Hl & Hp).
  apply list_elem_of_In, list_elem_of_lookup in Hl as [k Hk].
  apply lookup_zip_with_Some in Hk as (bucket & order & -> & Hbucket & Horder).
  apply list_elem_of_In, list_elem_of_omap in Hp as (t & _ & Ht).
  pose proof (Hsizes k bucket Hbucket) as Hb. rewrite Forall_forall in Hb.
  rewrite (Hb p) by (by eapply list_elem_of_lookup_2).
  apply lookup_lt_Some in Hbucket. lia.
Qed.

Lemma get_pattern_rec_without_source (std_sort : Sorter)
    (R : RandomNumberGenerator) (get_patterns : nat → option (list Pattern))
    (n : nat) (g g' : SequentialPatternGenerator R) (pattern_id : Z)
    (used_var_pairs : list (list bool)) (pattern : Pattern) :
  (∀ k, get_patterns k = None) →
  get_pattern_rec std_sort R get_patterns n g pattern_id used_var_pairs
  = Some (pattern, g') →
  g' = g.
Proof.
  intros Hnone Hrun. destruct n; simpl in Hrun.
  all: repeat case_bool_decide; try done.
  all: try rewrite Hnone in Hrun; try by simplify_eq.
  all: destruct (find_bucket (orders R g) 0 0 (-1) pattern_id)
         as [[bucket_id internal_id] |]; simpl in Hrun; [| done].
  all: destruct (patterns R g !! bucket_id) as [bucket |]; simpl in Hrun;
         [| done].
  all: destruct (bucket !! internal_id); simpl in Hrun; by simplify_eq.
Qed.

(** Property X12.  Fed by [get_patterns], which hands out the handled
    patterns of exactly the size asked for, [get_pattern] keeps one bucket
    per size 1, 2, ...; hence ascending ids yield patterns of ascending
    size, and a pattern it returns for an id within the cache has between
    one variable and as many as there are cached sizes. *)
Theorem get_pattern_yields_patterns_by_ascending_size
    (std_sort : Sorter) (R : RandomNumberGenerator)
    (handled : list (Pattern * bool)) (timer_is_expired : bool)
    (g : SequentialPatternGenerator R) (pattern_id : Z)
    (used_var_pairs : list (list bool)) :
  sort_contract std_sort → shuffle_contract R → 0 ≤ pattern_id →
  generator_consistent g → proper_order (default_order_type R g) →
  buckets_by_size g →
  ∃ pattern g',
    get_pattern std_sort R (get_patterns handled timer_is_expired) g
      pattern_id used_var_pairs = Some (pattern, g')
    ∧ buckets_by_size g'
    ∧ (∀ (i j : nat) (p q : Pattern), (i ≤ j)%nat →
         enumeration g' !! i = Some p → enumeration g' !! j = Some q →
         (length p ≤ length q)%nat)
    ∧ (pattern_id < num_generated_patterns R g' →
       (1 ≤ length pattern ≤ cached_pattern_size R g')%nat)
    ∧ (timer_is_expired = true → g' = g).
Proof.
  intros Hsort Hshuffle Hid Hconsistent Hproper Hbuckets.
  destruct (get_pattern_rec_spec std_sort R
              (get_patterns handled timer_is_expired) pattern_id
              used_var_pairs Hsort Hshuffle Hid _ g eq_refl Hconsistent Hproper)
    as (pattern & g' & Hrun & Hcons & _ & _ & _ & _ & _ & _ & Hhit & _ & Hsized).
  assert (buckets_by_size g') as Hbuckets'.
  { apply Hsized; [| done]. intros k ps Hk.
    by apply get_patterns_sizes in Hk as (_ & Hk & _). }
  exists pattern, g'. split; [exact Hrun |]. split; [done |].
  split; [by apply enumeration_by_size |].
  split; [intros Hlt; eapply enumeration_lengths; eauto |].
  intros ->. by eapply get_pattern_rec_without_source.
Qed.

Lemma get_pattern_yields_patterns_by_ascending_size_witness :
  ∃ pattern g',
    get_pattern stable_sort stream_rng
      (get_patterns [([0%nat], true); ([0; 1]%nat, true); ([1%nat], true)] false)
      (toy_generator REVERSE []) 2 [] = Some (pattern, g')
    ∧ buckets_by_size g'
    ∧ (∀ (i j : nat) (p q : Pattern), (i ≤ j)%nat →
         enumeration g' !! i = Some p → enumeration g' !! j = Some q →
         (length p ≤ length q)%nat)
    ∧ (2 < num_generated_patterns _ g' →
       (1 ≤ length pattern ≤ cached_pattern_size _ g')%nat)
    ∧ (false = true → g' = toy_generator REVERSE []).
Proof.
  apply (get_pattern_yields_patterns_by_ascending_size stable_sort stream_rng
           [([0%nat], true); ([0; 1]%nat, true); ([1%nat], true)] false
           (toy_generator REVERSE []) 2 []).
  - exact stable_sort_contract.
  - exact stream_rng_contract.
  - lia.
  - split; [constructor | reflexivity].
  - unfold proper_order. simpl. discriminate.
  - split; [reflexivity |]. intros k bucket Hk. by destruct k.
Defined.

Lemma new_generator_spec {R : RandomNumberGenerator} (task_info : TaskInfo)
    (domains : list Z) (max_pattern_size_ : Z) (order : PatternOrder)
    (rng : rng_state R) :
  (new_generator task_info domains max_pattern_size_ order rng = None
   ↔ max_pattern_size_ < 0)
  ∧ ∀ g, new_generator task_info domains max_pattern_size_ order rng = Some g →
      generator_consistent g ∧ buckets_by_size g
      ∧ proper_order (default_order_type R g)
      ∧ enumeration g = []
      ∧ Z.of_nat (max_pattern_size R g)
        = Z.min max_pattern_size_ (Z.of_nat (length domains))
      ∧ order_type R g = order
      ∧ (order ≠ ALT_TWO →
         default_order_type R g = order ∧ Pdbs.rng R g = rng).
Proof.
  unfold new_generator. case_bool_decide as Hneg.
  { split; [done |]. intros g Hg. discriminate. }
  match goal with
  | |- context [get_order_type R ?g0] =>
      pose proof (get_order_type_proper R g0) as Hget;
      destruct (get_order_type R g0) as [current g1]
  end.
  simpl in Hget.
  destruct Hget as (Hsame & Hproper & _ & _ & _ & _ & Hmax & _).
  split; [split; [done | lia] |].
  intros g [= <-]. simpl.
  split; [split; [constructor | done] |].
  split; [split; [done | by intros [| k] bucket Hk] |].
  split; [done |]. split; [done |].
  split; [rewrite Hmax; lia |]. split; [done |].
  intros Hne. destruct (Hsame Hne) as [-> ->]. done.
Qed.

(** Property X13.  The constructor of [SequentialPatternGenerator] fails
    exactly on a negative maximum pattern size.  Otherwise the maximum is
    capped by the number of variables, the cache is empty and consistent,
    and the default policy is never [ALT_TWO]: the coin is flipped once,
    here, and only for that policy. *)
Theorem new_generator_starts_consistent {R : RandomNumberGenerator}
    (task_info : TaskInfo) (domains : list Z) (max_pattern_size_ : Z)
    (order : PatternOrder) (rng : rng_state R) :
  (new_generator task_info domains max_pattern_size_ order rng = None
   ↔ max_pattern_size_ < 0)
  ∧ ∀ g, new_generator task_info domains max_pattern_size_ order rng = Some g →
      generator_consistent g ∧ buckets_by_size g
      ∧ proper_order (default_order_type R g)
      ∧ enumeration g = []
      ∧ Z.of_nat (max_pattern_size R g)
        = Z.min max_pattern_size_ (Z.of_nat (length domains))
      ∧ order_type R g = order
      ∧ (order ≠ ALT_TWO →
         default_order_type R g = order ∧ Pdbs.rng R g = rng).
Proof. apply new_generator_spec. Qed.

Lemma new_generator_starts_consistent_witness :
  ∃ g : SequentialPatternGenerator stream_rng,
    new_generator (R := stream_rng) toy_task_info [65536; 65536] 5 ALT_TWO [0]
    = Some g
    ∧ proper_order (default_order_type _ g)
    ∧ max_pattern_size _ g = 2%nat.
Proof.
  destruct (new_generator (R := stream_rng) toy_task_info [65536; 65536] 5
              ALT_TWO [0]) as [g |] eqn:Hg; [| by vm_compute in Hg].
  exists g. split; [done |].
  destruct (new_generator_starts_consistent (R := stream_rng) toy_task_info
              [65536; 65536] 5 ALT_TWO [0]) as [_ Hspec].
  destruct (Hspec g Hg) as (_ & _ & Hproper & _ & Hmax & _).
  split; [done |]. simpl in Hmax. lia.
Defined.

(** ** The selection loop *)

Lemma select_round_spec (std_sort : Sorter) (R : RandomNumberGenerator)
    (get_patterns : nat → option (list Pattern)) (D : Driver)
    (timer_is_expired : bool) (s : SelectState R D) :
  sort_contract std_sort → shuffle_contract R → loop_ready s →
  ∃ pattern generator,
    get_pattern std_sort R get_patterns (pattern_generator R D s)
      (pattern_id R D s + 1) (used_var_pairs R D s) = Some (pattern, generator)
    ∧ (evaluator_agrees D →
       is_Some (select_round std_sort R get_patterns D timer_is_expired s))
    ∧ ∀ r,
        select_round std_sort R get_patterns D timer_is_expired s = Some r →
        pattern_generator R D (round_state R D r) = generator
        ∧ pattern_id R D (round_state R D r) = pattern_id R D s + 1
        ∧ loop_ready (round_state R D r)
        ∧ (saturate D = false →
           dead_ends R D (round_state R D r) = dead_ends R D s
           ∧ costs R D (round_state R D r) = costs R D s
           ∧ num_pattern_evaluations R D (round_state R D r)
             - num_pattern_evaluations R D s
             = Z.of_nat (length (projections R D (round_state R D r)))
               - Z.of_nat (length (projections R D s)))
        ∧ match r with
          | Return _ _ false s' =>
              collection_unchanged s s'
              ∧ (timer_is_expired = true ∨ pattern = [])
          | Return _ _ true s' =>
              collection_unchanged s s' ∧ timer_is_expired = false
              ∧ pattern_admissible pattern s ∧ limit_reached_by pattern s
          | Continue _ _ s' =>
              timer_is_expired = false ∧ pattern ≠ []
              ∧ (collection_unchanged s s'
                 ∨ (pattern_admissible pattern s
                    ∧ ¬ limit_reached_by pattern s
                    ∧ pattern_added pattern s s'))
          end.
Proof.
  intros Hsort Hshuffle (Hcons & Hproper & Hid).
  destruct (get_pattern_rec_spec std_sort R get_patterns
              (pattern_id R D s + 1) (used_var_pairs R D s) Hsort Hshuffle
              ltac:(lia) _ (pattern_generator R D s) eq_refl Hcons Hproper)
    as (pattern & generator & Hrun & Hcons' & Hdef & _).
  exists pattern, generator. split; [exact Hrun |].
  unfold select_round, get_pattern.
  rewrite Hrun. simpl.
  assert (proper_order (default_order_type R generator)) as Hproper'
    by by rewrite Hdef.
  assert (∀ s' : SelectState R D,
            pattern_generator R D s' = generator →
            pattern_id R D s' = pattern_id R D s + 1 → loop_ready s') as Hready.
  { intros s' Hg Hi. unfold loop_ready. rewrite Hg, Hi.
    split; [done |]. split; [done | lia]. }
  destruct timer_is_expired.
  { split; [by eexists |]. intros r [= <-]. simpl.
    split; [done |]. split; [done |]. split; [by apply Hready |].
    split; [intros _; repeat split; [done.. | lia] |].
    split; [done |]. by left. }
  case_bool_decide as Hempty.
  { split; [by eexists |]. intros r [= <-]. simpl.
    split; [done |]. split; [done |]. split; [by apply Hready |].
    split; [intros _; repeat split; [done.. | lia] |].
    split; [done |]. by right. }
  case_bool_decide as Hseen.
  { split; [by eexists |]. intros r [= <-]. simpl.
    split; [done |]. split; [done |]. split; [by apply Hready |].
    split; [intros _; repeat split; [done.. | lia] |].
    split; [done |]. split; [done |]. by left. }
  case_bool_decide as Hlarge.
  { split; [by eexists |]. intros r [= <-]. simpl.
    split; [done |]. split; [done |]. split; [by apply Hready |].
    split; [intros _; repeat split; [done.. | lia] |].
    split; [done |]. split; [done |]. by left. }
  assert (pattern_admissible pattern s) as Hadmissible.
  { unfold pattern_admissible. repeat split; [done.. | lia | lia]. }
  case_bool_decide as Hmany.
  { split; [by eexists |]. intros r [= <-]. simpl.
    split; [done |]. split; [done |]. split; [by apply Hready |].
    split; [intros _; repeat split; [done.. | lia] |].
    split; [done |]. split; [done |]. split; [done |]. by left. }
  case_bool_decide as Hfull.
  { split; [by eexists |]. intros r [= <-]. simpl.
    split; [done |]. split; [done |]. split; [by apply Hready |].
    split; [intros _; repeat split; [done.. | lia] |].
    split; [done |]. split; [done |]. split; [done |]. by right. }
  assert (¬ limit_reached_by pattern s) as Hroom.
  { unfold limit_reached_by. intros [? | ?]; [done | by apply Hfull]. }
  destruct (ignore_useless_patterns D
            && only_free_operators_affect_pdb pattern (costs R D s)
                 (relevant_operators_per_variable D)).
  { split; [by eexists |]. intros r [= <-]. simpl.
    split; [done |]. split; [done |]. split; [by apply Hready |].
    split; [intros _; repeat split; [done.. | lia] |].
    split; [done |]. split; [done |]. by left. }
  destruct (saturate D) eqn:Hsaturate.
  - destruct (is_useful D pattern (dead_ends R D s) (costs R D s))
      as [select_pattern dead] eqn:Huseful.
    simpl.
    destruct (is_useful_assertion D pattern (costs R D s) select_pattern)
      eqn:Hassertion; simpl.
    2: { split; [| done]. intros Hagrees.
         specialize (Hagrees Hsaturate pattern (dead_ends R D s) (costs R D s)).
         rewrite Huseful in Hagrees. simpl in Hagrees. congruence. }
    destruct select_pattern.
    + split; [by eexists |]. intros r [= <-]. simpl.
      split; [done |]. split; [done |]. split; [by apply Hready |].
      split; [done |].
      split; [done |]. split; [done |]. right.
      split; [done |]. split; [done |]. by repeat split.
    + split; [by eexists |]. intros r [= <-]. simpl.
      split; [done |]. split; [done |]. split; [by apply Hready |].
      split; [done |].
      split; [done |]. split; [done |]. by left.
  - simpl. split; [by eexists |]. intros r [= <-]. simpl.
    split; [done |]. split; [done |]. split; [by apply Hready |].
    split; [intros _; repeat split; [done.. | rewrite length_app; simpl; lia] |].
    split; [done |]. split; [done |]. right.
    split; [done |]. split; [done |]. by repeat split.
Qed.

(** The assertions are vacuous without [saturate] and under the dead-end
    treatments [NEW] and [NEW_FOR_CURRENT_ORDER]. *)
Lemma evaluator_agrees_without_assertion (D : Driver) :
  saturate D = false ∨ dead_end_treatment D = NEW
  ∨ dead_end_treatment D = NEW_FOR_CURRENT_ORDER →
  evaluator_agrees D.
Proof.
  intros [Hplain | [Hnew | Hnew]] Hsaturate pattern dead costs;
    [congruence | unfold is_useful_assertion; by rewrite Hnew ..].
Qed.

(** Property X14.  From a ready loop state, and with an evaluator whose
    verdicts pass the assertions that follow [is_useful], a round of the
    selection loop does not fail and asks the generator for the next id.
    It ends the loop with [false] only when the timer is expired or the
    generator is exhausted, and with [true] only for an admissible pattern
    that would exceed [max_patterns] or [max_collection_size]; in both
    cases, and whenever it skips a pattern, the collection stays as it is.
    Otherwise it puts exactly that pattern on top of the collection: a new
    one, of an admissible size, for which there is room. *)
Theorem select_round_adds_at_most_one_admissible_pattern
    (std_sort : Sorter) (R : RandomNumberGenerator)
    (get_patterns : nat → option (list Pattern)) (D : Driver)
    (timer_is_expired : bool) (s : SelectState R D) :
  sort_contract std_sort → shuffle_contract R → evaluator_agrees D →
  loop_ready s →
  ∃ pattern generator r,
    get_pattern std_sort R get_patterns (pattern_generator R D s)
      (pattern_id R D s + 1) (used_var_pairs R D s) = Some (pattern, generator)
    ∧ select_round std_sort R get_patterns D timer_is_expired s = Some r
    ∧ pattern_generator R D (round_state R D r) = generator
    ∧ pattern_id R D (round_state R D r) = pattern_id R D s + 1
    ∧ loop_ready (round_state R D r)
    ∧ match r with
      | Return _ _ false s' =>
          collection_unchanged s s' ∧ (timer_is_expired = true ∨ pattern = [])
      | Return _ _ true s' =>
          collection_unchanged s s' ∧ timer_is_expired = false
          ∧ pattern_admissible pattern s ∧ limit_reached_by pattern s
      | Continue _ _ s' =>
          timer_is_expired = false ∧ pattern ≠ []
          ∧ (collection_unchanged s s'
             ∨ (pattern_admissible pattern s ∧ ¬ limit_reached_by pattern s
                ∧ pattern_added pattern s s'))
      end.
Proof.
  intros Hsort Hshuffle Hagrees Hready.
  destruct (select_round_spec std_sort R get_patterns D timer_is_expired s
              Hsort Hshuffle Hready)
    as (pattern & generator & Hget & Htotal & Hround).
  destruct (Htotal Hagrees) as [r Hrun].
  destruct (Hround r Hrun) as (Hg & Hid & Hready' & _ & Hr).
  by exists pattern, generator, r.
Qed.

Lemma select_round_adds_at_most_one_admissible_pattern_witness :
  let s := generate_start stream_rng toy_saturating_driver
             toy_saturating_options (toy_generator ORIGINAL []) 2 in
  ∃ pattern generator r,
    get_pattern stable_sort stream_rng toy_get_patterns
      (pattern_generator _ _ s) (pattern_id _ _ s + 1) (used_var_pairs _ _ s)
    = Some (pattern, generator)
    ∧ select_round stable_sort stream_rng toy_get_patterns
        toy_saturating_driver false s = Some r
    ∧ pattern_generator _ _ (round_state _ _ r) = generator
    ∧ pattern_id _ _ (round_state _ _ r) = pattern_id _ _ s + 1
    ∧ loop_ready (round_state _ _ r)
    ∧ match r with
      | Return _ _ false s' =>
          collection_unchanged s s' ∧ (false = true ∨ pattern = [])
      | Return _ _ true s' =>
          collection_unchanged s s' ∧ false = false
          ∧ pattern_admissible pattern s ∧ limit_reached_by pattern s
      | Continue _ _ s' =>
          false = false ∧ pattern ≠ []
          ∧ (collection_unchanged s s'
             ∨ (pattern_admissible pattern s ∧ ¬ limit_reached_by pattern s
                ∧ pattern_added pattern s s'))
      end.
Proof.
  apply (select_round_adds_at_most_one_admissible_pattern stable_sort
           stream_rng toy_get_patterns toy_saturating_driver false
           (generate_start stream_rng toy_saturating_driver
              toy_saturating_options (toy_generator ORIGINAL []) 2)).
  - exact stable_sort_contract.
  - exact stream_rng_contract.
  - intros _ pattern dead costs. by apply bool_decide_eq_true_2.
  - split; [split; [constructor | reflexivity] |].
    split; [unfold proper_order; simpl; discriminate | simpl; lia].
Defined.

Lemma collection_extended_unchanged {R : RandomNumberGenerator} {D : Driver}
    (s s' : SelectState R D) :
  collection_unchanged s s' → collection_extended [] s s'.
Proof.
  intros (Hprojections & Hset & Hpairs & Hsize & _).
  unfold collection_extended. rewrite Hprojections, Hset, Hpairs, Hsize.
  simpl. rewrite app_nil_r. repeat split; try done; try lia.
  - by left.
  - intros [? | (pattern & Hin & _)]; [done |]. by apply elem_of_nil in Hin.
Qed.

Lemma collection_extended_added {R : RandomNumberGenerator} {D : Driver}
    (pattern : Pattern) (s s' : SelectState R D) :
  pattern_added pattern s s' → collection_extended [pattern] s s'.
Proof.
  intros (Hprojections & Hset & Hpairs & Hsize).
  unfold collection_extended. rewrite Hprojections, Hset, Hpairs, Hsize.
  split; [done |]. split; [done |].
  split; [unfold total_pdb_size; simpl; lia |].
  split.
  - intros a b. apply (mark_used_var_pairs_lookup pattern pattern).
  - intros a b.
    destruct (mark_used_var_pairs_lookup pattern pattern
                (used_var_pairs R D s) a b) as [_ Hmark].
    unfold mark_used_var_pairs. rewrite Hmark. unfold var_pair_in_range.
    split.
    + intros [? | (Ha & Hb & Hrange)]; [by left |].
      right. exists pattern. by rewrite list_elem_of_singleton.
    + intros [? | (pattern' & Hin & Ha & Hb & Hrange)]; [by left |].
      apply list_elem_of_singleton in Hin as ->. by right.
Qed.

Lemma total_pdb_size_app (D : Driver) (l1 l2 : list Pattern) :
  total_pdb_size D (l1 ++ l2) = total_pdb_size D l1 + total_pdb_size D l2.
Proof.
  induction l1 as [| pattern l1 IH]; [done |].
  change (total_pdb_size D ((pattern :: l1) ++ l2))
    with (get_pdb_size (variable_domains D) pattern
          + total_pdb_size D (l1 ++ l2)).
  change (total_pdb_size D (pattern :: l1))
    with (get_pdb_size (variable_domains D) pattern + total_pdb_size D l1).
  lia.
Qed.

Lemma collection_extended_trans {R : RandomNumberGenerator} {D : Driver}
    (added1 added2 : list Pattern) (s1 s2 s3 : SelectState R D) :
  collection_extended added1 s1 s2 → collection_extended added2 s2 s3 →
  collection_extended (added2 ++ added1) s1 s3.
Proof.
  intros (Hset1 & Hprojections1 & Hsize1 & Hrange1 & Hused1)
         (Hset2 & Hprojections2 & Hsize2 & Hrange2 & Hused2).
  unfold collection_extended.
  rewrite Hset2, Hset1, Hprojections2, Hprojections1, Hsize2, Hsize1.
  split; [by rewrite app_assoc |].
  split; [by rewrite reverse_app, fmap_app, app_assoc |].
  split; [rewrite total_pdb_size_app; lia |].
  split.
  { intros a b. by rewrite Hrange2, Hrange1. }
  intros a b. rewrite Hused2, Hused1. setoid_rewrite Hrange1. split.
  - intros [[? | (pattern & Hin & ?)] | (pattern & Hin & ?)]; [by left | ..];
      right; exists pattern; rewrite elem_of_app; naive_solver.
  - intros [? | (pattern & Hin & ?)]; [by left; left |].
    apply elem_of_app in Hin as [Hin | Hin]; [right | left; right];
      by exists pattern.
Qed.

Lemma collection_consistent_unchanged {R : RandomNumberGenerator} {D : Driver}
    (s s' : SelectState R D) :
  collection_unchanged s s' → collection_consistent s →
  collection_consistent s'.
Proof.
  intros (Hprojections & Hset & _ & Hsize & _). unfold collection_consistent.
  by rewrite Hprojections, Hset, Hsize.
Qed.

Lemma collection_consistent_added {R : RandomNumberGenerator} {D : Driver}
    (pattern : Pattern) (s s' : SelectState R D) :
  pattern_admissible pattern s → ¬ limit_reached_by pattern s →
  pattern_added pattern s s' → collection_consistent s →
  collection_consistent s'.
Proof.
  intros (_ & Hnew & Hsize1 & Hsize2) Hroom
         (Hprojections & Hset & _ & Hsize)
         (Hnodup & Hprojs & Hsizes & Hsum & Hcount & Hbound).
  unfold collection_consistent, limit_reached_by in *.
  rewrite Hprojections, Hset, Hsize.
  split; [by constructor |].
  split; [by rewrite reverse_cons, fmap_app, Hprojs |].
  split; [by constructor |].
  split; [simpl; lia |].
  split; [rewrite length_app; simpl; lia |].
  intros Hset_limit. specialize (Hbound Hset_limit). lia.
Qed.

Lemma admissible_limit_unchanged {R : RandomNumberGenerator} {D : Driver}
    (pattern : Pattern) (s s' : SelectState R D) :
  collection_unchanged s s' →
  pattern_admissible pattern s → limit_reached_by pattern s →
  pattern_admissible pattern s' ∧ limit_reached_by pattern s'.
Proof.
  intros (Hprojections & Hset & _ & Hsize & _).
  unfold pattern_admissible, limit_reached_by.
  by rewrite Hprojections, Hset, Hsize.
Qed.

Lemma select_rounds_spec (std_sort : Sorter) (R : RandomNumberGenerator)
    (D : Driver) (get_patterns : nat → option (list Pattern)) :
  sort_contract std_sort → shuffle_contract R →
  ∀ (timer_readings : list bool) (s : SelectState R D),
  loop_ready s →
  (true ∈ timer_readings → evaluator_agrees D →
   is_Some (select_rounds std_sort R D get_patterns timer_readings s))
  ∧ ∀ (b : bool) (s' : SelectState R D),
      select_rounds std_sort R D get_patterns timer_readings s = Some (b, s') →
      ∃ added,
        loop_ready s'
        ∧ collection_extended added s s'
        ∧ (collection_consistent s → collection_consistent s')
        ∧ (b = true →
           ∃ pattern, pattern_admissible pattern s'
                      ∧ limit_reached_by pattern s')
        ∧ (saturate D = false →
           dead_ends R D s' = dead_ends R D s
           ∧ costs R D s' = costs R D s
           ∧ num_pattern_evaluations R D s' - num_pattern_evaluations R D s
             = Z.of_nat (length added)).
Proof.
  intros Hsort Hshuffle timer_readings.
  induction timer_readings as [| timer_is_expired rest IH]; intros s Hready.
  { split; [by intros ?%elem_of_nil | done]. }
  destruct (select_round_spec std_sort R get_patterns D timer_is_expired s
              Hsort Hshuffle Hready)
    as (pattern & generator & _ & Htotal & Hround).
  simpl.
  destruct (select_round std_sort R get_patterns D timer_is_expired s)
    as [r |] eqn:Hrun; simpl.
  2: { split; [| done]. intros _ Hagrees.
       by destruct (Htotal Hagrees) as [? ?]. }
  destruct (Hround r eq_refl) as (_ & _ & Hready' & Hplain & Hr).
  destruct r as [s1 | [] s1]; simpl in *.
  - destruct Hr as (-> & Hnonempty & Hcases).
    destruct (IH s1 Hready') as [Htimer Hrest].
    split.
    { intros Hin Hagrees. apply Htimer; [| done].
      by apply elem_of_cons in Hin as [? | ?]. }
    intros b s' Hloop.
    destruct (Hrest b s' Hloop)
      as (added & Hready'' & Hextended & Hconsistent & Hlimit & Hplain').
    destruct Hcases as [Hunchanged | (Hadmissible & Hroom & Hadded)].
    + exists added. split; [done |].
      split.
      { replace added with (added ++ []) by apply app_nil_r.
        eapply collection_extended_trans; [| done].
        by apply collection_extended_unchanged. }
      split.
      { intros ?. by eapply Hconsistent, collection_consistent_unchanged. }
      split; [done |].
      intros Hsaturate.
      destruct (Hplain Hsaturate) as (Hdead & Hcosts & Hevaluations).
      destruct (Hplain' Hsaturate) as (Hdead' & Hcosts' & Hevaluations').
      destruct Hunchanged as (Hprojections & _).
      rewrite Hprojections in Hevaluations.
      split; [congruence |]. split; [congruence | lia].
    + exists (added ++ [pattern]). split; [done |].
      split.
      { eapply collection_extended_trans; [| done].
        by apply collection_extended_added. }
      split.
      { intros ?. by eapply Hconsistent, collection_consistent_added. }
      split; [done |].
      intros Hsaturate.
      destruct (Hplain Hsaturate) as (Hdead & Hcosts & Hevaluations).
      destruct (Hplain' Hsaturate) as (Hdead' & Hcosts' & Hevaluations').
      destruct Hadded as (Hprojections & _).
      rewrite Hprojections, length_app in Hevaluations. simpl in Hevaluations.
      rewrite length_app. simpl.
      split; [congruence |]. split; [congruence | lia].
  - split; [done |]. intros b s' [= <- <-].
    destruct Hr as (Hunchanged & _ & Hadmissible & Hlimit).
    exists []. split; [done |].
    split; [by apply collection_extended_unchanged |].
    split; [by apply collection_consistent_unchanged |].
    split.
    { intros _. exists pattern. by eapply admissible_limit_unchanged. }
    intros Hsaturate.
    destruct (Hplain Hsaturate) as (Hdead & Hcosts & Hevaluations).
    destruct Hunchanged as (Hprojections & _).
    rewrite Hprojections in Hevaluations. simpl. by repeat split; [.. | lia].
  - split; [done |]. intros b s' [= <- <-].
    destruct Hr as (Hunchanged & _).
    exists []. split; [done |].
    split; [by apply collection_extended_unchanged |].
    split; [by apply collection_consistent_unchanged |].
    split; [done |].
    intros Hsaturate.
    destruct (Hplain Hsaturate) as (Hdead & Hcosts & Hevaluations).
    destruct Hunchanged as (Hprojections & _).
    rewrite Hprojections in Hevaluations. simpl. by repeat split; [.. | lia].
Qed.

Lemma select_systematic_patterns_spec (std_sort : Sorter)
    (R : RandomNumberGenerator) (D : Driver) (G : GenerateOptions D)
    (pass : Pass) (s : SelectState R D) :
  sort_contract std_sort → shuffle_contract R →
  generator_consistent (pattern_generator R D s) →
  proper_order (default_order_type R (pattern_generator R D s)) →
  (true ∈ pass_timer_readings pass → evaluator_agrees D →
   is_Some (select_systematic_patterns std_sort R D G pass s))
  ∧ ∀ (b : bool) (s' : SelectState R D),
      select_systematic_patterns std_sort R D G pass s = Some (b, s') →
      ∃ added,
        loop_ready s'
        ∧ collection_extended added s s'
        ∧ (collection_consistent s → collection_consistent s')
        ∧ (b = true →
           ∃ pattern, pattern_admissible pattern s'
                      ∧ limit_reached_by pattern s')
        ∧ (saturate D = false →
           dead_ends R D s' = dead_ends R D s
           ∧ costs R D s' = operator_costs D G
           ∧ num_pattern_evaluations R D s' - num_pattern_evaluations R D s
             = Z.of_nat (length added)).
Proof.
  intros Hsort Hshuffle Hconsistent Hproper. unfold select_systematic_patterns.
  match goal with
  | |- context [select_rounds _ _ _ _ _ ?s0] =>
      destruct (select_rounds_spec std_sort R D (pass_get_patterns pass)
                  Hsort Hshuffle (pass_timer_readings pass) s0)
        as [Htimer Hloop]
  end.
  { split; [done |]. split; [done |]. simpl. lia. }
  split; [done |]. intros b s' Hrun.
  destruct (Hloop b s' Hrun)
    as (added & Hready & Hextended & Hkeeps & Hlimit & Hplain).
  by exists added.
Qed.

(** Property X15.  A call of [select_systematic_patterns] on a consistent
    generator puts zero or more patterns on top of the collection and takes
    nothing away: the projections of the new patterns follow the old ones
    in the order of selection, [collection_size] grows by their sizes, and
    [used_var_pairs] marks, besides the pairs marked before, exactly the
    pairs of variables that occur together in a new pattern.  A collection
    without duplicates and within [max_pdb_size], [max_patterns] and
    [max_collection_size] stays so. *)
Theorem select_systematic_patterns_extends_the_collection
    (std_sort : Sorter) (R : RandomNumberGenerator) (D : Driver)
    (G : GenerateOptions D) (pass : Pass) (s s' : SelectState R D) (b : bool) :
  sort_contract std_sort → shuffle_contract R →
  generator_consistent (pattern_generator R D s) →
  proper_order (default_order_type R (pattern_generator R D s)) →
  select_systematic_patterns std_sort R D G pass s = Some (b, s') →
  (∃ added, collection_extended added s s')
  ∧ (collection_consistent s → collection_consistent s')
  ∧ generator_consistent (pattern_generator R D s').
Proof.
  intros Hsort Hshuffle Hconsistent Hproper Hrun.
  destruct (select_systematic_patterns_spec std_sort R D G pass s
              Hsort Hshuffle Hconsistent Hproper) as [_ Hloop].
  destruct (Hloop b s' Hrun) as (added & [? _] & ? & ? & _).
  split; [by exists added | done].
Qed.

(** Property X16.  On a consistent generator, and with an evaluator whose
    verdicts pass the assertions that follow [is_useful], the selection loop
    does not fail, and it ends at the latest in the round in which the
    restart timer is found expired.  When it returns [true] there is a
    pattern that is not selected and of an admissible size, for which the
    collection has no room: [max_patterns] patterns are selected, or the
    pattern would exceed [max_collection_size]. *)
Theorem select_systematic_patterns_ends_and_reports_limits
    (std_sort : Sorter) (R : RandomNumberGenerator) (D : Driver)
    (G : GenerateOptions D) (pass : Pass) (s : SelectState R D) :
  sort_contract std_sort → shuffle_contract R → evaluator_agrees D →
  generator_consistent (pattern_generator R D s) →
  proper_order (default_order_type R (pattern_generator R D s)) →
  (true ∈ pass_timer_readings pass →
   is_Some (select_systematic_patterns std_sort R D G pass s))
  ∧ ∀ s', select_systematic_patterns std_sort R D G pass s = Some (true, s') →
      ∃ pattern, pattern_admissible pattern s' ∧ limit_reached_by pattern s'.
Proof.
  intros Hsort Hshuffle Hagrees Hconsistent Hproper.
  destruct (select_systematic_patterns_spec std_sort R D G pass s
              Hsort Hshuffle Hconsistent Hproper) as [Htimer Hloop].
  split; [by intros ?; apply Htimer |]. intros s' Hrun.
  destruct (Hloop true s' Hrun) as (added & _ & _ & _ & Hlimit & _).
  by apply Hlimit.
Qed.

(** Property X17.  Without [saturate] the loop never calls the evaluator:
    it ends with the operator costs of the task it started with and with
    the dead ends untouched, and every pattern it counts as evaluated is
    selected. *)
Theorem select_systematic_patterns_without_saturation
    (std_sort : Sorter) (R : RandomNumberGenerator) (D : Driver)
    (G : GenerateOptions D) (pass : Pass) (s s' : SelectState R D) (b : bool) :
  sort_contract std_sort → shuffle_contract R →
  generator_consistent (pattern_generator R D s) →
  proper_order (default_order_type R (pattern_generator R D s)) →
  saturate D = false →
  select_systematic_patterns std_sort R D G pass s = Some (b, s') →
  dead_ends R D s' = dead_ends R D s
  ∧ costs R D s' = operator_costs D G
  ∧ num_pattern_evaluations R D s' - num_pattern_evaluations R D s
    = Z.of_nat (length (projections R D s'))
      - Z.of_nat (length (projections R D s)).
Proof.
  intros Hsort Hshuffle Hconsistent Hproper Hsaturate Hrun.
  destruct (select_systematic_patterns_spec std_sort R D G pass s
              Hsort Hshuffle Hconsistent Hproper) as [_ Hloop].
  destruct (Hloop b s' Hrun)
    as (added & _ & (_ & Hprojections & _) & _ & _ & Hplain).
  destruct (Hplain Hsaturate) as (? & ? & Hevaluations).
  split; [done |]. split; [done |].
  rewrite Hevaluations, Hprojections, length_app, length_fmap, length_reverse.
  lia.
Qed.

(** ** [generate] *)

Lemma generate_passes_spec (std_sort : Sorter) (R : RandomNumberGenerator)
    (D : Driver) (G : GenerateOptions D) :
  sort_contract std_sort → shuffle_contract R →
  ∀ (passes : list Pass) (s : SelectState R D) (stored : list (list nat)),
  generator_consistent (pattern_generator R D s) →
  proper_order (default_order_type R (pattern_generator R D s)) →
  (evaluator_agrees D →
   Forall (λ pass, true ∈ pass_timer_readings pass) passes →
   Exists (λ pass, pass_timer_is_expired pass = true) passes →
   is_Some (generate_passes std_sort R D G passes s stored))
  ∧ ∀ (s' : SelectState R D) (stored' : list (list nat)),
      generate_passes std_sort R D G passes s stored = Some (s', stored') →
      ∃ added,
        generator_consistent (pattern_generator R D s')
        ∧ collection_extended added s s'
        ∧ (collection_consistent s → collection_consistent s')
        ∧ (store_orders D G = true →
           concat stored'
           = concat stored
             ++ seq (length (projections R D s)) (length added)
           ∧ (Forall (λ order, order ≠ []) stored →
              Forall (λ order, order ≠ []) stored'))
        ∧ (store_orders D G = false → stored' = stored)
        ∧ (saturate D = false → costs R D s' = operator_costs D G).
Proof.
  intros Hsort Hshuffle passes.
  induction passes as [| pass rest IH]; intros s stored Hconsistent Hproper.
  { split; [by intros _ _ ?%Exists_nil | done]. }
  simpl.
  destruct (restart_consistent std_sort R (pattern_generator R D s)
              (used_var_pairs R D s) Hsort Hshuffle Hconsistent)
    as (generator & -> & Hconsistent1 & _ & _ & _ & _ & _ & _ & Hdefault).
  simpl.
  match goal with
  | |- context [select_systematic_patterns _ _ _ _ _ ?s0] =>
      set (s1 := s0);
      destruct (select_systematic_patterns_spec std_sort R D G pass s1
                  Hsort Hshuffle Hconsistent1 ltac:(simpl; by rewrite Hdefault))
        as [Htimer Hloop]
  end.
  assert (∀ (b : bool) (s2 : SelectState R D),
            select_systematic_patterns std_sort R D G pass s1 = Some (b, s2) →
            ∃ added,
              generator_consistent (pattern_generator R D s2)
              ∧ proper_order (default_order_type R (pattern_generator R D s2))
              ∧ collection_extended added s s2
              ∧ (collection_consistent s → collection_consistent s2)
              ∧ length (projections R D s2)
                = (length (projections R D s) + length added)%nat
              ∧ (saturate D = false → costs R D s2 = operator_costs D G))
    as Hpass.
  { intros b s2 Hrun.
    destruct (Hloop b s2 Hrun)
      as (added & (? & ? & _) & Hextended & Hkeeps & _ & Hplain).
    exists added. split; [done |]. split; [done |]. split; [done |].
    split; [done |]. split.
    - destruct Hextended as (_ & -> & _). simpl.
      by rewrite length_app, length_fmap, length_reverse.
    - intros Hsaturate. by destruct (Hplain Hsaturate) as (_ & ? & _). }
  split.
  - intros Hagrees Hreadings Hexpired.
    apply Forall_cons in Hreadings as [Hreading Hreadings].
    destruct (Htimer Hreading Hagrees) as [[b s2] Hrun]. rewrite Hrun. simpl.
    destruct (Hpass b s2 Hrun) as (added & ? & ? & _).
    case_bool_decide; [done |].
    destruct (pass_timer_is_expired pass) eqn:Hpass_timer; [done |].
    destruct b; [done |].
    apply Exists_cons in Hexpired as [? | Hexpired]; [congruence |].
    by apply IH.
  - intros s' stored' Hrun.
    destruct (select_systematic_patterns std_sort R D G pass s1)
      as [[b s2] |] eqn:Hselect; [| done].
    simpl in Hrun.
    destruct (Hpass b s2 eq_refl)
      as (added & Hconsistent2 & Hproper2 & Hextended & Hkeeps & Hlength
          & Hcosts).
    set (stored1 :=
           if store_orders D G
              && bool_decide (length (projections R D s)
                              < length (projections R D s2))%nat
           then stored ++ [seq (length (projections R D s))
                             (length (projections R D s2)
                              - length (projections R D s))]
           else stored) in *.
    assert ((store_orders D G = true →
             concat stored1
             = concat stored
               ++ seq (length (projections R D s)) (length added)
             ∧ (Forall (λ order, order ≠ []) stored →
                Forall (λ order, order ≠ []) stored1))
            ∧ (store_orders D G = false → stored1 = stored)) as [Hstore Hplain].
    { subst stored1. destruct (store_orders D G); simpl; [| done].
      split; [| done]. intros _.
      destruct (decide (length (projections R D s)
                        < length (projections R D s2))%nat) as [Hgrew | Hgrew];
        [rewrite !(bool_decide_eq_true_2 _ Hgrew)
        | rewrite !(bool_decide_eq_false_2 _ Hgrew)].
      - rewrite concat_app. simpl. rewrite app_nil_r.
        replace (length (projections R D s2) - length (projections R D s))%nat
          with (length added) by lia.
        split; [done |]. intros Hnonempty. apply Forall_app. split; [done |].
        constructor; [| done]. destruct added; [simpl in *; lia | done].
      - replace (length added) with 0%nat by lia. simpl.
        by rewrite app_nil_r. }
    assert (∃ added,
              generator_consistent (pattern_generator R D s2)
              ∧ collection_extended added s s2
              ∧ (collection_consistent s → collection_consistent s2)
              ∧ (store_orders D G = true →
                 concat stored1
                 = concat stored
                   ++ seq (length (projections R D s)) (length added)
                 ∧ (Forall (λ order, order ≠ []) stored →
                    Forall (λ order, order ≠ []) stored1))
              ∧ (store_orders D G = false → stored1 = stored)
              ∧ (saturate D = false → costs R D s2 = operator_costs D G))
      as Hstop by by exists added.
    case_bool_decide; [by simplify_eq |].
    destruct (pass_timer_is_expired pass); [by simplify_eq |].
    destruct b; [by simplify_eq |].
    destruct (IH s2 stored1 Hconsistent2 Hproper2) as [_ Hrest].
    destruct (Hrest s' stored' Hrun)
      as (added' & ? & Hextended' & Hkeeps' & Hstore' & Hplain' & Hcosts').
    exists (added' ++ added). split; [done |].
    split; [by eapply collection_extended_trans |].
    split; [by intros ?; apply Hkeeps', Hkeeps |].
    split; [| split; [| done]].
    + intros Hflag. destruct (Hstore' Hflag) as [-> Hnonempty'].
      destruct (Hstore Hflag) as [-> Hnonempty].
      split; [| by intros ?; apply Hnonempty', Hnonempty].
      rewrite <- app_assoc, Hlength, length_app. f_equal.
      rewrite (Nat.add_comm (length added')). by rewrite seq_app.
    + intros Hflag. by rewrite (Hplain' Hflag), (Hplain Hflag).
Qed.

Lemma select_systematic_patterns_extends_the_collection_witness :
  ∃ b s',
    select_systematic_patterns stable_sort stream_rng toy_driver
      toy_generate_options toy_pass toy_select_state = Some (b, s')
    ∧ (∃ added, collection_extended added toy_select_state s')
    ∧ (collection_consistent toy_select_state → collection_consistent s')
    ∧ generator_consistent (pattern_generator _ _ s').
Proof.
  destruct (select_systematic_patterns stable_sort stream_rng toy_driver
              toy_generate_options toy_pass toy_select_state)
    as [[b s'] |] eqn:Hrun; [| by vm_compute in Hrun].
  exists b, s'. split; [reflexivity |].
  apply (select_systematic_patterns_extends_the_collection stable_sort
           stream_rng toy_driver toy_generate_options toy_pass
           toy_select_state s' b).
  - exact stable_sort_contract.
  - exact stream_rng_contract.
  - split; [constructor | reflexivity].
  - unfold proper_order. simpl. discriminate.
  - exact Hrun.
Defined.

Lemma select_systematic_patterns_ends_and_reports_limits_witness :
  is_Some (select_systematic_patterns stable_sort stream_rng
             toy_saturating_driver toy_saturating_options toy_pass
             (generate_start stream_rng toy_saturating_driver
                toy_saturating_options (toy_generator ORIGINAL []) 2)).
Proof.
  apply (select_systematic_patterns_ends_and_reports_limits stable_sort
           stream_rng toy_saturating_driver toy_saturating_options toy_pass
           (generate_start stream_rng toy_saturating_driver
              toy_saturating_options (toy_generator ORIGINAL []) 2)).
  - exact stable_sort_contract.
  - exact stream_rng_contract.
  - intros _ pattern dead costs. by apply bool_decide_eq_true_2.
  - split; [constructor | reflexivity].
  - unfold proper_order. simpl. discriminate.
  - by apply (list_elem_of_lookup_2 _ 4%nat).
Defined.

Lemma select_systematic_patterns_without_saturation_witness :
  ∃ b s',
    select_systematic_patterns stable_sort stream_rng toy_driver
      toy_generate_options toy_pass toy_select_state = Some (b, s')
    ∧ dead_ends _ _ s' = dead_ends _ _ toy_select_state
    ∧ costs _ _ s' = operator_costs _ toy_generate_options
    ∧ num_pattern_evaluations _ _ s'
      - num_pattern_evaluations _ _ toy_select_state
      = Z.of_nat (length (projections _ _ s'))
        - Z.of_nat (length (projections _ _ toy_select_state)).
Proof.
  destruct (select_systematic_patterns stable_sort stream_rng toy_driver
              toy_generate_options toy_pass toy_select_state)
    as [[b s'] |] eqn:Hrun; [| by vm_compute in Hrun].
  exists b, s'. split; [reflexivity |].
  apply (select_systematic_patterns_without_saturation stable_sort
           stream_rng toy_driver toy_generate_options toy_pass
           toy_select_state s' b).
  - exact stable_sort_contract.
  - exact stream_rng_contract.
  - split; [constructor | reflexivity].
  - unfold proper_order. simpl. discriminate.
  - reflexivity.
  - exact Hrun.
Defined.

Lemma var_pair_used_replicate (num_vars var1 var2 : nat) :
  var_pair_used (replicate num_vars (replicate num_vars false)) var1 var2
  = false.
Proof.
  unfold var_pair_used.
  destruct (replicate num_vars (replicate num_vars false) !! var1)
    as [row |] eqn:Hrow; simpl; [| done].
  apply lookup_replicate in Hrow as [-> _].
  destruct (replicate num_vars false !! var2) as [x |] eqn:Hx; simpl; [| done].
  by apply lookup_replicate in Hx as [-> _].
Qed.

Lemma var_pair_in_range_replicate (num_vars var1 var2 : nat) :
  var_pair_in_range (replicate num_vars (replicate num_vars false)) var1 var2
  ↔ (var1 < num_vars)%nat ∧ (var2 < num_vars)%nat.
Proof.
  unfold var_pair_in_range. split.
  - intros [x Hx].
    destruct (replicate num_vars (replicate num_vars false) !! var1)
      as [row |] eqn:Hrow; simpl in Hx; [| done].
    apply lookup_replicate in Hrow as [-> ?].
    by apply lookup_replicate in Hx as [_ ?].
  - intros [H1 H2].
    rewrite (lookup_replicate_2 _ _ _ H1). simpl.
    by rewrite (lookup_replicate_2 _ _ _ H2).
Qed.

Lemma generate_spec (std_sort : Sorter) (R : RandomNumberGenerator)
    (D : Driver) (G : GenerateOptions D) (passes : list Pass)
    (task_info : TaskInfo) (domains : list Z) (max_pattern_size_ : Z)
    (order : PatternOrder) (rng : rng_state R)
    (generator : SequentialPatternGenerator R) (num_vars : nat) :
  sort_contract std_sort → shuffle_contract R →
  new_generator task_info domains max_pattern_size_ order rng = Some generator →
  (evaluator_agrees D →
   Forall (λ pass, true ∈ pass_timer_readings pass) passes →
   Exists (λ pass, pass_timer_is_expired pass = true) passes →
   is_Some (generate std_sort R D G passes generator num_vars))
  ∧ ∀ (s : SelectState R D) (stored : list (list nat)),
      generate std_sort R D G passes generator num_vars = Some (s, stored) →
      (store_orders D G = true →
       concat stored = seq 0 (length (projections R D s))
       ∧ Forall (λ order, order ≠ []) stored)
      ∧ (store_orders D G = false → stored = [])
      ∧ (1 ≤ max_patterns D → 1 ≤ max_collection_size D →
         collection_consistent s)
      ∧ (∀ var1 var2,
           var_pair_used (used_var_pairs R D s) var1 var2 = true
           ↔ (var1 < num_vars)%nat ∧ (var2 < num_vars)%nat
             ∧ ∃ pattern, pattern ∈ pattern_set R D s
                 ∧ var1 ∈ pattern ∧ var2 ∈ pattern).
Proof.
  intros Hsort Hshuffle Hnew.
  destruct (new_generator_spec task_info domains max_pattern_size_ order rng)
    as [_ Hspec].
  destruct (Hspec generator Hnew) as (Hconsistent & _ & Hproper & _).
  unfold generate.
  destruct (generate_passes_spec std_sort R D G Hsort Hshuffle passes
              (generate_start R D G generator num_vars) []
              Hconsistent Hproper) as [Htimers Hrun].
  split; [done |]. intros s stored Hgenerate.
  destruct (Hrun s stored Hgenerate)
    as (added & _ & (Hset & Hprojections & _ & _ & Hused) & Hkeeps & Hstore
        & Hplain & _).
  simpl in *. rewrite app_nil_r in Hset.
  split.
  { intros Hflag. destruct (Hstore Hflag) as [-> Hnonempty].
    split; [| by apply Hnonempty].
    by rewrite Hprojections, length_fmap, length_reverse. }
  split; [done |].
  split.
  { intros Hpatterns Hsize. apply Hkeeps.
    unfold collection_consistent. simpl.
    split; [constructor |]. split; [done |]. split; [constructor |].
    split; [done |]. split; lia. }
  intros var1 var2. rewrite Hused, var_pair_used_replicate, Hset.
  setoid_rewrite var_pair_in_range_replicate. split.
  - intros [? | (pattern & ? & ? & ? & ? & ?)]; [done |].
    split; [done |]. split; [done |]. by exists pattern.
  - intros (? & ? & pattern & ? & ? & ?). right. by exists pattern.
Qed.

(** Property X18.  With [store_orders], [generate] stores one order per
    pass that selected a pattern, none of them empty, and together they list
    the positions of all projections of the collection once, in ascending
    order; without [store_orders] it stores nothing. *)
Theorem generate_stores_every_position_once
    (std_sort : Sorter) (R : RandomNumberGenerator)
    (D : Driver) (G : GenerateOptions D) (passes : list Pass)
    (task_info : TaskInfo) (domains : list Z) (max_pattern_size_ : Z)
    (order : PatternOrder) (rng : rng_state R)
    (generator : SequentialPatternGenerator R) (num_vars : nat)
    (s : SelectState R D) (stored : list (list nat)) :
  sort_contract std_sort → shuffle_contract R →
  new_generator task_info domains max_pattern_size_ order rng = Some generator →
  generate std_sort R D G passes generator num_vars = Some (s, stored) →
  (store_orders D G = true →
   concat stored = seq 0 (length (projections R D s))
   ∧ Forall (λ order, order ≠ []) stored)
  ∧ (store_orders D G = false → stored = []).
Proof.
  intros Hsort Hshuffle Hnew Hgenerate.
  destruct (generate_spec std_sort R D G passes task_info domains
              max_pattern_size_ order rng generator num_vars
              Hsort Hshuffle Hnew) as [_ Hrun].
  destruct (Hrun s stored Hgenerate) as (? & ? & _). by split.
Qed.

Lemma generate_stores_every_position_once_witness :
  ∃ s stored,
    generate stable_sort stream_rng toy_driver toy_generate_options
      [toy_pass] (toy_generator ORIGINAL []) 2 = Some (s, stored)
    ∧ (store_orders _ toy_generate_options = true →
       concat stored = seq 0 (length (projections _ _ s))
       ∧ Forall (λ order, order ≠ []) stored)
    ∧ (store_orders _ toy_generate_options = false → stored = []).
Proof.
  destruct (generate stable_sort stream_rng toy_driver toy_generate_options
              [toy_pass] (toy_generator ORIGINAL []) 2)
    as [[s stored] |] eqn:Hrun; [| by vm_compute in Hrun].
  exists s, stored. split; [reflexivity |].
  apply (generate_stores_every_position_once stable_sort stream_rng
           toy_driver toy_generate_options [toy_pass] toy_task_info
           [65536; 65536] 2 ORIGINAL ([] : rng_state stream_rng)
           (toy_generator ORIGINAL []) 2).
  - exact stable_sort_contract.
  - exact stream_rng_contract.
  - reflexivity.
  - exact Hrun.
Defined.

(** Property X19.  The collection that [generate] returns, for limits of at
    least one as the option parser admits them, has no pattern twice, only
    patterns whose size fits an [int] and [max_pdb_size], at most
    [max_patterns] of them and a total size within [max_collection_size];
    its projections are those of the selected patterns in the order of
    selection.  [used_var_pairs] ends up marking exactly the pairs of
    variables of the task that occur together in a selected pattern. *)
Theorem generate_returns_a_collection_within_the_limits
    (std_sort : Sorter) (R : RandomNumberGenerator)
    (D : Driver) (G : GenerateOptions D) (passes : list Pass)
    (task_info : TaskInfo) (domains : list Z) (max_pattern_size_ : Z)
    (order : PatternOrder) (rng : rng_state R)
    (generator : SequentialPatternGenerator R) (num_vars : nat)
    (s : SelectState R D) (stored : list (list nat)) :
  sort_contract std_sort → shuffle_contract R →
  1 ≤ max_patterns D → 1 ≤ max_collection_size D →
  new_generator task_info domains max_pattern_size_ order rng = Some generator →
  generate std_sort R D G passes generator num_vars = Some (s, stored) →
  collection_consistent s
  ∧ ∀ var1 var2,
      var_pair_used (used_var_pairs R D s) var1 var2 = true
      ↔ (var1 < num_vars)%nat ∧ (var2 < num_vars)%nat
        ∧ ∃ pattern, pattern ∈ pattern_set R D s
            ∧ var1 ∈ pattern ∧ var2 ∈ pattern.
Proof.
  intros Hsort Hshuffle Hpatterns Hsize Hnew Hgenerate.
  destruct (generate_spec std_sort R D G passes task_info domains
              max_pattern_size_ order rng generator num_vars
              Hsort Hshuffle Hnew) as [_ Hrun].
  destruct (Hrun s stored Hgenerate) as (_ & _ & Hconsistent & Hused).
  split; [by apply Hconsistent | done].
Qed.

Lemma generate_returns_a_collection_within_the_limits_witness :
  ∃ s stored,
    generate stable_sort stream_rng toy_driver toy_generate_options
      [toy_pass] (toy_generator ORIGINAL []) 2 = Some (s, stored)
    ∧ collection_consistent s
    ∧ ∀ var1 var2,
        var_pair_used (used_var_pairs _ _ s) var1 var2 = true
        ↔ (var1 < 2)%nat ∧ (var2 < 2)%nat
          ∧ ∃ pattern, pattern ∈ pattern_set _ _ s
              ∧ var1 ∈ pattern ∧ var2 ∈ pattern.
Proof.
  destruct (generate stable_sort stream_rng toy_driver toy_generate_options
              [toy_pass] (toy_generator ORIGINAL []) 2)
    as [[s stored] |] eqn:Hrun; [| by vm_compute in Hrun].
  exists s, stored. split; [reflexivity |].
  apply (generate_returns_a_collection_within_the_limits stable_sort
           stream_rng toy_driver toy_generate_options [toy_pass]
           toy_task_info [65536; 65536] 2 ORIGINAL
           ([] : rng_state stream_rng) (toy_generator ORIGINAL []) 2 s
           stored).
  - exact stable_sort_contract.
  - exact stream_rng_contract.
  - by vm_compute.
  - by vm_compute.
  - reflexivity.
  - exact Hrun.
Defined.

(** Property X20.  With an evaluator whose verdicts pass the assertions
    that follow [is_useful], [generate] does not fail, and it returns at the
    latest after the pass in which the overall timer is found expired,
    provided the restart timer expires in every pass that does not end
    before. *)
Theorem generate_ends_with_the_timers
    (std_sort : Sorter) (R : RandomNumberGenerator)
    (D : Driver) (G : GenerateOptions D) (passes : list Pass)
    (task_info : TaskInfo) (domains : list Z) (max_pattern_size_ : Z)
    (order : PatternOrder) (rng : rng_state R)
    (generator : SequentialPatternGenerator R) (num_vars : nat) :
  sort_contract std_sort → shuffle_contract R → evaluator_agrees D →
  new_generator task_info domains max_pattern_size_ order rng = Some generator →
  Forall (λ pass, true ∈ pass_timer_readings pass) passes →
  Exists (λ pass, pass_timer_is_expired pass = true) passes →
  is_Some (generate std_sort R D G passes generator num_vars).
Proof.
  intros Hsort Hshuffle Hagrees Hnew.
  destruct (generate_spec std_sort R D G passes task_info domains
              max_pattern_size_ order rng generator num_vars
              Hsort Hshuffle Hnew) as [Htimers _].
  by apply Htimers.
Qed.

Lemma generate_ends_with_the_timers_witness :
  is_Some (generate stable_sort stream_rng toy_saturating_driver
             toy_saturating_options [toy_pass] (toy_generator ORIGINAL []) 2).
Proof.
  apply (generate_ends_with_the_timers stable_sort stream_rng
           toy_saturating_driver toy_saturating_options [toy_pass]
           toy_task_info [65536; 65536] 2 ORIGINAL
           ([] : rng_state stream_rng) (toy_generator ORIGINAL []) 2).
  - exact stable_sort_contract.
  - exact stream_rng_contract.
  - intros _ pattern dead costs. by apply bool_decide_eq_true_2.
  - reflexivity.
  - constructor; [| constructor]. by apply (list_elem_of_lookup_2 _ 4%nat).
  - constructor. reflexivity.
Defined.

(** ** The scores of [compute_score] *)

Lemma get_num_active_ops_bounds (pattern : Pattern) (task_info : TaskInfo) :
  0 ≤ get_num_active_ops pattern task_info
    ≤ Z.of_nat (get_num_operators task_info).
Proof.
  unfold get_num_active_ops.
  assert (∀ (ops : list nat) (n : Z),
            n ≤ foldl (λ n op_id,
                  if operator_affects_pattern task_info pattern op_id
                  then n + 1 else n) n ops
              ≤ n + Z.of_nat (length ops)) as Hcount.
  { induction ops as [| op ops IH]; intros n; simpl; [lia |].
    destruct (operator_affects_pattern task_info pattern op).
    - specialize (IH (n + 1)). lia.
    - specialize (IH n). lia. }
  specialize (Hcount (seq 0 (get_num_operators task_info)) 0).
  rewrite length_seq in Hcount. lia.
Qed.

Lemma wrap_int_range (z : Z) : INT_MIN ≤ wrap_int z ≤ INT_MAX.
Proof.
  unfold wrap_int, INT_MIN, INT_MAX.
  pose proof (Z.mod_pos_bound (z - -2147483648) 4294967296 ltac:(lia)). lia.
Qed.

Lemma wrap_int_id (z : Z) : INT_MIN ≤ z ≤ INT_MAX → wrap_int z = z.
Proof.
  unfold wrap_int, INT_MIN, INT_MAX. intros Hrange.
  rewrite Z.mod_small; lia.
Qed.

Lemma sum_of_variables_nonneg (pattern : Pattern) :
  0 ≤ sum_of_variables pattern.
Proof.
  unfold sum_of_variables.
  induction pattern as [| var pattern IH]; simpl; lia.
Qed.

Lemma get_sum_range (pattern : Pattern) :
  INT_MIN ≤ get_sum pattern ≤ INT_MAX.
Proof.
  unfold get_sum.
  assert (∀ (l : list nat) (base : Z),
            INT_MIN ≤ base ≤ INT_MAX →
            INT_MIN ≤ foldl (λ sum var, wrap_int (sum + Z.of_nat var)) base l
              ≤ INT_MAX) as Hsum.
  { induction l as [| x l IH]; intros base Hbase; simpl; [done |].
    apply IH, wrap_int_range. }
  apply Hsum. unfold INT_MIN, INT_MAX. lia.
Qed.

Lemma get_sum_exact (pattern : Pattern) :
  sum_of_variables pattern ≤ INT_MAX →
  get_sum pattern = sum_of_variables pattern.
Proof.
  unfold get_sum.
  assert (∀ (l : list nat) (base : Z),
            0 ≤ base → base + sum_of_variables l ≤ INT_MAX →
            foldl (λ sum var, wrap_int (sum + Z.of_nat var)) base l
            = base + sum_of_variables l) as Hsum.
  { induction l as [| x l IH]; intros base Hbase Hfits.
    - simpl. unfold sum_of_variables. simpl. lia.
    - pose proof (sum_of_variables_nonneg l) as Hrest.
      change (sum_of_variables (x :: l))
        with (Z.of_nat x + sum_of_variables l) in *.
      simpl. rewrite wrap_int_id by (unfold INT_MIN; lia).
      rewrite IH by lia. lia. }
  intros Hfits. by rewrite Hsum by (lia || done).
Qed.

(** The sum of [get_sum] leaves the range of [int] as soon as the variables
    add up to more than [INT_MAX]. *)
Lemma get_sum_wraps_around :
  get_sum [Z.to_nat INT_MAX; 1%nat] = INT_MIN.
Proof.
  unfold get_sum. cbn [foldl].
  rewrite Z2Nat.id by (unfold INT_MAX; lia).
  reflexivity.
Qed.

(** Property X21.  [compute_score] aborts exactly for the policies that
    have no score: [ORIGINAL], [RANDOM], [REVERSE], [ALT_TWO] and the two
    composite ones.  Each [_DOWN] policy scores a pattern as the [_UP]
    policy of the same name does.  The number of active operators lies
    between 0 and the number of operators of the task, the number of new
    variable pairs between 0 and the number of pairs of the pattern.  The
    sum of the variables is an [int]; it is the sum proper, and so not
    negative, as long as that is at most [INT_MAX].  The minimum of the
    variables lies between 0 and [INT_MAX] and their maximum is at least
    -1. *)
Theorem compute_score_aborts_or_scores_in_range
    (pattern : Pattern) (order_type : PatternOrder) (task_info : TaskInfo)
    (domains : list Z) (used_var_pairs : list (list bool)) :
  (compute_score pattern order_type task_info domains used_var_pairs = None
   ↔ is_score_order order_type = false)
  ∧ (compute_score pattern PDB_SIZE_DOWN task_info domains used_var_pairs
     = compute_score pattern PDB_SIZE_UP task_info domains used_var_pairs
     ∧ compute_score pattern CG_SUM_DOWN task_info domains used_var_pairs
       = compute_score pattern CG_SUM_UP task_info domains used_var_pairs
     ∧ compute_score pattern CG_MIN_DOWN task_info domains used_var_pairs
       = compute_score pattern CG_MIN_UP task_info domains used_var_pairs
     ∧ compute_score pattern CG_MAX_DOWN task_info domains used_var_pairs
       = compute_score pattern CG_MAX_UP task_info domains used_var_pairs
     ∧ compute_score pattern NEW_VAR_PAIRS_DOWN task_info domains
         used_var_pairs
       = compute_score pattern NEW_VAR_PAIRS_UP task_info domains
           used_var_pairs
     ∧ compute_score pattern ACTIVE_OPS_DOWN task_info domains used_var_pairs
       = compute_score pattern ACTIVE_OPS_UP task_info domains used_var_pairs)
  ∧ ∀ score,
      compute_score pattern order_type task_info domains used_var_pairs
      = Some score →
      (order_type = ACTIVE_OPS_UP ∨ order_type = ACTIVE_OPS_DOWN →
       0 ≤ score ≤ Z.of_nat (get_num_operators task_info))
      ∧ (order_type = NEW_VAR_PAIRS_UP ∨ order_type = NEW_VAR_PAIRS_DOWN →
         0 ≤ score
         ∧ 2 * score
           ≤ Z.of_nat (length pattern) * (Z.of_nat (length pattern) - 1))
      ∧ (order_type = CG_SUM_UP ∨ order_type = CG_SUM_DOWN →
         INT_MIN ≤ score ≤ INT_MAX
         ∧ (sum_of_variables pattern ≤ INT_MAX →
            score = sum_of_variables pattern ∧ 0 ≤ score))
      ∧ (order_type = CG_MIN_UP ∨ order_type = CG_MIN_DOWN →
         0 ≤ score ≤ INT_MAX)
      ∧ (order_type = CG_MAX_UP ∨ order_type = CG_MAX_DOWN → -1 ≤ score).
Proof.
  split; [by destruct order_type |].
  split; [done |].
  intros score Hscore.
  pose proof (get_num_active_ops_bounds pattern task_info) as Hactive.
  pose proof (get_num_new_var_pairs_bounds pattern used_var_pairs) as Hpairs.
  pose proof (get_sum_range pattern) as Hsum.
  pose proof (get_sum_exact pattern) as Hexact.
  pose proof (sum_of_variables_nonneg pattern) as Hnonneg.
  destruct (foldl_min_spec pattern INT_MAX) as (Hmin_base & _ & Hmin).
  destruct (foldl_max_spec pattern (-1)) as (Hmax_base & _ & _).
  fold (get_min pattern) in Hmin_base, Hmin.
  fold (get_max pattern) in Hmax_base.
  assert (0 ≤ get_min pattern) as Hmin_low.
  { destruct Hmin as [-> | (var & _ & ->)]; [done | lia]. }
  destruct order_type; simpl in Hscore; simplify_eq;
    (split; [| split; [| split; [| split]]]); intros [? | ?]; try done;
    try lia; (split; [done |]; intros Hfits; rewrite Hexact by done; lia).
Qed.

Lemma compute_score_aborts_or_scores_in_range_witness :
  get_sum [1%nat; 2%nat] = sum_of_variables [1%nat; 2%nat]
  ∧ 0 ≤ get_sum [1%nat; 2%nat].
Proof.
  destruct (compute_score_aborts_or_scores_in_range [1%nat; 2%nat] CG_SUM_UP
              toy_task_info [2; 2] []) as (_ & _ & Hrange).
  destruct (Hrange _ eq_refl) as (_ & _ & Hsum & _).
  destruct (Hsum (or_introl eq_refl)) as [_ Hexact].
  apply Hexact. by vm_compute.
Defined.

End pdbs_further_properties.

(** * Further properties of the online heuristic

    Fact ids and the novelty sets, the notifications of the search, the
    value and the bookkeeping of [compute_heuristic]. *)

Section cost_saturation_further_properties.
Import CostSaturation.

(** ** Fact ids and seen facts *)

Lemma vec_get_insert {A} (v : list A) (i j : Z) (x : A) :
  0 ≤ i < Z.of_nat (length v) →
  vec_get (<[Z.to_nat i := x]> v) j
  = if decide (j = i) then Some x else vec_get v j.
Proof.
  intros Hi. unfold vec_get. destruct (decide (j = i)) as [-> | Hne].
  - rewrite bool_decide_eq_true_2 by lia.
    apply list_lookup_insert_eq. lia.
  - case_bool_decide; [| done]. apply list_lookup_insert_ne. lia.
Qed.

Lemma vec_get_replicate {A} (n : nat) (x : A) (i : Z) :
  0 ≤ i < Z.of_nat n → vec_get (replicate n x) i = Some x.
Proof.
  intros Hi. unfold vec_get. rewrite bool_decide_eq_true_2 by lia.
  apply lookup_replicate_2. lia.
Qed.

Lemma vec_set_Some {A} (v v' : list A) (i : Z) (x : A) :
  vec_set v i x = Some v' ↔
  0 ≤ i < Z.of_nat (length v) ∧ v' = <[Z.to_nat i := x]> v.
Proof.
  unfold vec_set. case_bool_decide; naive_solver.
Qed.

Lemma fact_ids_spec (domains offsets : list Z) (num_facts : Z)
    (fact1 fact2 : FactPair) :
  compute_fact_id_offsets 0 domains = (offsets, num_facts) →
  Forall (λ d, 0 ≤ d) domains →
  valid_fact domains fact1 → valid_fact domains fact2 →
  ∃ fact_id1 fact_id2,
    get_fact_id offsets (var fact1) (value fact1) = Some fact_id1
    ∧ get_fact_id offsets (var fact2) (value fact2) = Some fact_id2
    ∧ 0 ≤ fact_id1 < num_facts
    ∧ 0 ≤ fact_id2 < num_facts
    ∧ (fact_id1 = fact_id2 → fact1 = fact2).
Proof.
  intros Hoffsets Hdomains (d1 & Hd1 & Hvalue1) (d2 & Hd2 & Hvalue2).
  destruct (compute_fact_id_offsets_spec domains 0 offsets num_facts
              Hoffsets Hdomains) as (_ & _ & Hbounds & Hordered).
  destruct (Hbounds _ _ Hd1) as (offset1 & Hoffset1 & Hlow1 & Hhigh1).
  destruct (Hbounds _ _ Hd2) as (offset2 & Hoffset2 & Hlow2 & Hhigh2).
  exists (offset1 + value fact1), (offset2 + value fact2).
  unfold get_fact_id. rewrite Hoffset1, Hoffset2. simpl.
  split; [done |]. split; [done |]. split; [lia |]. split; [lia |].
  intros Hsame.
  destruct (Nat.lt_total (var fact1) (var fact2)) as [Hlt | [Heq | Hgt]].
  - pose proof (Hordered _ _ _ _ _ Hlt Hd1 Hoffset1 Hoffset2). lia.
  - destruct fact1 as [var1 value1], fact2 as [var2 value2]. simpl in *.
    subst var2. simplify_eq. f_equal. lia.
  - pose proof (Hordered _ _ _ _ _ Hgt Hd2 Hoffset2 Hoffset1). lia.
Qed.

(** Property X22.  The offsets that the constructor computes number the
    facts of the task without clashes: [get_fact_id] maps every fact of the
    task to an id from 0 up to the number of facts, and two facts with the
    same id are the same fact.  The novelty sets the constructor builds have
    an entry for each of them, all unset: [seen_facts] for [interval = -1],
    the matrix [seen_fact_pairs] for [interval = -2]; for another interval
    the set stays empty. *)
Theorem fact_ids_are_distinct_and_fit_the_novelty_sets
    (task : Task) (interval : Z) (fact1 fact2 : FactPair) :
  Forall (λ d, 0 ≤ d) (variable_domains task) →
  valid_fact (variable_domains task) fact1 →
  valid_fact (variable_domains task) fact2 →
  let nv := initial_novelty interval task in
  ∃ fact_id1 fact_id2,
    get_fact_id (fact_id_offsets nv) (var fact1) (value fact1) = Some fact_id1
    ∧ get_fact_id (fact_id_offsets nv) (var fact2) (value fact2) = Some fact_id2
    ∧ (fact_id1 = fact_id2 → fact1 = fact2)
    ∧ (interval = -1 → vec_get (seen_facts nv) fact_id1 = Some false)
    ∧ (interval = -2 →
       pair_entry (seen_fact_pairs nv) fact_id1 fact_id2 = Some false)
    ∧ (interval ≠ -1 → seen_facts nv = [])
    ∧ (interval ≠ -2 → seen_fact_pairs nv = []).
Proof.
  intros Hdomains Hfact1 Hfact2. unfold initial_novelty.
  destruct (compute_fact_id_offsets 0 (variable_domains task))
    as [offsets num_facts] eqn:Hoffsets. simpl.
  destruct (fact_ids_spec _ _ _ fact1 fact2 Hoffsets Hdomains Hfact1 Hfact2)
    as (fact_id1 & fact_id2 & Hid1 & Hid2 & Hrange1 & Hrange2 & Hdistinct).
  exists fact_id1, fact_id2. split; [done |]. split; [done |].
  split; [done |].
  split.
  { intros ->. rewrite bool_decide_eq_true_2 by done.
    apply vec_get_replicate. lia. }
  split.
  { intros ->. rewrite bool_decide_eq_true_2 by done. unfold pair_entry.
    rewrite vec_get_replicate by lia. simpl. apply vec_get_replicate. lia. }
  split; intros Hother; by rewrite bool_decide_eq_false_2.
Qed.

Lemma fact_ids_are_distinct_and_fit_the_novelty_sets_witness :
  let nv := initial_novelty (-2) toy_task in
  ∃ fact_id1 fact_id2,
    get_fact_id (fact_id_offsets nv) 0 1 = Some fact_id1
    ∧ get_fact_id (fact_id_offsets nv) 1 0 = Some fact_id2
    ∧ (fact_id1 = fact_id2
       → {| var := 0; value := 1 |} = {| var := 1; value := 0 |})
    ∧ (-2 = -1 → vec_get (seen_facts nv) fact_id1 = Some false)
    ∧ (-2 = -2 →
       pair_entry (seen_fact_pairs nv) fact_id1 fact_id2 = Some false)
    ∧ (-2 ≠ -1 → seen_facts nv = [])
    ∧ (-2 ≠ -2 → seen_fact_pairs nv = []).
Proof.
  apply (fact_ids_are_distinct_and_fit_the_novelty_sets toy_task (-2)
           {| var := 0; value := 1 |} {| var := 1; value := 0 |}).
  - simpl. repeat constructor; lia.
  - exists 2. simpl. split; [done | lia].
  - exists 2. simpl. split; [done | lia].
Defined.

Lemma is_novel_facts_spec (offsets : list Z) (effects : list FactPair) :
  ∀ (novel : bool) (seen : list bool),
  Forall (fact_in_range offsets seen) effects →
  ∃ novel' seen',
    is_novel_facts offsets effects novel seen = Some (novel', seen')
    ∧ length seen' = length seen
    ∧ (∀ fact_id,
         vec_get seen' fact_id = Some true
         ↔ vec_get seen fact_id = Some true
           ∨ ∃ fact, fact ∈ effects
               ∧ get_fact_id offsets (var fact) (value fact) = Some fact_id)
    ∧ (novel' = true
       ↔ novel = true ∨ ∃ fact, fact ∈ effects ∧ fact_unseen offsets seen fact).
Proof.
  induction effects as [| fact rest IH]; intros novel seen Hrange.
  { exists novel, seen. simpl. split; [done |]. split; [done |].
    split; intros; split; try naive_solver.
    - intros [? | (? & ?%elem_of_nil & _)]; done.
    - intros [? | (? & ?%elem_of_nil & _)]; done. }
  apply Forall_cons in Hrange as [(fact_id0 & Hid0 & Hrange0) Hrange].
  destruct (vec_get seen fact_id0) as [was_seen |] eqn:Hwas.
  2: { unfold vec_get in Hwas. rewrite bool_decide_eq_true_2 in Hwas by lia.
       apply lookup_ge_None in Hwas. lia. }
  simpl. rewrite Hid0. simpl. rewrite Hwas. simpl.
  destruct was_seen; simpl.
  - destruct (IH novel seen Hrange)
      as (novel' & seen' & -> & Hlength & Hseen & Hnovel).
    exists novel', seen'. split; [done |]. split; [done |]. split.
    + intros fact_id. rewrite Hseen. split.
      * intros [? | (fact' & Hin & Hid)]; [by left |].
        right. exists fact'. split; [by right | done].
      * intros [? | (fact' & [-> | Hin]%elem_of_cons & Hid)]; [by left | |].
        -- left. by simplify_eq.
        -- right. by exists fact'.
    + rewrite Hnovel. split.
      * intros [? | (fact' & Hin & Hunseen)]; [by left |].
        right. exists fact'. split; [by right | done].
      * intros [? | (fact' & [-> | Hin]%elem_of_cons & Hunseen)]; [by left | |].
        -- destruct Hunseen as (fact_id & Hid & Hunseen). by simplify_eq.
        -- right. by exists fact'.
  - unfold vec_set. rewrite bool_decide_eq_true_2 by done. simpl.
    destruct (IH true (<[Z.to_nat fact_id0 := true]> seen))
      as (novel' & seen' & -> & Hlength & Hseen & Hnovel).
    { eapply Forall_impl; [exact Hrange |].
      intros fact' (fact_id & ? & ?). exists fact_id.
      by rewrite length_insert. }
    exists novel', seen'. split; [done |].
    split; [by rewrite Hlength, length_insert |]. split.
    + intros fact_id. rewrite Hseen, vec_get_insert by done. split.
      * intros [Hset | (fact' & Hin & Hid)].
        -- destruct (decide (fact_id = fact_id0)) as [-> | ?]; [| by left].
           right. exists fact. split; [by left | done].
        -- right. exists fact'. split; [by right | done].
      * intros [Hset | (fact' & [-> | Hin]%elem_of_cons & Hid)].
        -- left. by destruct (decide (fact_id = fact_id0)).
        -- left. simplify_eq. by rewrite decide_True.
        -- right. by exists fact'.
    + split; [| by intros _; apply Hnovel; left].
      intros _. right. exists fact. split; [by left |]. by exists fact_id0.
Qed.

Lemma is_novel_facts_run
    (task : Task) (op_id : nat) (effects : list FactPair)
    (state state' : GlobalState) (nv : Novelty) :
  operator_effects task !! op_id = Some effects →
  Forall (fact_in_range (fact_id_offsets nv) (seen_facts nv)) effects →
  ∃ novel nv',
    is_novel (-1) task op_id state nv = Some (novel, nv')
    ∧ (novel = true
       ↔ ∃ fact, fact ∈ effects
           ∧ fact_unseen (fact_id_offsets nv) (seen_facts nv) fact)
    ∧ fact_id_offsets nv' = fact_id_offsets nv
    ∧ seen_fact_pairs nv' = seen_fact_pairs nv
    ∧ length (seen_facts nv') = length (seen_facts nv)
    ∧ (∀ fact_id,
         vec_get (seen_facts nv') fact_id = Some true
         ↔ vec_get (seen_facts nv) fact_id = Some true
           ∨ ∃ fact, fact ∈ effects
               ∧ get_fact_id (fact_id_offsets nv) (var fact) (value fact)
                 = Some fact_id)
    ∧ is_novel (-1) task op_id state' nv' = Some (false, nv').
Proof.
  intros Heffects Hrange. unfold is_novel.
  rewrite bool_decide_eq_true_2 by done. rewrite Heffects. simpl.
  destruct (is_novel_facts_spec (fact_id_offsets nv) effects false
              (seen_facts nv) Hrange)
    as (novel & seen & Hrun & Hlength & Hseen & Hnovel).
  rewrite Hrun. simpl. eexists _, _. split; [done |]. simpl.
  split; [rewrite Hnovel; naive_solver |].
  split; [done |]. split; [done |]. split; [done |]. split; [done |].
  destruct (is_novel_facts_spec (fact_id_offsets nv) effects false seen)
    as (novel2 & seen2 & Hrun2 & _ & _ & Hnovel2).
  { eapply Forall_impl; [exact Hrange |].
    intros fact (fact_id & ? & ?). exists fact_id. by rewrite Hlength. }
  destruct novel2.
  - destruct Hnovel2 as [Hnovel2 _].
    destruct (Hnovel2 eq_refl) as [? | (fact & Hin & fact_id & Hid & Hunseen)];
      [done |].
    assert (vec_get seen fact_id = Some true) as Hmarked.
    { apply Hseen. right. by exists fact. }
    congruence.
  - destruct (is_novel_facts_not_novel _ _ _ _ _ Hrun2) as [_ ->].
    by rewrite Hrun2.
Qed.

(** Property X23.  For [interval = -1], and effect facts whose ids lie
    within [seen_facts], [is_novel] does not fail.  It reports novelty
    exactly when an effect fact of the operator was not seen before, and
    afterwards exactly the facts seen before and the effect facts are seen;
    the state it is given plays no role.  Asking again for the same
    operator reports no novelty and changes nothing. *)
Theorem is_novel_marks_the_effect_facts
    (task : Task) (op_id : nat) (effects : list FactPair)
    (state state' : GlobalState) (nv : Novelty) :
  operator_effects task !! op_id = Some effects →
  Forall (fact_in_range (fact_id_offsets nv) (seen_facts nv)) effects →
  ∃ novel nv',
    is_novel (-1) task op_id state nv = Some (novel, nv')
    ∧ (novel = true
       ↔ ∃ fact, fact ∈ effects
           ∧ fact_unseen (fact_id_offsets nv) (seen_facts nv) fact)
    ∧ fact_id_offsets nv' = fact_id_offsets nv
    ∧ seen_fact_pairs nv' = seen_fact_pairs nv
    ∧ length (seen_facts nv') = length (seen_facts nv)
    ∧ (∀ fact_id,
         vec_get (seen_facts nv') fact_id = Some true
         ↔ vec_get (seen_facts nv) fact_id = Some true
           ∨ ∃ fact, fact ∈ effects
               ∧ get_fact_id (fact_id_offsets nv) (var fact) (value fact)
                 = Some fact_id)
    ∧ is_novel (-1) task op_id state' nv' = Some (false, nv').
Proof. apply is_novel_facts_run. Qed.

Lemma is_novel_marks_the_effect_facts_witness :
  let nv := initial_novelty (-1) toy_task in
  ∃ novel nv',
    is_novel (-1) toy_task 0 (toy_state 1 [1; 0]) nv = Some (novel, nv')
    ∧ (novel = true
       ↔ ∃ fact, fact ∈ [{| var := 0; value := 1 |}]
           ∧ fact_unseen (fact_id_offsets nv) (seen_facts nv) fact)
    ∧ fact_id_offsets nv' = fact_id_offsets nv
    ∧ seen_fact_pairs nv' = seen_fact_pairs nv
    ∧ length (seen_facts nv') = length (seen_facts nv)
    ∧ (∀ fact_id,
         vec_get (seen_facts nv') fact_id = Some true
         ↔ vec_get (seen_facts nv) fact_id = Some true
           ∨ ∃ fact, fact ∈ [{| var := 0; value := 1 |}]
               ∧ get_fact_id (fact_id_offsets nv) (var fact) (value fact)
                 = Some fact_id)
    ∧ is_novel (-1) toy_task 0 (toy_state 2 [1; 1]) nv' = Some (false, nv').
Proof.
  apply (is_novel_marks_the_effect_facts toy_task 0
           [{| var := 0; value := 1 |}] (toy_state 1 [1; 0])
           (toy_state 2 [1; 1]) (initial_novelty (-1) toy_task)).
  - reflexivity.
  - constructor; [| constructor]. exists 1. by vm_compute.
Defined.

(** ** One visit of a fact pair *)

Lemma visit_fact_pair_ordered (pairs : list (list bool)) (lo hi : Z)
    (visited : bool) (pairs' : list (list bool)) :
  lo < hi →
  visit_fact_pair pairs lo hi = Some (visited, pairs') →
  pair_entry pairs lo hi = Some (negb visited)
  ∧ (∀ i j, pair_entry pairs' i j
            = if decide (i = lo ∧ j = hi) then Some true
              else pair_entry pairs i j)
  ∧ visit_fact_pair pairs' lo hi = Some (false, pairs').
Proof.
  intros Hlt. unfold visit_fact_pair, pair_entry.
  rewrite bool_decide_eq_false_2 by lia.
  rewrite bool_decide_eq_true_2 by done. simpl.
  destruct (vec_get pairs lo) as [row |] eqn:Hrow; simpl; [| done].
  destruct (vec_get row hi) as [seen |] eqn:Hseen; simpl; [| done].
  destruct (vec_set row hi true) as [row' |] eqn:Hrow'; simpl; [| done].
  destruct (vec_set pairs lo row') as [pairs1 |] eqn:Hpairs'; simpl; [| done].
  intros [= <- <-].
  apply vec_set_Some in Hrow' as [Hhi ->].
  apply vec_set_Some in Hpairs' as [Hlo ->].
  split; [by rewrite negb_involutive |]. split.
  - intros i j. rewrite vec_get_insert by done.
    destruct (decide (i = lo)) as [-> | Hne]; simpl.
    + rewrite vec_get_insert by done. rewrite Hrow. simpl.
      destruct (decide (j = hi)) as [-> | ?].
      * by rewrite decide_True.
      * by rewrite decide_False by naive_solver.
    + by rewrite decide_False by naive_solver.
  - rewrite vec_get_insert, decide_True by done. simpl.
    rewrite vec_get_insert, decide_True by done. simpl.
    unfold vec_set. rewrite length_insert.
    rewrite bool_decide_eq_true_2 by done. simpl.
    rewrite length_insert. rewrite bool_decide_eq_true_2 by done. simpl.
    by rewrite !list_insert_insert_eq.
Qed.

Lemma visit_fact_pair_spec
    (pairs : list (list bool)) (fact_id1 fact_id2 : Z) :
  visit_fact_pair pairs fact_id1 fact_id1 = None
  ∧ (visit_fact_pair pairs fact_id1 fact_id2 = None
     ↔ fact_id1 = fact_id2
       ∨ pair_entry pairs (Z.min fact_id1 fact_id2) (Z.max fact_id1 fact_id2)
         = None)
  ∧ ∀ visited pairs',
      visit_fact_pair pairs fact_id1 fact_id2 = Some (visited, pairs') →
      pair_entry pairs (Z.min fact_id1 fact_id2) (Z.max fact_id1 fact_id2)
      = Some (negb visited)
      ∧ (∀ i j, pair_entry pairs' i j
                = if decide (i = Z.min fact_id1 fact_id2
                             ∧ j = Z.max fact_id1 fact_id2)
                  then Some true else pair_entry pairs i j)
      ∧ visit_fact_pair pairs' fact_id1 fact_id2 = Some (false, pairs')
      ∧ visit_fact_pair pairs' fact_id2 fact_id1 = Some (false, pairs').
Proof.
  assert (∀ fact_id, visit_fact_pair pairs fact_id fact_id = None) as Hequal.
  { intros fact_id. unfold visit_fact_pair.
    rewrite bool_decide_eq_false_2 by lia.
    by rewrite bool_decide_eq_false_2 by lia. }
  split; [done |].
  assert (fact_id1 ≠ fact_id2 →
          visit_fact_pair pairs fact_id1 fact_id2
          = visit_fact_pair pairs (Z.min fact_id1 fact_id2)
              (Z.max fact_id1 fact_id2)) as Hordered.
  { intros Hne. destruct (decide (fact_id1 < fact_id2)).
    - by rewrite Z.min_l, Z.max_r by lia.
    - rewrite Z.min_r, Z.max_l by lia. apply visit_fact_pair_symmetric. }
  split.
  - split.
    + intros Hnone. destruct (decide (fact_id1 = fact_id2)); [by left |].
      right. rewrite Hordered in Hnone by done.
      unfold visit_fact_pair, pair_entry in *.
      rewrite bool_decide_eq_false_2 in Hnone by lia.
      rewrite bool_decide_eq_true_2 in Hnone by lia. simpl in Hnone.
      destruct (vec_get pairs (Z.min fact_id1 fact_id2)) as [row |] eqn:Hrow;
        simpl in *; [| done].
      destruct (vec_get row (Z.max fact_id1 fact_id2)) as [seen |] eqn:Hseen;
        simpl in *; [| done].
      apply vec_get_lt in Hrow, Hseen. unfold vec_set in Hnone.
      rewrite bool_decide_eq_true_2 in Hnone by done. simpl in Hnone.
      by rewrite bool_decide_eq_true_2 in Hnone by done.
    + intros [-> | Hentry]; [done |].
      destruct (decide (fact_id1 = fact_id2)) as [-> | Hne]; [done |].
      rewrite Hordered by done.
      destruct (visit_fact_pair pairs (Z.min fact_id1 fact_id2)
                  (Z.max fact_id1 fact_id2)) as [[visited pairs'] |] eqn:Hrun;
        [| done].
      apply visit_fact_pair_ordered in Hrun as [? _]; [congruence | lia].
  - intros visited pairs' Hrun.
    assert (fact_id1 ≠ fact_id2) as Hne by (intros ->; congruence).
    rewrite Hordered in Hrun by done.
    assert (Z.min fact_id1 fact_id2 < Z.max fact_id1 fact_id2) as Hlt by lia.
    destruct (visit_fact_pair_ordered _ _ _ _ _ Hlt Hrun)
      as (Hentry & Hentries & Hagain).
    split; [done |]. split; [done |].
    assert (visit_fact_pair pairs' fact_id1 fact_id2 = Some (false, pairs'))
      as Hagain1.
    { destruct (decide (fact_id1 < fact_id2)).
      - by rewrite Z.min_l, Z.max_r in Hagain by lia.
      - rewrite Z.min_r, Z.max_l in Hagain by lia.
        by rewrite visit_fact_pair_symmetric. }
    split; [done |]. by rewrite visit_fact_pair_symmetric.
Qed.

(** Property X24.  [visit_fact_pair] fails on two equal fact ids and on ids
    outside the matrix.  When it succeeds it has set the one entry at
    (smaller id, larger id) and no other, and its result tells whether that
    entry was unset before; visiting the same pair again, in either order,
    returns [false] and changes nothing. *)
Theorem visit_fact_pair_marks_one_entry
    (pairs : list (list bool)) (fact_id1 fact_id2 : Z) :
  visit_fact_pair pairs fact_id1 fact_id1 = None
  ∧ (visit_fact_pair pairs fact_id1 fact_id2 = None
     ↔ fact_id1 = fact_id2
       ∨ pair_entry pairs (Z.min fact_id1 fact_id2) (Z.max fact_id1 fact_id2)
         = None)
  ∧ ∀ visited pairs',
      visit_fact_pair pairs fact_id1 fact_id2 = Some (visited, pairs') →
      pair_entry pairs (Z.min fact_id1 fact_id2) (Z.max fact_id1 fact_id2)
      = Some (negb visited)
      ∧ (∀ i j, pair_entry pairs' i j
                = if decide (i = Z.min fact_id1 fact_id2
                             ∧ j = Z.max fact_id1 fact_id2)
                  then Some true else pair_entry pairs i j)
      ∧ visit_fact_pair pairs' fact_id1 fact_id2 = Some (false, pairs')
      ∧ visit_fact_pair pairs' fact_id2 fact_id1 = Some (false, pairs').
Proof. apply visit_fact_pair_spec. Qed.

Lemma visit_fact_pair_marks_one_entry_witness :
  ∃ pairs',
    visit_fact_pair (replicate 4 (replicate 4 false)) 2 1 = Some (true, pairs')
    ∧ visit_fact_pair pairs' 1 2 = Some (false, pairs').
Proof.
  eexists. split; [reflexivity |].
  destruct (visit_fact_pair_marks_one_entry (replicate 4 (replicate 4 false))
              2 1) as (_ & _ & Hvisit).
  destruct (Hvisit true _ eq_refl) as (_ & _ & _ & Hagain). exact Hagain.
Defined.

(** ** The notifications of the search *)

Lemma cache_set_h_entry (cache : gmap nat HEntry) (s s2 : GlobalState) (v : Z) :
  h (cache_entry (cache_set_h cache s v) s) = v
  ∧ dirty (cache_entry (cache_set_h cache s v) s) = dirty (cache_entry cache s)
  ∧ (state_id s2 ≠ state_id s →
     cache_entry (cache_set_h cache s v) s2 = cache_entry cache s2).
Proof.
  unfold cache_entry, cache_set_h. rewrite lookup_insert_eq. simpl.
  split; [done |]. split; [done |]. intros Hne.
  by rewrite lookup_insert_ne.
Qed.

Lemma seed_facts_spec (offsets state : list Z) (vars : list nat) :
  ∀ seen : list bool,
  (∀ v, v ∈ vars →
     ∃ x, state !! v = Some x
          ∧ fact_in_range offsets seen {| var := v; value := x |}) →
  ∃ seen',
    seed_facts offsets state vars seen = Some seen'
    ∧ length seen' = length seen
    ∧ ∀ fact_id,
        vec_get seen' fact_id = Some true
        ↔ vec_get seen fact_id = Some true
          ∨ ∃ v x, v ∈ vars ∧ state !! v = Some x
                   ∧ get_fact_id offsets v x = Some fact_id.
Proof.
  induction vars as [| v vars IH]; intros seen Hrange.
  { exists seen. split; [done |]. split; [done |]. intros fact_id. split.
    - by left.
    - intros [? | (? & ? & ?%elem_of_nil & _)]; done. }
  destruct (Hrange v ltac:(by left)) as (x & Hx & fact_id0 & Hid0 & Hrange0).
  simpl in Hid0. simpl. rewrite Hx. simpl. rewrite Hid0. simpl.
  unfold vec_set. rewrite bool_decide_eq_true_2 by done. simpl.
  destruct (IH (<[Z.to_nat fact_id0 := true]> seen))
    as (seen' & -> & Hlength & Hseen).
  { intros v' Hin. destruct (Hrange v' ltac:(by right))
      as (x' & Hx' & fact_id & ? & ?).
    exists x'. split; [done |]. exists fact_id. by rewrite length_insert. }
  exists seen'. split; [done |]. split; [by rewrite Hlength, length_insert |].
  intros fact_id. rewrite Hseen, vec_get_insert by done. split.
  - intros [Hset | (v' & x' & Hin & Hx' & Hid)].
    + destruct (decide (fact_id = fact_id0)) as [-> | ?]; [| by left].
      right. exists v, x. split; [by left | done].
    + right. exists v', x'. split; [by right | done].
  - intros [Hset | (v' & x' & [-> | Hin]%elem_of_cons & Hx' & Hid)].
    + left. by destruct (decide (fact_id = fact_id0)).
    + left. simplify_eq. by rewrite decide_True.
    + right. by exists v', x'.
Qed.

Lemma notify_initial_state_facts (C : Collaborators) (O : Options)
    (initial_state : GlobalState) (st : Heuristic C) :
  interval O = -1 →
  length (state_values initial_state)
  = length (fact_id_offsets (novelty C st)) →
  (∀ v x, state_values initial_state !! v = Some x →
     fact_in_range (fact_id_offsets (novelty C st))
       (seen_facts (novelty C st)) {| var := v; value := x |}) →
  ∃ st',
    notify_initial_state C O initial_state st = Some st'
    ∧ fact_id_offsets (novelty C st') = fact_id_offsets (novelty C st)
    ∧ length (seen_facts (novelty C st'))
      = length (seen_facts (novelty C st))
    ∧ ∀ fact_id,
        vec_get (seen_facts (novelty C st')) fact_id = Some true
        ↔ vec_get (seen_facts (novelty C st)) fact_id = Some true
          ∨ ∃ v x, state_values initial_state !! v = Some x
                   ∧ get_fact_id (fact_id_offsets (novelty C st)) v x
                     = Some fact_id.
Proof.
  intros Hinterval Hlength Hrange. unfold notify_initial_state.
  rewrite bool_decide_eq_false_2 by lia.
  rewrite bool_decide_eq_true_2 by done.
  destruct (seed_facts_spec (fact_id_offsets (novelty C st))
              (state_values initial_state)
              (seq 0 (length (fact_id_offsets (novelty C st))))
              (seen_facts (novelty C st)))
    as (seen' & -> & Hlength' & Hseen).
  { intros v Hin%elem_of_seq.
    destruct (state_values initial_state !! v) as [x |] eqn:Hx.
    - exists x. split; [done |]. by apply Hrange.
    - apply lookup_ge_None in Hx. lia. }
  simpl. eexists. split; [done |]. simpl. split; [done |]. split; [done |].
  intros fact_id. rewrite Hseen. split.
  - intros [? | (v & x & _ & ? & ?)]; [by left |]. right. by exists v, x.
  - intros [? | (v & x & Hx & ?)]; [by left |]. right. exists v, x.
    split; [| done]. apply elem_of_seq. apply lookup_lt_Some in Hx. lia.
Qed.

Lemma notify_initial_state_cache (C : Collaborators) (O : Options)
    (initial_state : GlobalState) (st st' : Heuristic C) :
  interval O < 1 →
  notify_initial_state C O initial_state st = Some st' →
  (interval O = -1 ∨ interval O = -2)
  ∧ h (cache_entry (heuristic_cache C st') initial_state) = IS_NOVEL
  ∧ should_compute_scp C O initial_state st' = Some true
  ∧ (∀ s2, state_id s2 ≠ state_id initial_state →
       cache_entry (heuristic_cache C st') s2
       = cache_entry (heuristic_cache C st) s2)
  ∧ cp_heuristics C st' = cp_heuristics C st
  ∧ improve_heuristic C st' = improve_heuristic C st
  ∧ num_evaluated_states C st' = num_evaluated_states C st.
Proof.
  intros Hinterval. unfold notify_initial_state.
  rewrite bool_decide_eq_false_2 by lia.
  assert (∀ nv,
            let st1 := set_novelty_cache C st nv
                         (cache_set_h (heuristic_cache C st) initial_state
                            IS_NOVEL) in
            (interval O = -1 ∨ interval O = -2) →
            h (cache_entry (heuristic_cache C st1) initial_state) = IS_NOVEL
            ∧ should_compute_scp C O initial_state st1 = Some true
            ∧ (∀ s2, state_id s2 ≠ state_id initial_state →
                 cache_entry (heuristic_cache C st1) s2
                 = cache_entry (heuristic_cache C st) s2)
            ∧ cp_heuristics C st1 = cp_heuristics C st
            ∧ improve_heuristic C st1 = improve_heuristic C st
            ∧ num_evaluated_states C st1 = num_evaluated_states C st)
    as Hseeded.
  { intros nv st1 Hnovelty. subst st1. simpl.
    destruct (cache_set_h_entry (heuristic_cache C st) initial_state
                initial_state IS_NOVEL) as (Hh & _ & _).
    split; [done |]. split.
    - unfold should_compute_scp. simpl.
      rewrite bool_decide_eq_false_2 by lia.
      rewrite bool_decide_eq_true_2 by done.
      by rewrite Hh, bool_decide_eq_true_2.
    - split; [| done]. intros s2 Hne.
      by apply (cache_set_h_entry (heuristic_cache C st) initial_state s2). }
  case_bool_decide as Hfacts.
  { destruct (seed_facts _ _ _ _); simpl; [| done]. intros [= <-].
    split; [by left |]. apply Hseeded. by left. }
  case_bool_decide as Hpairs; [| done].
  destruct (seed_pairs _ _ _ _ _); simpl; [| done]. intros [= <-].
  split; [by right |]. apply Hseeded. by right.
Qed.

(** Property X25.  [notify_initial_state] does nothing for an interval of
    at least 1 and aborts for 0 and for an interval below -2.  For the two
    novelty intervals a successful call marks the initial state as novel in
    the cache, and only it, so that [should_compute_scp] fires for it.  For
    [interval = -1], a state with a value per variable and facts within
    [seen_facts], the call succeeds and afterwards exactly the facts seen
    before and the facts of the initial state are seen; an operator whose
    effects all hold in the initial state is then not novel. *)
Theorem notify_initial_state_seeds_the_novelty
    (C : Collaborators) (O : Options) (initial_state : GlobalState)
    (st : Heuristic C) :
  (interval O >= 1 → notify_initial_state C O initial_state st = Some st)
  ∧ (interval O = 0 ∨ interval O < -2 →
     notify_initial_state C O initial_state st = None)
  ∧ (∀ st', interval O < 1 →
       notify_initial_state C O initial_state st = Some st' →
       h (cache_entry (heuristic_cache C st') initial_state) = IS_NOVEL
       ∧ should_compute_scp C O initial_state st' = Some true
       ∧ ∀ s2, state_id s2 ≠ state_id initial_state →
           cache_entry (heuristic_cache C st') s2
           = cache_entry (heuristic_cache C st) s2)
  ∧ (interval O = -1 →
     length (state_values initial_state)
     = length (fact_id_offsets (novelty C st)) →
     (∀ v x, state_values initial_state !! v = Some x →
        fact_in_range (fact_id_offsets (novelty C st))
          (seen_facts (novelty C st)) {| var := v; value := x |}) →
     ∃ st',
       notify_initial_state C O initial_state st = Some st'
       ∧ (∀ fact_id,
            vec_get (seen_facts (novelty C st')) fact_id = Some true
            ↔ vec_get (seen_facts (novelty C st)) fact_id = Some true
              ∨ ∃ v x, state_values initial_state !! v = Some x
                       ∧ get_fact_id (fact_id_offsets (novelty C st)) v x
                         = Some fact_id)
       ∧ ∀ op_id effects s2,
           operator_effects (task O) !! op_id = Some effects →
           Forall (λ fact, state_values initial_state !! var fact
                           = Some (value fact)) effects →
           is_novel (-1) (task O) op_id s2 (novelty C st')
           = Some (false, novelty C st')).
Proof.
  split.
  { intros Hinterval. unfold notify_initial_state.
    by rewrite bool_decide_eq_true_2. }
  split.
  { intros Hinterval. unfold notify_initial_state.
    rewrite bool_decide_eq_false_2 by lia.
    rewrite bool_decide_eq_false_2 by lia.
    by rewrite bool_decide_eq_false_2 by lia. }
  split.
  { intros st' Hinterval Hrun.
    destruct (notify_initial_state_cache C O initial_state st st'
                Hinterval Hrun) as (_ & ? & ? & ? & _). done. }
  intros Hinterval Hlength Hrange.
  destruct (notify_initial_state_facts C O initial_state st Hinterval
              Hlength Hrange) as (st' & Hrun & Hoffsets & Hlength' & Hseen).
  exists st'. split; [done |]. split; [done |].
  intros op_id effects s2 Heffects Hhold.
  assert (Forall (fact_in_range (fact_id_offsets (novelty C st'))
                    (seen_facts (novelty C st'))) effects) as Hrange'.
  { eapply Forall_impl; [exact Hhold |]. intros [v x] Hx. simpl in Hx.
    destruct (Hrange v x Hx) as (fact_id & ? & ?).
    exists fact_id. by rewrite Hoffsets, Hlength'. }
  destruct (is_novel_facts_run (task O) op_id effects s2 s2
              (novelty C st') Heffects Hrange')
    as (novel & nv' & Hnovel_run & Hnovel & _).
  destruct novel.
  - destruct Hnovel as [Hnovel _].
    destruct (Hnovel eq_refl) as (fact & Hin & fact_id & Hid & Hunseen).
    rewrite Forall_forall in Hhold. specialize (Hhold fact Hin).
    assert (vec_get (seen_facts (novelty C st')) fact_id = Some true).
    { apply Hseen. right. exists (var fact), (value fact).
      by rewrite <- Hoffsets. }
    congruence.
  - rewrite Hnovel_run. f_equal. f_equal.
    unfold is_novel in Hnovel_run.
    rewrite bool_decide_eq_true_2 in Hnovel_run by done.
    rewrite Heffects in Hnovel_run. simpl in Hnovel_run.
    destruct (is_novel_facts _ _ _ _) as [[novel seen] |] eqn:Hfacts;
      simpl in Hnovel_run; [| done].
    injection Hnovel_run as -> <-.
    destruct (is_novel_facts_not_novel _ _ _ _ _ Hfacts) as [_ ->].
    by destruct (novelty C st').
Qed.

Lemma notify_initial_state_seeds_the_novelty_witness :
  is_Some (notify_initial_state toy_collaborators (toy_options ONE_SHOT (-1) true)
             (toy_state 0 [0; 0]) (toy_heuristic (-1) [])).
Proof.
  destruct (notify_initial_state_seeds_the_novelty toy_collaborators
              (toy_options ONE_SHOT (-1) true) (toy_state 0 [0; 0])
              (toy_heuristic (-1) [])) as (_ & _ & _ & Hfacts).
  destruct Hfacts as (st' & Hrun & _).
  - reflexivity.
  - reflexivity.
  - intros [| [| v]] x Hx; simpl in Hx; simplify_eq.
    + exists 0. by vm_compute.
    + exists 2. by vm_compute.
  - by rewrite Hrun.
Defined.

(** Property X26.  [notify_state_transition] decides the novelty of a state
    once: for a state without a cache value, during the improvement phase
    and with a novelty interval, it stores the verdict of [is_novel] in the
    cache entry of that state, which is what [should_compute_scp] then
    reads; in every other case, and on every further notification of the
    same state, it changes nothing.  It never touches the cache entries of
    other states, the stored heuristics or the counters. *)
Theorem notify_state_transition_decides_once
    (C : Collaborators) (O : Options)
    (op_id : nat) (global_state : GlobalState) (st st' : Heuristic C) :
  notify_state_transition C O op_id global_state st = Some st' →
  (improve_heuristic C st = false ∨ interval O >= 1
   ∨ h (cache_entry (heuristic_cache C st) global_state) ≠ NO_VALUE →
   st' = st)
  ∧ (improve_heuristic C st = true → interval O < 1 →
     h (cache_entry (heuristic_cache C st) global_state) = NO_VALUE →
     ∃ novel : bool,
       is_novel (interval O) (task O) op_id global_state (novelty C st)
       = Some (novel, novelty C st')
       ∧ h (cache_entry (heuristic_cache C st') global_state)
         = (if novel then IS_NOVEL else IS_NOT_NOVEL)
       ∧ should_compute_scp C O global_state st' = Some novel)
  ∧ (∀ s2, state_id s2 ≠ state_id global_state →
       cache_entry (heuristic_cache C st') s2
       = cache_entry (heuristic_cache C st) s2)
  ∧ (∀ op_id', notify_state_transition C O op_id' global_state st' = Some st')
  ∧ cp_heuristics C st' = cp_heuristics C st
  ∧ improve_heuristic C st' = improve_heuristic C st
  ∧ num_evaluated_states C st' = num_evaluated_states C st
  ∧ num_scps_computed C st' = num_scps_computed C st.
Proof.
  unfold notify_state_transition.
  destruct (improve_heuristic C st) eqn:Himprove; simpl.
  2: { intros [= <-]. rewrite Himprove. simpl. by repeat split. }
  destruct (decide (interval O >= 1)) as [Hinterval | Hinterval].
  { rewrite !(bool_decide_eq_true_2 _ Hinterval).
    intros [= <-]. rewrite Himprove. simpl. by repeat split. }
  rewrite !(bool_decide_eq_false_2 _ Hinterval).
  destruct (decide (h (cache_entry (heuristic_cache C st) global_state)
                    = NO_VALUE)) as [Hnew | Hold].
  2: { rewrite !(bool_decide_eq_false_2 _ Hold). intros [= <-].
       rewrite Himprove. simpl. rewrite !(bool_decide_eq_false_2 _ Hold).
       by repeat split. }
  rewrite !(bool_decide_eq_true_2 _ Hnew).
  destruct (is_novel (interval O) (task O) op_id global_state (novelty C st))
    as [[novel nv] |] eqn:Hnovel; simpl; [| done].
  destruct (cache_set_h_entry (heuristic_cache C st) global_state global_state
              (if novel then IS_NOVEL else IS_NOT_NOVEL)) as (Hh & _ & _).
  destruct (dirty _); [| done]. intros [= <-]. simpl. rewrite Himprove. simpl.
  split; [intros [? | [? | ?]]; done |].
  split.
  { intros _ _ _. exists novel. split; [done |]. split; [done |].
    unfold should_compute_scp. simpl.
    rewrite bool_decide_eq_false_2 by lia.
    assert (interval O = -1 ∨ interval O = -2) as Hnovelty.
    { unfold is_novel in Hnovel. repeat case_bool_decide; naive_solver. }
    rewrite bool_decide_eq_true_2 by done. rewrite Hh.
    by destruct novel. }
  split.
  { intros s2 Hne.
    by apply (cache_set_h_entry (heuristic_cache C st) global_state s2). }
  split; [| done].
  intros op_id'. rewrite Hh.
  rewrite bool_decide_eq_false_2; [done |]. by destruct novel.
Qed.

Lemma notify_state_transition_decides_once_witness :
  ∃ st',
    notify_state_transition toy_collaborators (toy_options ONE_SHOT (-1) true)
      0 (toy_state 1 [1; 0]) (toy_heuristic (-1) []) = Some st'
    ∧ notify_state_transition toy_collaborators
        (toy_options ONE_SHOT (-1) true) 0 (toy_state 1 [1; 0]) st' = Some st'.
Proof.
  eexists. split; [reflexivity |].
  destruct (notify_state_transition_decides_once toy_collaborators
              (toy_options ONE_SHOT (-1) true) 0 (toy_state 1 [1; 0])
              (toy_heuristic (-1) []) _ eq_refl)
    as (_ & _ & _ & Hagain & _).
  exact (Hagain 0%nat).
Defined.

(** ** The value of [compute_heuristic] *)

Lemma compute_max_h_snoc (cps : list CostPartitioningHeuristic)
    (cp : CostPartitioningHeuristic) (ids : list Z) :
  compute_max_h (cps ++ [cp]) ids
  = Z.max (compute_max_h cps ids) (cph_compute_heuristic cp ids).
Proof. unfold compute_max_h. by rewrite foldl_app. Qed.

Lemma compute_max_h_ge (cps : list CostPartitioningHeuristic) (ids : list Z)
    (cp : CostPartitioningHeuristic) :
  cp ∈ cps → cph_compute_heuristic cp ids ≤ compute_max_h cps ids.
Proof.
  unfold compute_max_h. generalize 0.
  induction cps as [| cp' cps IH]; intros base Hin; [by apply elem_of_nil in Hin |].
  simpl. apply elem_of_cons in Hin as [-> | Hin]; [| by apply IH].
  etrans; [| apply compute_max_h_from_ge]. lia.
Qed.

Lemma compute_heuristic_value (C : Collaborators) (O : Options)
    (time_limit_reached : bool) (global_state : GlobalState)
    (st st' : Heuristic C) (r : Z) (evs : list Event) :
  compute_heuristic C O time_limit_reached global_state st = Some (r, st', evs) →
  r ≠ DEAD_END →
  let ids := abstract_state_ids_of C st global_state in
  let max_h := compute_max_h (cp_heuristics C st) ids in
  0 ≤ r
  ∧ max_h ≤ r
  ∧ ((EvOrder ∉ evs) → r = max_h ∧ cp_heuristics C st' = cp_heuristics C st)
  ∧ (EvOrder ∈ evs →
     r = Z.max max_h (scp_h C (compute_fresh_scp C O ids max_h st)))
  ∧ (saturator O ≠ PERIMSTAR → use_evaluated_state_as_sample O = true →
     r = compute_max_h (cp_heuristics C st') ids).
Proof.
  unfold compute_heuristic, abstract_state_ids_of.
  destruct (phase_assertion C st); [| done]. simpl.
  set (ids := if improve_heuristic C st
              then get_abstract_state_ids C (abstractions C st)
                     (state_values global_state)
              else get_abstract_state_ids_of_functions C
                     (abstraction_functions C st)
                     (state_values global_state)).
  destruct (is_unsolvable _ _) eqn:Hdead.
  { intros. by simplify_eq. }
  pose proof (compute_max_h_nonneg (cp_heuristics C st) ids) as Hmax.
  assert (∀ e : Event, EvOrder ∈ [EvMaxH; e] → e = EvOrder) as Hpair.
  { intros e Hin. apply elem_of_cons in Hin as [? | Hin]; [done |].
    by apply list_elem_of_singleton in Hin. }
  destruct (improve_heuristic C st
            && (time_limit_reached || bool_decide (size_kb C st >= max_size_kb O))).
  - destruct (stop_improvement C O st) as [st1 |] eqn:Hstop; [| done].
    simpl.
    assert (improve_heuristic C st1 = false
            ∧ cp_heuristics C st1 = cp_heuristics C st) as [Himprove Hcps].
    { unfold stop_improvement in Hstop.
      destruct (extract_useful_abstraction_functions _ _ _ _ _); [| done].
      simpl in Hstop. simplify_eq. by split. }
    rewrite Himprove. simpl. intros [= <- <- <-] _. simpl.
    split; [done |]. split; [lia |]. split; [by rewrite Hcps |].
    split; [by intros ?%Hpair |]. intros _ _. by rewrite Hcps.
  - simpl.
    destruct (if improve_heuristic C st
              then should_compute_scp C O global_state st else Some false)
      as [[|] |]; simpl; [| | done].
    + intros [= <- <- <-] _. simpl.
      destruct (compute_fresh_scp_spec C O ids
                  (compute_max_h (cp_heuristics C st) ids) st)
        as (Hh & _ & Hone_shot).
      set (scp := compute_fresh_scp C O ids
                    (compute_max_h (cp_heuristics C st) ids) st) in *.
      assert (EvOrder ∈ EvMaxH :: scp_events C scp
                        ++ (if use_evaluated_state_as_sample O
                               && bool_decide
                                    (scp_h C scp
                                     > compute_max_h (cp_heuristics C st) ids)
                            then [EvStore] else [])) as Hordered.
      { apply elem_of_cons. right. apply elem_of_app. left.
        subst scp. unfold compute_fresh_scp.
        repeat case_match; simpl; by left. }
      split; [lia |]. split; [lia |]. split; [by intros Hnot |].
      split; [done |]. intros Hsaturator Hsample. rewrite Hsample. simpl.
      destruct (Hone_shot Hsaturator) as (_ & Hfinal & _).
      case_bool_decide as Hdiverse.
      * rewrite compute_max_h_snoc, Hfinal, <- Hh. done.
      * lia.
    + intros [= <- <- <-] _. simpl.
      split; [done |]. split; [lia |]. split; [done |].
      split; [| done]. intros Hin%elem_of_cons.
      destruct Hin as [? | Hin]; [done |]. by apply elem_of_nil in Hin.
Qed.

(** Property X27.  For a state that is not a dead end [compute_heuristic]
    returns a value that is not negative and not below the value of any
    stored heuristic at that state.  Without a fresh SCP it is their
    maximum, and the stored heuristics stay as they are; with one it is the
    maximum of that and the value of the fresh SCP as first computed.  With
    a saturator other than [PERIMSTAR] and [use_evaluated_state_as_sample]
    the value returned is again the maximum over the heuristics stored
    after the call. *)
Theorem compute_heuristic_returns_the_maximum
    (C : Collaborators) (O : Options)
    (time_limit_reached : bool) (global_state : GlobalState)
    (st st' : Heuristic C) (r : Z) (evs : list Event) :
  compute_heuristic C O time_limit_reached global_state st = Some (r, st', evs) →
  r ≠ DEAD_END →
  let ids := abstract_state_ids_of C st global_state in
  let max_h := compute_max_h (cp_heuristics C st) ids in
  0 ≤ r
  ∧ (∀ cp, cp ∈ cp_heuristics C st → cph_compute_heuristic cp ids ≤ r)
  ∧ ((EvOrder ∉ evs) → r = max_h ∧ cp_heuristics C st' = cp_heuristics C st)
  ∧ (EvOrder ∈ evs →
     r = Z.max max_h (scp_h C (compute_fresh_scp C O ids max_h st)))
  ∧ (saturator O ≠ PERIMSTAR → use_evaluated_state_as_sample O = true →
     r = compute_max_h (cp_heuristics C st') ids).
Proof.
  intros Hrun Halive.
  destruct (compute_heuristic_value C O time_limit_reached global_state st st'
              r evs Hrun Halive) as (? & Hmax & ? & ? & ?).
  split; [done |]. split; [| done].
  intros cp Hin. etrans; [by apply compute_max_h_ge | done].
Qed.

Lemma compute_heuristic_returns_the_maximum_witness :
  ∃ st' evs,
    compute_heuristic toy_collaborators (toy_options ONE_SHOT 1 true) false
      (toy_state 0 [0; 0]) (toy_heuristic 1 []) = Some (1, st', evs)
    ∧ 1 = compute_max_h (cp_heuristics _ st') [0; 0].
Proof.
  eexists _, _. split; [reflexivity |].
  destruct (compute_heuristic_returns_the_maximum toy_collaborators
              (toy_options ONE_SHOT 1 true) false (toy_state 0 [0; 0])
              (toy_heuristic 1 []) _ 1 _ eq_refl)
    as (_ & _ & _ & _ & Hstored).
  - by vm_compute.
  - by apply Hstored.
Defined.

(** ** The books of the heuristic *)

Lemma stored_size_kb_app (C : Collaborators)
    (cps1 cps2 : list CostPartitioningHeuristic) :
  stored_size_kb C (cps1 ++ cps2)
  = stored_size_kb C cps1 + stored_size_kb C cps2.
Proof.
  induction cps1 as [| cp cps1 IH]; [done |].
  change (stored_size_kb C ((cp :: cps1) ++ cps2))
    with (estimate_size_in_kb C cp + stored_size_kb C (cps1 ++ cps2)).
  change (stored_size_kb C (cp :: cps1))
    with (estimate_size_in_kb C cp + stored_size_kb C cps1).
  lia.
Qed.

Lemma compute_heuristic_books (C : Collaborators) (O : Options)
    (time_limit_reached : bool) (global_state : GlobalState)
    (st st' : Heuristic C) (r : Z) (evs : list Event) :
  compute_heuristic C O time_limit_reached global_state st = Some (r, st', evs) →
  phase_assertion C st' = true
  ∧ ∃ added,
      cp_heuristics C st' = cp_heuristics C st ++ added
      ∧ size_kb C st' = size_kb C st + stored_size_kb C added
      ∧ length added = length (filter (λ e, e = EvStore) evs)
      ∧ Z.of_nat (length added)
        ≤ num_scps_computed C st' - num_scps_computed C st
        ≤ num_evaluated_states C st' - num_evaluated_states C st
      ∧ num_evaluated_states C st' - num_evaluated_states C st ≤ 1.
Proof.
  unfold compute_heuristic.
  destruct (phase_assertion C st) eqn:Hphase; [| done]. simpl.
  destruct (is_unsolvable _ _) eqn:Hdead.
  { intros [= <- <- <-]. split; [done |]. exists [].
    rewrite app_nil_r. unfold stored_size_kb. simpl. repeat split; lia. }
  destruct (improve_heuristic C st
            && (time_limit_reached || bool_decide (size_kb C st >= max_size_kb O)))
    eqn:Hstop_test.
  - apply andb_true_iff in Hstop_test as [Himprove _].
    destruct (stop_improvement_total C O st Hphase Himprove)
      as (functions & Hextract & Hstop).
    unfold phase_assertion in Hphase. rewrite Himprove in Hphase.
    apply andb_true_iff in Hphase as [Hnonempty Hempty].
    apply bool_decide_eq_true_1 in Hempty.
    apply negb_true_iff, bool_decide_eq_false_1 in Hnonempty.
    rewrite Hstop. simpl. intros [= <- <- <-]. simpl. split.
    + unfold phase_assertion. simpl.
      unfold extract_useful_abstraction_functions in Hextract.
      case_bool_decide as Hlength; [| done]. simplify_eq.
      rewrite bool_decide_eq_false_2; [done |].
      simpl in Hlength. simpl. lia.
    + exists []. rewrite app_nil_r. unfold stored_size_kb. simpl.
      repeat split; lia.
  - simpl.
    destruct (if improve_heuristic C st
              then should_compute_scp C O global_state st else Some false)
      as [[|] |]; simpl; [| | done].
    + intros [= <- <- <-]. simpl. split; [done |].
      set (scp := compute_fresh_scp C O _ _ st).
      assert (filter (λ e, e = EvStore) (scp_events C scp) = []) as Hevents.
      { subst scp. unfold compute_fresh_scp.
        repeat case_match; simplify_eq; reflexivity. }
      destruct (use_evaluated_state_as_sample O && bool_decide (scp_h C scp > _)).
      * exists [scp_final C scp]. split; [done |].
        split; [unfold stored_size_kb; simpl; lia |].
        split; [| simpl; lia].
        rewrite filter_cons_False by done.
        rewrite filter_app, Hevents. done.
      * exists []. rewrite app_nil_r. split; [done |].
        split; [unfold stored_size_kb; simpl; lia |].
        split; [| simpl; lia].
        rewrite filter_cons_False by done.
        rewrite filter_app, Hevents. done.
    + intros [= <- <- <-]. simpl. split; [done |].
      exists []. rewrite app_nil_r. unfold stored_size_kb. simpl.
      repeat split; lia.
Qed.

Lemma call_books (C : Collaborators) (O : Options) (c : Call)
    (st st' : Heuristic C) (evs : list Event) :
  call C O c st = Some (st', evs) →
  (phase_assertion C st = true → phase_assertion C st' = true)
  ∧ ∃ added,
      cp_heuristics C st' = cp_heuristics C st ++ added
      ∧ size_kb C st' = size_kb C st + stored_size_kb C added
      ∧ length added = length (filter (λ e, e = EvStore) evs)
      ∧ Z.of_nat (length added)
        ≤ num_scps_computed C st' - num_scps_computed C st
        ≤ num_evaluated_states C st' - num_evaluated_states C st
      ∧ num_evaluated_states C st' - num_evaluated_states C st ≤ 1.
Proof.
  assert (∀ st1 : Heuristic C,
            abstractions C st1 = abstractions C st →
            abstraction_functions C st1 = abstraction_functions C st →
            improve_heuristic C st1 = improve_heuristic C st →
            cp_heuristics C st1 = cp_heuristics C st →
            size_kb C st1 = size_kb C st →
            num_scps_computed C st1 = num_scps_computed C st →
            num_evaluated_states C st1 = num_evaluated_states C st →
            (phase_assertion C st = true → phase_assertion C st1 = true)
            ∧ ∃ added,
                cp_heuristics C st1 = cp_heuristics C st ++ added
                ∧ size_kb C st1 = size_kb C st + stored_size_kb C added
                ∧ length added
                  = length (filter (λ e, e = EvStore) ([] : list Event))
                ∧ Z.of_nat (length added)
                  ≤ num_scps_computed C st1 - num_scps_computed C st
                  ≤ num_evaluated_states C st1 - num_evaluated_states C st
                ∧ num_evaluated_states C st1 - num_evaluated_states C st ≤ 1)
    as Hsame.
  { intros st1 Ha Hf Hi Hcps Hsize Hscps Hevals. split.
    - unfold phase_assertion. by rewrite Ha, Hf, Hi.
    - exists []. rewrite app_nil_r, Hcps, Hsize, Hscps, Hevals.
      unfold stored_size_kb. simpl. repeat split; lia. }
  destruct c as [s | op s | t s]; simpl.
  - destruct (notify_initial_state C O s st) as [st1 |] eqn:Hrun; [| done].
    simpl. intros [= <- <-]. unfold notify_initial_state in Hrun.
    case_bool_decide; [simplify_eq; by apply Hsame |].
    case_bool_decide.
    { destruct (seed_facts _ _ _ _); simpl in Hrun; [| done].
      simplify_eq. by apply Hsame. }
    case_bool_decide; [| done].
    destruct (seed_pairs _ _ _ _ _); simpl in Hrun; [| done].
    simplify_eq. by apply Hsame.
  - destruct (notify_state_transition C O op s st) as [st1 |] eqn:Hrun;
      [| done].
    simpl. intros [= <- <-]. unfold notify_state_transition in Hrun.
    destruct (negb (improve_heuristic C st) || bool_decide (interval O >= 1));
      [simplify_eq; by apply Hsame |].
    case_bool_decide; [| simplify_eq; by apply Hsame].
    destruct (is_novel _ _ _ _ _) as [[novel nv] |]; simpl in Hrun; [| done].
    destruct (dirty _); [| done]. simplify_eq. by apply Hsame.
  - destruct (compute_heuristic C O t s st) as [[[r st1] evs1] |] eqn:Hrun;
      [| done].
    simpl. intros [= <- <-].
    destruct (compute_heuristic_books C O t s st st1 r evs1 Hrun) as [? ?].
    by split.
Qed.

Lemma calls_books (C : Collaborators) (O : Options) (cs : list Call) :
  ∀ (st st' : Heuristic C) (evs : list Event),
  calls C O cs st = Some (st', evs) →
  (phase_assertion C st = true → phase_assertion C st' = true)
  ∧ ∃ added,
      cp_heuristics C st' = cp_heuristics C st ++ added
      ∧ size_kb C st' = size_kb C st + stored_size_kb C added
      ∧ length added = length (filter (λ e, e = EvStore) evs)
      ∧ Z.of_nat (length added)
        ≤ num_scps_computed C st' - num_scps_computed C st
        ≤ num_evaluated_states C st' - num_evaluated_states C st
      ∧ num_evaluated_states C st' - num_evaluated_states C st
        ≤ Z.of_nat (length cs).
Proof.
  induction cs as [| c cs IH]; intros st st' evs; simpl.
  { intros [= <- <-]. split; [done |]. exists []. rewrite app_nil_r.
    unfold stored_size_kb. simpl. repeat split; lia. }
  destruct (call C O c st) as [[st1 evs1] |] eqn:Hcall; simpl; [| done].
  destruct (calls C O cs st1) as [[st2 evs2] |] eqn:Hcalls; simpl; [| done].
  intros [= <- <-].
  destruct (call_books C O c st st1 evs1 Hcall)
    as (Hphase1 & added1 & Hcps1 & Hsize1 & Hstored1 & Hcount1 & Hstep1).
  destruct (IH st1 st2 evs2 Hcalls)
    as (Hphase2 & added2 & Hcps2 & Hsize2 & Hstored2 & Hcount2 & Hstep2).
  split; [by intros ?; apply Hphase2, Hphase1 |].
  exists (added1 ++ added2).
  split; [by rewrite Hcps2, Hcps1, app_assoc |].
  split; [rewrite stored_size_kb_app; lia |].
  split; [by rewrite filter_app, !length_app, Hstored1, Hstored2 |].
  rewrite length_app. lia.
Qed.

(** Property X28.  Over any sequence of calls that the search makes, the
    heuristic only appends to the stored heuristics, one per [EvStore]
    event, and [size_kb] grows by exactly their size estimates, so that it
    stays their total when it was so at the start.  No more heuristics are
    stored than SCPs computed, no more SCPs computed than states evaluated,
    and no more states evaluated than calls made.  The assertions on the
    phase at the head of [compute_heuristic] keep holding once they hold. *)
Theorem calls_keep_the_books
    (C : Collaborators) (O : Options) (cs : list Call)
    (st st' : Heuristic C) (evs : list Event) :
  calls C O cs st = Some (st', evs) →
  (phase_assertion C st = true → phase_assertion C st' = true)
  ∧ (size_kb C st = stored_size_kb C (cp_heuristics C st) →
     size_kb C st' = stored_size_kb C (cp_heuristics C st'))
  ∧ ∃ added,
      cp_heuristics C st' = cp_heuristics C st ++ added
      ∧ size_kb C st' = size_kb C st + stored_size_kb C added
      ∧ length added = length (filter (λ e, e = EvStore) evs)
      ∧ Z.of_nat (length added)
        ≤ num_scps_computed C st' - num_scps_computed C st
        ≤ num_evaluated_states C st' - num_evaluated_states C st
      ∧ num_evaluated_states C st' - num_evaluated_states C st
        ≤ Z.of_nat (length cs).
Proof.
  intros Hcalls.
  destruct (calls_books C O cs st st' evs Hcalls)
    as (Hphase & added & Hcps & Hsize & Hrest).
  split; [done |]. split; [| by exists added].
  intros Htotal. rewrite Hsize, Hcps, stored_size_kb_app. lia.
Qed.

Lemma calls_keep_the_books_witness :
  ∃ st' evs,
    calls toy_collaborators (toy_options ONE_SHOT 1 true)
      [NotifyInitialState (toy_state 0 [0; 0]);
       ComputeHeuristic false (toy_state 0 [0; 0]);
       ComputeHeuristic false (toy_state 1 [1; 0])]
      (toy_heuristic 1 []) = Some (st', evs)
    ∧ phase_assertion _ st' = true
    ∧ size_kb _ st' = stored_size_kb toy_collaborators (cp_heuristics _ st').
Proof.
  eexists _, _. split; [reflexivity |].
  destruct (calls_keep_the_books toy_collaborators
              (toy_options ONE_SHOT 1 true)
              [NotifyInitialState (toy_state 0 [0; 0]);
               ComputeHeuristic false (toy_state 0 [0; 0]);
               ComputeHeuristic false (toy_state 1 [1; 0])]
              (toy_heuristic 1 []) _ _ eq_refl) as (Hphase & Hsize & _).
  split; [by apply Hphase | by apply Hsize].
Defined.

(** ** Seen fact pairs *)

Lemma visit_fact_pair_seen_again (pairs : list (list bool))
    (fact_id1 fact_id2 : Z) :
  fact_id1 ≠ fact_id2 →
  pair_entry pairs (Z.min fact_id1 fact_id2) (Z.max fact_id1 fact_id2)
  = Some true →
  visit_fact_pair pairs fact_id1 fact_id2 = Some (false, pairs).
Proof.
  intros Hne Hentry.
  destruct (visit_fact_pair pairs fact_id1 fact_id2)
    as [[visited pairs'] |] eqn:Hrun.
  - destruct (visit_fact_pair_spec pairs fact_id1 fact_id2) as (_ & _ & Hvisit).
    destruct (Hvisit visited pairs' Hrun) as (Hbefore & _).
    rewrite Hentry in Hbefore. destruct visited; [done |].
    by rewrite (visit_fact_pair_seen _ _ _ _ Hrun).
  - destruct (visit_fact_pair_spec pairs fact_id1 fact_id2) as (_ & Hnone & _).
    apply Hnone in Hrun as [? | Hrun]; [done | congruence].
Qed.

Lemma visit_all_spec (offsets : list Z) (visits : list (FactPair * FactPair)) :
  ∀ (novel novel' : bool) (pairs pairs' : list (list bool)),
  visit_all offsets visits novel pairs = Some (novel', pairs') →
  (∀ i j, pair_entry pairs' i j = Some true
          ↔ pair_entry pairs i j = Some true
            ∨ ∃ visit fact_id1 fact_id2,
                visit ∈ visits
                ∧ get_fact_id offsets (var visit.1) (value visit.1)
                  = Some fact_id1
                ∧ get_fact_id offsets (var visit.2) (value visit.2)
                  = Some fact_id2
                ∧ i = Z.min fact_id1 fact_id2 ∧ j = Z.max fact_id1 fact_id2)
  ∧ (novel' = true
     ↔ novel = true
       ∨ ∃ visit fact_id1 fact_id2,
           visit ∈ visits
           ∧ get_fact_id offsets (var visit.1) (value visit.1) = Some fact_id1
           ∧ get_fact_id offsets (var visit.2) (value visit.2) = Some fact_id2
           ∧ pair_entry pairs (Z.min fact_id1 fact_id2)
               (Z.max fact_id1 fact_id2) = Some false)
  ∧ (∀ visit fact_id1 fact_id2,
       visit ∈ visits →
       get_fact_id offsets (var visit.1) (value visit.1) = Some fact_id1 →
       get_fact_id offsets (var visit.2) (value visit.2) = Some fact_id2 →
       fact_id1 ≠ fact_id2).
Proof.
  induction visits as [| [fact1 fact2] visits IH];
    intros novel novel' pairs pairs' Hrun; simpl in Hrun.
  { simplify_eq. split; [| split].
    - intros i j. split; [by left |].
      intros [? | (? & ? & ? & ?%elem_of_nil & _)]; done.
    - split; [by left |].
      intros [? | (? & ? & ? & ?%elem_of_nil & _)]; done.
    - by intros ? ? ? ?%elem_of_nil. }
  destruct (get_fact_id offsets (var fact1) (value fact1))
    as [id1 |] eqn:Hid1; simpl in Hrun; [| done].
  destruct (get_fact_id offsets (var fact2) (value fact2))
    as [id2 |] eqn:Hid2; simpl in Hrun; [| done].
  destruct (visit_fact_pair pairs id1 id2) as [[visited pairs1] |] eqn:Hvisit;
    simpl in Hrun; [| done].
  destruct (visit_fact_pair_spec pairs id1 id2) as (Hequal & _ & Hspec).
  destruct (Hspec visited pairs1 Hvisit) as (Hbefore & Hentries & _).
  assert (id1 ≠ id2) as Hne by (intros ->; congruence).
  destruct (IH _ _ _ _ Hrun) as (Hseen & Hnovel & Hdistinct).
  split; [| split].
  - intros i j. rewrite Hseen, Hentries. split.
    + intros [Hset | (visit & a & b & Hin & ? & ? & ? & ?)].
      * case_decide as Hhere; [| by left].
        right. exists (fact1, fact2), id1, id2.
        split; [by left |]. by destruct Hhere.
      * right. exists visit, a, b. split; [by right | done].
    + intros [Hset | (visit & a & b & [-> | Hin]%elem_of_cons & Ha & Hb & -> & ->)].
      * left. by case_decide.
      * left. simpl in *. simplify_eq. by rewrite decide_True.
      * right. by exists visit, a, b.
  - rewrite Hnovel. split.
    + intros [Hset | (visit & a & b & Hin & Ha & Hb & Hunseen)].
      * destruct visited; [| by left].
        right. exists (fact1, fact2), id1, id2. split; [by left | done].
      * rewrite Hentries in Hunseen. case_decide; [done |].
        right. exists visit, a, b. split; [by right | done].
    + intros [-> | (visit & a & b & [-> | Hin]%elem_of_cons & Ha & Hb & Hunseen)].
      * left. by destruct visited.
      * simpl in Ha, Hb. rewrite Hid1 in Ha. rewrite Hid2 in Hb.
        injection Ha as <-. injection Hb as <-. rewrite Hunseen in Hbefore.
        left. by destruct visited.
      * destruct (decide (Z.min a b = Z.min id1 id2
                          ∧ Z.max a b = Z.max id1 id2)) as [[Hlo Hhi] | Hother].
        -- rewrite Hlo, Hhi, Hbefore in Hunseen. left. by destruct visited.
        -- right. exists visit, a, b. split; [done |].
           split; [done |]. split; [done |].
           by rewrite Hentries, decide_False.
  - intros visit a b [-> | Hin]%elem_of_cons Ha Hb.
    + simpl in *. by simplify_eq.
    + by eapply Hdistinct.
Qed.

Lemma visit_all_again (offsets : list Z) (visits : list (FactPair * FactPair))
    (pairs : list (list bool)) :
  (∀ visit, visit ∈ visits →
     ∃ fact_id1 fact_id2,
       get_fact_id offsets (var visit.1) (value visit.1) = Some fact_id1
       ∧ get_fact_id offsets (var visit.2) (value visit.2) = Some fact_id2
       ∧ fact_id1 ≠ fact_id2
       ∧ pair_entry pairs (Z.min fact_id1 fact_id2) (Z.max fact_id1 fact_id2)
         = Some true) →
  visit_all offsets visits false pairs = Some (false, pairs).
Proof.
  induction visits as [| [fact1 fact2] visits IH]; intros Hseen; [done |].
  destruct (Hseen (fact1, fact2) ltac:(by left))
    as (id1 & id2 & Hid1 & Hid2 & Hne & Hentry).
  simpl in *. rewrite Hid1, Hid2. simpl.
  rewrite (visit_fact_pair_seen_again _ _ _ Hne Hentry). simpl.
  apply IH. intros visit Hin. apply Hseen. by right.
Qed.

(** Property X29.  For [interval = -2] a successful [is_novel] reports
    novelty exactly when one of the pairs it visits, an effect fact of the
    operator with the fact of the state on another variable, was not seen
    before; afterwards exactly the pairs seen before and the visited pairs
    are set, each at (smaller id, larger id), and [seen_facts] and the
    offsets are as before.  Asking again for the same operator and state
    reports no novelty and changes nothing. *)
Theorem is_novel_marks_the_visited_pairs
    (task : Task) (op_id : nat)
    (effects : list FactPair) (state : GlobalState) (nv nv' : Novelty)
    (novel : bool) :
  operator_effects task !! op_id = Some effects →
  Forall (λ fact, is_Some (get_fact_id (fact_id_offsets nv) (var fact)
                             (value fact))) effects →
  length (state_values state) = length (fact_id_offsets nv) →
  is_novel (-2) task op_id state nv = Some (novel, nv') →
  let visits :=
    is_novel_visits (length (fact_id_offsets nv)) (state_values state)
      effects in
  fact_id_offsets nv' = fact_id_offsets nv
  ∧ seen_facts nv' = seen_facts nv
  ∧ (novel = true
     ↔ ∃ visit fact_id1 fact_id2,
         visit ∈ visits
         ∧ get_fact_id (fact_id_offsets nv) (var visit.1) (value visit.1)
           = Some fact_id1
         ∧ get_fact_id (fact_id_offsets nv) (var visit.2) (value visit.2)
           = Some fact_id2
         ∧ pair_entry (seen_fact_pairs nv) (Z.min fact_id1 fact_id2)
             (Z.max fact_id1 fact_id2) = Some false)
  ∧ (∀ i j, pair_entry (seen_fact_pairs nv') i j = Some true
            ↔ pair_entry (seen_fact_pairs nv) i j = Some true
              ∨ ∃ visit fact_id1 fact_id2,
                  visit ∈ visits
                  ∧ get_fact_id (fact_id_offsets nv) (var visit.1)
                      (value visit.1) = Some fact_id1
                  ∧ get_fact_id (fact_id_offsets nv) (var visit.2)
                      (value visit.2) = Some fact_id2
                  ∧ i = Z.min fact_id1 fact_id2
                  ∧ j = Z.max fact_id1 fact_id2)
  ∧ is_novel (-2) task op_id state nv' = Some (false, nv').
Proof.
  intros Heffects Hids Hlength. unfold is_novel.
  rewrite bool_decide_eq_false_2 by lia.
  rewrite bool_decide_eq_true_2 by done. rewrite Heffects. simpl.
  rewrite is_novel_pairs_visits by done.
  destruct (visit_all _ _ _ _) as [[novel1 pairs1] |] eqn:Hrun; simpl; [| done].
  intros [= <- <-]. simpl.
  destruct (visit_all_spec _ _ _ _ _ _ Hrun) as (Hseen & Hnovel & Hdistinct).
  split; [done |]. split; [done |].
  split; [rewrite Hnovel; naive_solver |]. split; [done |].
  rewrite is_novel_pairs_visits by done.
  rewrite visit_all_again; [done |].
  intros visit Hin.
  assert (∃ fact_id1 fact_id2,
            get_fact_id (fact_id_offsets nv) (var visit.1) (value visit.1)
            = Some fact_id1
            ∧ get_fact_id (fact_id_offsets nv) (var visit.2) (value visit.2)
              = Some fact_id2) as (id1 & id2 & Hid1 & Hid2).
  { clear -Hrun Hin. revert Hrun Hin.
    generalize (is_novel_visits (length (fact_id_offsets nv))
                  (state_values state) effects) false (seen_fact_pairs nv).
    intros visits. induction visits as [| [fact1 fact2] visits IH];
      intros novel pairs Hrun Hin; [by apply elem_of_nil in Hin |].
    simpl in Hrun.
    destruct (get_fact_id _ (var fact1) _) as [a |] eqn:Ha; simpl in Hrun;
      [| done].
    destruct (get_fact_id _ (var fact2) _) as [b |] eqn:Hb; simpl in Hrun;
      [| done].
    destruct (visit_fact_pair pairs a b) as [[visited pairs2] |];
      simpl in Hrun; [| done].
    apply elem_of_cons in Hin as [-> | Hin]; [by exists a, b |].
    by eapply IH. }
  exists id1, id2. split; [done |]. split; [done |].
  split; [by eapply Hdistinct |].
  apply Hseen. right. by exists visit, id1, id2.
Qed.

Lemma is_novel_marks_the_visited_pairs_witness :
  ∃ nv',
    is_novel (-2) toy_task 0 (toy_state 1 [1; 0]) (initial_novelty (-2) toy_task)
    = Some (true, nv')
    ∧ is_novel (-2) toy_task 0 (toy_state 1 [1; 0]) nv' = Some (false, nv').
Proof.
  eexists. split; [reflexivity |].
  match goal with
  | |- is_novel _ _ _ _ ?nv' = _ =>
      destruct (is_novel_marks_the_visited_pairs toy_task 0
                  [{| var := 0; value := 1 |}] (toy_state 1 [1; 0])
                  (initial_novelty (-2) toy_task) nv' true)
        as (_ & _ & _ & _ & Hagain)
  end.
  - reflexivity.
  - constructor; [by eexists | constructor].
  - reflexivity.
  - reflexivity.
  - exact Hagain.
Defined.

(** ** Positive intervals *)

(** Property X30.  With a positive interval [compute_heuristic] does not
    fail as long as the assertions on its phase hold, and it computes a
    fresh SCP exactly for the states that are no dead end, in the
    improvement phase and within its budget, whose number among the
    evaluated states is a multiple of the interval: the first one, and with
    an interval of 1 every one. *)
Theorem scp_is_computed_every_interval_states
    (C : Collaborators) (O : Options)
    (time_limit_reached : bool) (global_state : GlobalState)
    (st : Heuristic C) :
  interval O > 0 → phase_assertion C st = true →
  ∃ r st' evs,
    compute_heuristic C O time_limit_reached global_state st
    = Some (r, st', evs)
    ∧ (EvOrder ∈ evs
       ↔ is_unsolvable (unsolvability_heuristic O)
           (abstract_state_ids_of C st global_state) = false
         ∧ improve_heuristic C st = true
         ∧ ¬ budget_exhausted C O time_limit_reached st
         ∧ (interval O | num_evaluated_states C st)).
Proof.
  intros Hinterval Hphase.
  assert (∀ e1 : list Event, EvOrder ∈ EvMaxH :: e1 → EvOrder ∈ e1) as Htail.
  { intros e1 Hin. by apply elem_of_cons in Hin as [? | ?]. }
  destruct (is_unsolvable (unsolvability_heuristic O)
              (abstract_state_ids_of C st global_state)) eqn:Hdead.
  { rewrite (compute_heuristic_dead_end C O _ _ _ Hphase Hdead).
    eexists _, _, _. split; [done |]. split; [by intros ?%elem_of_nil |].
    by intros [? _]. }
  destruct (improve_heuristic C st) eqn:Himprove.
  2: { unfold compute_heuristic. rewrite Hphase. simpl.
       unfold abstract_state_ids_of in Hdead. rewrite Himprove in *.
       rewrite Hdead. simpl. rewrite ?Himprove. simpl.
       eexists _, _, _. split; [done |].
       split; [| intros (_ & ? & _); congruence].
       intros Hin%Htail. by apply elem_of_nil in Hin. }
  destruct (decide (budget_exhausted C O time_limit_reached st))
    as [Hbudget | Hbudget].
  { destruct (compute_heuristic_stop C O time_limit_reached global_state st
                Hphase Hdead Himprove Hbudget) as (st1 & _ & ->).
    eexists _, _, _. split; [done |]. split; [| by intros (_ & _ & ? & _)].
    intros Hin%Htail. by apply list_elem_of_singleton in Hin. }
  unfold compute_heuristic. rewrite Hphase. simpl.
  unfold abstract_state_ids_of in Hdead. rewrite Himprove in *.
  rewrite Hdead. simpl.
  assert (time_limit_reached || bool_decide (size_kb C st >= max_size_kb O)
          = false) as ->.
  { unfold budget_exhausted in Hbudget.
    destruct time_limit_reached; simpl; [naive_solver |].
    apply bool_decide_eq_false_2. naive_solver. }
  simpl. rewrite ?Himprove. simpl. unfold should_compute_scp.
  rewrite (bool_decide_eq_true_2 (interval O > 0)) by done. simpl.
  destruct (decide (Z.rem (num_evaluated_states C st) (interval O) = 0))
    as [Hrem | Hrem];
    [rewrite (bool_decide_eq_true_2 _ Hrem)
    | rewrite (bool_decide_eq_false_2 _ Hrem)]; simpl.
  - eexists _, _, _. split; [done |]. split.
    + intros _. split; [done |]. split; [done |]. split; [done |].
      apply Z.rem_divide; [lia | done].
    + intros _. apply elem_of_cons. right. apply elem_of_app. left.
      unfold compute_fresh_scp. repeat case_match; simpl; by left.
  - eexists _, _, _. split; [done |]. split.
    + intros Hin%Htail. by apply elem_of_nil in Hin.
    + intros (_ & _ & _ & Hdivides). apply Z.rem_divide in Hdivides; [done | lia].
Qed.

Lemma scp_is_computed_every_interval_states_witness :
  ∃ r st' evs,
    compute_heuristic toy_collaborators (toy_options ONE_SHOT 2 true) false
      (toy_state 0 [0; 0]) (toy_heuristic 2 []) = Some (r, st', evs)
    ∧ (EvOrder ∈ evs
       ↔ is_unsolvable (unsolvability_heuristic (toy_options ONE_SHOT 2 true))
           (abstract_state_ids_of toy_collaborators (toy_heuristic 2 [])
              (toy_state 0 [0; 0])) = false
         ∧ improve_heuristic _ (toy_heuristic 2 []) = true
         ∧ ¬ budget_exhausted toy_collaborators (toy_options ONE_SHOT 2 true)
               false (toy_heuristic 2 [])
         ∧ (interval (toy_options ONE_SHOT 2 true)
            | num_evaluated_states _ (toy_heuristic 2 []))).
Proof.
  apply (scp_is_computed_every_interval_states toy_collaborators
           (toy_options ONE_SHOT 2 true) false (toy_state 0 [0; 0])
           (toy_heuristic 2 [])).
  - by vm_compute.
  - reflexivity.
Defined.

End cost_saturation_further_properties.
